(** * CollabGPT front end: the real-time room synchronisation layer

    A shallow embedding of [src/lib/socket.ts] (transport manager and room
    session) and of the socket and input handlers of [src/pages/ChatRoom.tsx]
    (event reconciler, presence tracker, typing debouncer), followed by the
    properties of the specification that concern them.

    Conventions of the embedding.
    - A JavaScript string is a [string]; a character stands for the UTF-16
      code unit of the same number, so the strings covered are those whose
      code units are below 256.
    - [string | null] and [string | undefined] are [option string]; the
      truthiness test of JavaScript ([if (x)], [x && ...]) is [truthy]:
      [null], [undefined] and the empty string are falsy.
    - A [Date] is its time value, an integer number of milliseconds, or NaN
      for an Invalid Date, which [new Date] gives for a number more than
      8.64e15 ms from the epoch.
    - React state is a record; a functional [setState] updater is a function
      from the previous value to the next one.
    - Timer and promise callbacks are first-order [Task]s run by an explicit
      event loop over a virtual clock. *)

From Stdlib Require Import ZArith Lia.
From stdpp Require Import base option list sorting strings gmap.

Open Scope Z_scope.

(* ===================================================================== *)
(** * JavaScript base notions *)
(* ===================================================================== *)

(** [if (s)] for [s : string | null | undefined]. *)
Definition truthy (s : option string) : bool :=
  match s with
  | Some s => bool_decide (s ≠ "")
  | None => false
  end.

(** [a || b] on strings that may be null: the first operand when truthy. *)
Definition or_else (a : option string) (b : string) : string :=
  match a with
  | Some s => if bool_decide (s ≠ "") then s else b
  | None => b
  end.

(** WhiteSpace and LineTerminator code units below 256 (ECMA-262, 12.2 and
    12.3): TAB, LF, VT, FF, CR, SP and NBSP. *)
Definition is_white_space (c : Ascii.ascii) : bool :=
  let n := Ascii.nat_of_ascii c in
  bool_decide (n ∈ [9; 10; 11; 12; 13; 32; 160]%nat).

Fixpoint trim_start (s : string) : string :=
  match s with
  | String c s' => if is_white_space c then trim_start s' else s
  | EmptyString => EmptyString
  end.

(** Drops the trailing white space of [s]. *)
Fixpoint trim_end (s : string) : string :=
  match s with
  | String c s' =>
      match trim_end s' with
      | EmptyString => if is_white_space c then EmptyString else String c EmptyString
      | t => String c t
      end
  | EmptyString => EmptyString
  end.

(** [String.prototype.trim]. *)
Definition trim (s : string) : string := trim_end (trim_start s).

(** The time values of valid dates (ECMA-262, 21.4.1.1): at most 8.64e15
    milliseconds from the epoch. *)
Definition max_time : Z := 8640000000000000.

Definition in_time_range (t : Z) : Prop := - max_time ≤ t ≤ max_time.

#[global] Instance in_time_range_dec (t : Z) : Decision (in_time_range t).
Proof. unfold in_time_range. apply _. Defined.

(** A [Date] and [Date.prototype.getTime]: the time value, [None] for NaN,
    the time value of an Invalid Date. *)
Record Date := mkDate { getTime : option Z }.

(** [new Date(ms)] for a number [ms] without fraction: TimeClip gives NaN
    out of range. *)
Definition new_Date (ms : Z) : Date :=
  mkDate (if bool_decide (in_time_range ms) then Some ms else None).

Section ArraySort.
Context {A : Type} (comparefn : A → A → Z).

(** One insertion step: [x], which precedes every element of [l] in the
    array being sorted, goes before the first element it does not exceed. *)
Fixpoint sort_insert (x : A) (l : list A) : list A :=
  match l with
  | [] => [x]
  | y :: l' => if comparefn x y <=? 0 then x :: l else y :: sort_insert x l'
  end.

(** [Array.prototype.sort(comparefn)]. ECMA-262 leaves the algorithm open
    but requires, for a consistent comparator, a stable sort; the result is
    then the only ordered rearrangement that keeps equal elements in their
    original order ([stable_ascending_unique] below), which this insertion
    sort computes. For a comparator that is not consistent the order is
    implementation-defined: the result of this insertion sort is then one
    rearrangement among those an engine may give, and nothing below is
    stated of its order. *)
Definition array_sort (l : list A) : list A := foldr sort_insert [] l.

End ArraySort.

(** [Array.prototype.findIndex]: the first index whose element satisfies
    the predicate ([None] stands for -1). *)
Definition findIndex {A} (P : A → Prop) `{!∀ x, Decision (P x)} (l : list A) : option nat :=
  fst <$> list_find P l.

(** [Array.prototype.some]. *)
Definition some {A} (P : A → Prop) `{!∀ x, Decision (P x)} (l : list A) : bool :=
  bool_decide (Exists P l).

(* ===================================================================== *)
(** * Data model ([socket.ts] lines 4-43, [ChatRoom.tsx] lines 37-59) *)
(* ===================================================================== *)

Inductive Role := role_user | role_assistant.

(** [ChatMessage] of [socket.ts], imported in [ChatRoom.tsx] as
    [SocketChatMessage]: a message as the server sends it. The timestamp is
    the value handed to [new Date]. *)
Module SocketChatMessage.
Record t := mk {
  id : string;
  userId : string;
  userName : string;
  userPhotoURL : option string;
  content : string;
  role : Role;
  timestamp : Z;
  isTyping : option bool;
  isError : option bool
}.
End SocketChatMessage.

(** [ChatMessage] of [ChatRoom.tsx]: a message of the rendered list. *)
Module ChatMessage.
Record t := mk {
  id : string;
  content : string;
  role : Role;
  timestamp : Date;
  userId : option string;
  userName : option string;
  userPhotoURL : option string;
  isTyping : option bool;
  isError : option bool
}.
End ChatMessage.

Module RoomUser.
Record t := mk {
  id : string;
  name : string;
  photoURL : option string;
  socketId : option string;
  avatarColor : option string
}.
End RoomUser.

Module ChatInfo.
Record t := mk {
  title : string;
  description : option string;
  createdAt : Date
}.
End ChatInfo.

(** [ChatInfo] as received: [createdAt] not yet a [Date]. *)
Module WireChatInfo.
Record t := mk {
  title : string;
  description : option string;
  createdAt : Z
}.
End WireChatInfo.

(** Payload of [room-history]. *)
Module RoomData.
Record t := mk {
  roomId : string;
  messages : list SocketChatMessage.t;
  users : list RoomUser.t;
  chatInfo : option WireChatInfo.t
}.
End RoomData.

Module TypingIndicator.
Record t := mk {
  userId : string;
  userName : string;
  isTyping : bool
}.
End TypingIndicator.

(** Value of the [typingUsers] map. *)
Module TypingInfo.
Record t := mk {
  name : string;
  photoURL : option string
}.
End TypingInfo.

(** The fields of a Firebase [User] that the client reads. *)
Module User.
Record t := mk {
  uid : string;
  displayName : option string;
  email : option string;
  photoURL : option string
}.
End User.

(** [safeUser] of [actuallyJoinRoom]. *)
Module SafeUser.
Record t := mk {
  uid : string;
  displayName : string;
  email : option string;
  photoURL : option string
}.
End SafeUser.

(* ===================================================================== *)
(** * Event reconciler and presence tracker: the [setState] updaters *)
(* ===================================================================== *)

(** [{ ...msg, timestamp: new Date(msg.timestamp) }]. *)
Definition localize (msg : SocketChatMessage.t) : ChatMessage.t :=
  {| ChatMessage.id := SocketChatMessage.id msg;
     ChatMessage.content := SocketChatMessage.content msg;
     ChatMessage.role := SocketChatMessage.role msg;
     ChatMessage.timestamp := new_Date (SocketChatMessage.timestamp msg);
     ChatMessage.userId := Some (SocketChatMessage.userId msg);
     ChatMessage.userName := Some (SocketChatMessage.userName msg);
     ChatMessage.userPhotoURL := SocketChatMessage.userPhotoURL msg;
     ChatMessage.isTyping := SocketChatMessage.isTyping msg;
     ChatMessage.isError := SocketChatMessage.isError msg |}.

(** The date of a listed message is valid. *)
Definition valid_time (m : ChatMessage.t) : Prop :=
  is_Some (getTime (ChatMessage.timestamp m)).

(** Time value of a listed message whose date is valid; 0 stands in for NaN,
    and what is stated with [time_of] below is stated of valid dates. *)
#[global] Instance valid_time_dec (m : ChatMessage.t) : Decision (valid_time m).
Proof. unfold valid_time. apply _. Defined.

Definition time_of (m : ChatMessage.t) : Z :=
  default 0 (getTime (ChatMessage.timestamp m)).

(** [(a, b) => a.timestamp.getTime() - b.timestamp.getTime()], as the sort
    reads it: the difference is NaN when one of the dates is invalid, and
    the sort takes NaN for +0 (ECMA-262, SortCompare). The sort reads the
    sign of the result only, and the sign of the difference of two time
    values is the same in floating point as here. *)
Definition by_timestamp (a b : ChatMessage.t) : Z :=
  match getTime (ChatMessage.timestamp a), getTime (ChatMessage.timestamp b) with
  | Some ta, Some tb => ta - tb
  | _, _ => 0
  end.

(** The message list set by the [room-history] handler (lines 158-161). *)
Definition history_messages (msgs : list SocketChatMessage.t) : list ChatMessage.t :=
  array_sort by_timestamp (localize <$> msgs).

(** The updater of the [new-message] handler (lines 184-204). *)
Definition new_message_update (message : SocketChatMessage.t)
    (prev : list ChatMessage.t) : list ChatMessage.t :=
  match findIndex (λ m, ChatMessage.id m = SocketChatMessage.id message) prev with
  | Some messageIndex => <[messageIndex := localize message]> prev
  | None => array_sort by_timestamp (prev ++ [localize message])
  end.

(** The updater of the [ai-typing] handler (lines 214-220). *)
Definition ai_typing_update (message : SocketChatMessage.t)
    (prev : list ChatMessage.t) : list ChatMessage.t :=
  prev ++ [localize message].

(** The [reduce] that keeps the first user of each id (lines 164-169,
    249-254 and 262-267). *)
Definition uniqueUsers (users : list RoomUser.t) : list RoomUser.t :=
  foldl (λ acc user,
           if some (λ u, RoomUser.id u = RoomUser.id user) acc
           then acc else acc ++ [user])
        [] users.

(* ===================================================================== *)
(** * The browser around [socket.ts]: clock, timers, emitted events *)
(* ===================================================================== *)

(** Events sent to the room server with [socket.emit]. *)
Inductive Outbound :=
| join_room (roomId : string) (user : option SafeUser.t)
| leave_room (roomId : string)
| send_message (roomId : string) (id : option string) (content : string) (role : Role)
| user_typing (roomId : string)
| user_stopped_typing (roomId : string)
| request_ai_response (roomId prompt : string)
| user_deleted_chat (userId roomId : string).

Inductive Transport := polling | websocket.

#[global] Instance Transport_eq_dec : EqDecision Transport.
Proof. solve_decision. Defined.

(** The socket.io client object, as far as the module reads it. *)
Record Socket := mkSocket { transports : list Transport }.

(** The callbacks handed to [setTimeout], as data:
    - [task_actuallyJoinRoom]: [() => actuallyJoinRoom(roomId, user)]
      ([socket.ts] line 135);
    - [task_stopTyping]: the idle callback of [handleInputChange]
      ([ChatRoom.tsx] lines 345-350), with the [roomId] it closes over;
    - [task_abort]: [() => controller.abort()] ([socket.ts] line 262). *)
Inductive Task :=
| task_actuallyJoinRoom (roomId : string) (user : option User.t)
| task_stopTyping (roomId : option string)
| task_abort (controller : positive).

(** A live timer. Handles are positive integers, as in browsers, hence
    always truthy. *)
Record Timer := mkTimer { handle : positive; fire_at : Z; task : Task }.

(** A [deleteUserChat] call suspended at [await fetchWithCORS(...)]. *)
Record PendingDelete := mkPendingDelete {
  pd_userId : string;
  pd_roomId : string;
  pd_controller : positive;
  pd_timeoutId : positive
}.

(** The module variables of [socket.ts] ([socket], [currentRoomId]) and the
    part of the browser they act on. [emitted] lists the calls of
    [socket.emit], oldest first, with the time of the call;
    [delete_results] the values with which the promises of [deleteUserChat]
    resolved, keyed by the call's controller. *)
Record Env := mkEnv {
  now : Z;
  timers : list Timer;
  next_handle : positive;
  emitted : list (Z * Outbound);
  stored_currentUser : option SafeUser.t;
  pending_deletes : list PendingDelete;
  delete_results : list (positive * bool);
  socket : option Socket;
  currentRoomId : option string
}.

Definition set_now (v : Z) (s : Env) : Env :=
  mkEnv v (timers s) (next_handle s) (emitted s) (stored_currentUser s)
        (pending_deletes s) (delete_results s) (socket s) (currentRoomId s).
Definition set_timers (v : list Timer) (s : Env) : Env :=
  mkEnv (now s) v (next_handle s) (emitted s) (stored_currentUser s)
        (pending_deletes s) (delete_results s) (socket s) (currentRoomId s).
Definition set_next_handle (v : positive) (s : Env) : Env :=
  mkEnv (now s) (timers s) v (emitted s) (stored_currentUser s)
        (pending_deletes s) (delete_results s) (socket s) (currentRoomId s).
Definition set_emitted (v : list (Z * Outbound)) (s : Env) : Env :=
  mkEnv (now s) (timers s) (next_handle s) v (stored_currentUser s)
        (pending_deletes s) (delete_results s) (socket s) (currentRoomId s).
Definition set_stored_currentUser (v : option SafeUser.t) (s : Env) : Env :=
  mkEnv (now s) (timers s) (next_handle s) (emitted s) v
        (pending_deletes s) (delete_results s) (socket s) (currentRoomId s).
Definition set_pending_deletes (v : list PendingDelete) (s : Env) : Env :=
  mkEnv (now s) (timers s) (next_handle s) (emitted s) (stored_currentUser s)
        v (delete_results s) (socket s) (currentRoomId s).
Definition set_delete_results (v : list (positive * bool)) (s : Env) : Env :=
  mkEnv (now s) (timers s) (next_handle s) (emitted s) (stored_currentUser s)
        (pending_deletes s) v (socket s) (currentRoomId s).
Definition set_socket (v : option Socket) (s : Env) : Env :=
  mkEnv (now s) (timers s) (next_handle s) (emitted s) (stored_currentUser s)
        (pending_deletes s) (delete_results s) v (currentRoomId s).
Definition set_currentRoomId (v : option string) (s : Env) : Env :=
  mkEnv (now s) (timers s) (next_handle s) (emitted s) (stored_currentUser s)
        (pending_deletes s) (delete_results s) (socket s) v.

(** [setTimeout(task, delay)]: a fresh handle, returned to the caller. *)
Definition setTimeout (tk : Task) (delay : Z) (s : Env) : positive * Env :=
  let h := next_handle s in
  (h, set_next_handle (Pos.succ h)
        (set_timers (timers s ++ [mkTimer h (now s + delay) tk]) s)).

(** [clearTimeout(h)]. *)
Definition clearTimeout (h : positive) (s : Env) : Env :=
  set_timers (filter (λ tm, handle tm ≠ h) (timers s)) s.

(** [new AbortController()]: controllers are numbered like timers. *)
Definition new_AbortController (s : Env) : positive * Env :=
  let c := next_handle s in (c, set_next_handle (Pos.succ c) s).

(* ===================================================================== *)
(** * [socket.ts] *)
(* ===================================================================== *)

(** [initSocket] (lines 53-122): creates the socket on first use. The
    handlers it registers are [on_connect], [on_connect_error] and
    [on_reconnect_failed] below. *)
Definition initSocket (s : Env) : Env :=
  match socket s with
  | None => set_socket (Some (mkSocket [polling; websocket])) s
  | Some _ => s
  end.

(** [socket?.emit(ev)]. *)
Definition socket_emit (ev : Outbound) (s : Env) : Env :=
  match socket s with
  | Some _ => set_emitted (emitted s ++ [(now s, ev)]) s
  | None => s
  end.

(** The [connect] handler (lines 67-81). *)
Definition on_connect (s : Env) : Env :=
  if truthy (currentRoomId s) then
    match currentRoomId s with
    | Some room => socket_emit (join_room room (stored_currentUser s)) s
    | None => s
    end
  else s.

(** The [connect_error] handler (lines 87-98). *)
Definition on_connect_error (s : Env) : Env :=
  match socket s with
  | Some sock =>
      if bool_decide (websocket ∈ transports sock)
      then set_socket (Some (mkSocket [polling])) s
      else s
  | None => s
  end.

(** The [reconnect_failed] handler (lines 114-118). *)
Definition on_reconnect_failed (s : Env) : Env := set_socket None s.

(** The [safeUser] object of [actuallyJoinRoom] (lines 149-154). *)
Definition safeUser (user : option User.t) : option SafeUser.t :=
  (λ u, SafeUser.mk (User.uid u) (or_else (User.displayName u) "User")
                    (User.email u) (User.photoURL u)) <$> user.

(** [actuallyJoinRoom] (lines 145-163). *)
Definition actuallyJoinRoom (roomId : string) (user : option User.t) (s : Env) : Env :=
  let s := set_currentRoomId (Some roomId) s in
  let s := match safeUser user with
           | Some su => set_stored_currentUser (Some su) s
           | None => s
           end in
  socket_emit (join_room roomId (safeUser user)) s.

(** [joinRoom] (lines 125-142). *)
Definition joinRoom (roomId : string) (user : option User.t) (s : Env) : Env :=
  let s := initSocket s in
  if truthy (currentRoomId s) && bool_decide (currentRoomId s ≠ Some roomId) then
    let s := match currentRoomId s with
             | Some current => socket_emit (leave_room current) s
             | None => s
             end in
    (setTimeout (task_actuallyJoinRoom roomId user) 100 s).2
  else
    actuallyJoinRoom roomId user s.

(** [sendMessage] (lines 166-176). *)
Definition sendMessage (roomId content : string) (role : Role)
    (messageId : option string) (s : Env) : Env :=
  socket_emit (send_message roomId messageId content role) (initSocket s).

(** [sendTypingIndicator] (lines 179-183). *)
Definition sendTypingIndicator (roomId : string) (s : Env) : Env :=
  socket_emit (user_typing roomId) (initSocket s).

(** [sendStoppedTypingIndicator] (lines 186-190). *)
Definition sendStoppedTypingIndicator (roomId : string) (s : Env) : Env :=
  socket_emit (user_stopped_typing roomId) (initSocket s).

(** [requestAIResponse] (lines 193-196). *)
Definition requestAIResponse (roomId prompt : string) (s : Env) : Env :=
  socket_emit (request_ai_response roomId prompt) (initSocket s).

(** [disconnectSocket] (lines 304-310). *)
Definition disconnectSocket (s : Env) : Env :=
  match socket s with
  | Some _ => set_currentRoomId None (set_socket None s)
  | None => s
  end.

(* ===================================================================== *)
(** * Asynchronous functions of [socket.ts]: exceptions and [fetch] *)
(* ===================================================================== *)

Inductive Error :=
| NetworkError
| AbortError
| TypeError
| SyntaxError
| HttpError (status : Z).

(** How a statement list ends: normally with a value, or by throwing. *)
Inductive Completion (A : Type) :=
| Normal (a : A)
| Throw (e : Error).
Arguments Normal {A} a.
Arguments Throw {A} e.

(** Code that reads and writes the environment and may throw. *)
Definition Eff (A : Type) : Type := Env → Completion A * Env.

Definition eff_ret {A} (a : A) : Eff A := λ s, (Normal a, s).

Definition eff_bind {A B} (m : Eff A) (k : A → Eff B) : Eff B :=
  λ s, match m s with
       | (Normal a, s') => k a s'
       | (Throw e, s') => (Throw e, s')
       end.

Definition throw {A} (e : Error) : Eff A := λ s, (Throw e, s).

(** [try { body } catch (e) { handler }]. *)
Definition try_catch {A} (body : Eff A) (handler : Error → Eff A) : Eff A :=
  λ s, match body s with
       | (Normal a, s') => (Normal a, s')
       | (Throw e, s') => handler e s'
       end.

(** A statement that only changes the environment. *)
Definition exec (f : Env → Env) : Eff unit := λ s, (Normal (), f s).

Notation "'let!' x ':=' m 'in' k" := (eff_bind m (λ x, k))
  (at level 10, x name, m at level 100, k at level 200, only parsing).
Notation "m ';;;' k" := (eff_bind m (λ _, k))
  (at level 100, k at level 200, right associativity, only parsing).

(** Values parsed from JSON. Numbers keep their literal. An object lists its
    own properties. *)
#[warnings="-register-all"]
Inductive Json :=
| JNull
| JBool (b : bool)
| JNumber (literal : string)
| JString (s : string)
| JArray (items : list Json)
| JObject (fields : list (string * Json)).

(** A JavaScript value read out of parsed JSON. *)
Inductive JsValue :=
| js_undefined
| js (v : Json).

Fixpoint own_property (fields : list (string * Json)) (key : string) : JsValue :=
  match fields with
  | [] => js_undefined
  | (k, v) :: rest => if bool_decide (k = key) then js v else own_property rest key
  end.

(** [data.key]: a TypeError on [null], [undefined] on the other values that
    are not objects (their prototypes have none of the keys read here). *)
Definition get_property (data : Json) (key : string) : Eff JsValue :=
  match data with
  | JNull => throw TypeError
  | JObject fields => eff_ret (own_property fields key)
  | _ => eff_ret js_undefined
  end.

(** What the client can observe of a [Response]: [text] is the body that
    [response.text()] yields ([None] when reading it fails), [json] the body
    parsed as JSON ([None] when it is not JSON). *)
Record Response := mkResponse {
  ok : bool;
  status : Z;
  text : option string;
  json : option Json
}.

(** How the promise of a [fetch] settles. *)
Inductive FetchOutcome :=
| Fulfilled (response : Response)
| Rejected (reason : Error).

(** [await fetch(...)]. *)
Definition await_fetch (o : FetchOutcome) : Eff Response :=
  match o with
  | Fulfilled r => eff_ret r
  | Rejected e => throw e
  end.

(** [await response.json()]. *)
Definition response_json (r : Response) : Eff Json :=
  match json r with
  | Some j => eff_ret j
  | None => throw SyntaxError
  end.

(** [await response.text()]. *)
Definition response_text (r : Response) : Eff string :=
  match text r with
  | Some t => eff_ret t
  | None => throw TypeError
  end.

(** [JSON.parse(responseText)] on the text of [r]. *)
Definition JSON_parse_text (r : Response) : Eff Json := response_json r.

(** [fetchWithCORS] (lines 336-357), from the point where [fetch] settles:
    the error is logged and thrown again. *)
Definition fetchWithCORS (o : FetchOutcome) : Eff Response :=
  try_catch (await_fetch o) (λ error, throw error).

(** [checkRoomExists] (lines 233-242), from the point where [fetch]
    settles. *)
Definition checkRoomExists (o : FetchOutcome) : Eff JsValue :=
  try_catch
    (let! response := await_fetch o in
     let! data := response_json response in
     get_property data "exists")
    (λ error, eff_ret (js (JBool false))).

(** [createRoom] (lines 199-224) up to [await fetchWithCORS]. *)
Definition createRoom_begin (s : Env) : Env :=
  let s := initSocket s in
  if truthy (currentRoomId s) then
    match currentRoomId s with
    | Some current => set_currentRoomId None (socket_emit (leave_room current) s)
    | None => s
    end
  else s.

(** [createRoom] from the point where the request settles. *)
Definition createRoom_resume (o : FetchOutcome) : Eff JsValue :=
  try_catch
    (let! response := fetchWithCORS o in
     if ok response then
       let! data := response_json response in
       get_property data "roomId"
     else throw (HttpError (status response)))
    (λ error, throw error).

(** [deleteUserChat] (lines 245-301) up to [await fetchWithCORS]: nothing
    here throws, so the outer [try] is entered and not left. The suspended
    call is recorded with the controller and the handle of its timeout. *)
Definition deleteUserChat_begin (userId roomId : string) (s : Env) : PendingDelete * Env :=
  let s := initSocket s in
  let s := socket_emit (leave_room roomId) s in
  let s := if bool_decide (currentRoomId s = Some roomId)
           then set_currentRoomId None s else s in
  let '(controller, s) := new_AbortController s in
  let '(timeoutId, s) := setTimeout (task_abort controller) 10000 s in
  let pd := mkPendingDelete userId roomId controller timeoutId in
  (pd, set_pending_deletes (pending_deletes s ++ [pd]) s).

(** [deleteUserChat] from the point where the request settles, with both
    [try] blocks of the source. *)
Definition deleteUserChat_resume (pd : PendingDelete) (o : FetchOutcome) : Eff bool :=
  try_catch
    (try_catch
       (let! response := fetchWithCORS o in
        exec (clearTimeout (pd_timeoutId pd)) ;;;
        try_catch
          (let! responseText := response_text response in
           if bool_decide (responseText ≠ "")
           then (JSON_parse_text response ;;; eff_ret ())
           else eff_ret ())
          (λ parseError, eff_ret ()) ;;;
        exec (socket_emit (user_deleted_chat (pd_userId pd) (pd_roomId pd))) ;;;
        eff_ret true)
       (λ fetchError,
          exec (clearTimeout (pd_timeoutId pd)) ;;;
          eff_ret true))
    (λ error, eff_ret true).

(** The request of the call with controller [c] settles with [o]: the call
    resumes and its promise settles. Nothing happens when no such call is
    suspended. *)
Definition settle_delete (c : positive) (o : FetchOutcome) (s : Env) : Env :=
  match list_find (λ pd, pd_controller pd = c) (pending_deletes s) with
  | Some (_, pd) =>
      let s := set_pending_deletes
                 (filter (λ pd, pd_controller pd ≠ c) (pending_deletes s)) s in
      match deleteUserChat_resume pd o s with
      | (Normal b, s') => set_delete_results (delete_results s' ++ [(c, b)]) s'
      | (Throw _, s') => s'
      end
  | None => s
  end.

(* ===================================================================== *)
(** * [ChatRoom.tsx]: component state and socket handlers *)
(* ===================================================================== *)

(** The state and refs of the [ChatRoom] component that the handlers use.
    [effect_roomUsers] is the value of [roomUsers] that the handlers
    registered by the effect closed over. *)
Record Comp := mkComp {
  messages : list ChatMessage.t;
  isLoading : bool;
  roomUsers : list RoomUser.t;
  typingUsers : gmap string TypingInfo.t;
  chatInfo : ChatInfo.t;
  inputValue : string;
  roomId : option string;
  typingTimeoutRef : option positive;
  effect_roomUsers : list RoomUser.t
}.

Definition setMessages (f : list ChatMessage.t → list ChatMessage.t) (c : Comp) : Comp :=
  mkComp (f (messages c)) (isLoading c) (roomUsers c) (typingUsers c) (chatInfo c)
         (inputValue c) (roomId c) (typingTimeoutRef c) (effect_roomUsers c).
Definition setIsLoading (v : bool) (c : Comp) : Comp :=
  mkComp (messages c) v (roomUsers c) (typingUsers c) (chatInfo c)
         (inputValue c) (roomId c) (typingTimeoutRef c) (effect_roomUsers c).
Definition setRoomUsers (v : list RoomUser.t) (c : Comp) : Comp :=
  mkComp (messages c) (isLoading c) v (typingUsers c) (chatInfo c)
         (inputValue c) (roomId c) (typingTimeoutRef c) (effect_roomUsers c).
Definition setTypingUsers (f : gmap string TypingInfo.t → gmap string TypingInfo.t)
    (c : Comp) : Comp :=
  mkComp (messages c) (isLoading c) (roomUsers c) (f (typingUsers c)) (chatInfo c)
         (inputValue c) (roomId c) (typingTimeoutRef c) (effect_roomUsers c).
Definition setChatInfo (v : ChatInfo.t) (c : Comp) : Comp :=
  mkComp (messages c) (isLoading c) (roomUsers c) (typingUsers c) v
         (inputValue c) (roomId c) (typingTimeoutRef c) (effect_roomUsers c).
Definition setInputValue (v : string) (c : Comp) : Comp :=
  mkComp (messages c) (isLoading c) (roomUsers c) (typingUsers c) (chatInfo c)
         v (roomId c) (typingTimeoutRef c) (effect_roomUsers c).
Definition set_typingTimeoutRef (v : option positive) (c : Comp) : Comp :=
  mkComp (messages c) (isLoading c) (roomUsers c) (typingUsers c) (chatInfo c)
         (inputValue c) (roomId c) v (effect_roomUsers c).

(** The [room-history] handler (lines 156-180). *)
Definition on_room_history (data : RoomData.t) (c : Comp) : Comp :=
  let c := setMessages (λ _, history_messages (RoomData.messages data)) c in
  let c := setRoomUsers (uniqueUsers (RoomData.users data)) c in
  match RoomData.chatInfo data with
  | Some info =>
      setChatInfo (ChatInfo.mk (WireChatInfo.title info) (WireChatInfo.description info)
                               (new_Date (WireChatInfo.createdAt info))) c
  | None => c
  end.

(** The [new-message] handler (lines 183-210). *)
Definition on_new_message (message : SocketChatMessage.t) (c : Comp) : Comp :=
  let c := setMessages (new_message_update message) c in
  match SocketChatMessage.role message with
  | role_assistant => setIsLoading false c
  | role_user => c
  end.

(** The [ai-typing] handler (lines 213-221). *)
Definition on_ai_typing (message : SocketChatMessage.t) (c : Comp) : Comp :=
  setMessages (ai_typing_update message) c.

(** [userInfo?.photoURL || null]. *)
Definition photo_or_null (userInfo : option RoomUser.t) : option string :=
  match userInfo with
  | Some u => if truthy (RoomUser.photoURL u) then RoomUser.photoURL u else None
  | None => None
  end.

(** The [typing-indicator] handler (lines 224-244). *)
Definition on_typing_indicator (data : TypingIndicator.t) (c : Comp) : Comp :=
  setTypingUsers
    (λ prev,
       if TypingIndicator.isTyping data then
         let userInfo :=
           snd <$> list_find (λ u, RoomUser.id u = TypingIndicator.userId data)
                             (effect_roomUsers c) in
         <[TypingIndicator.userId data :=
             TypingInfo.mk (TypingIndicator.userName data) (photo_or_null userInfo)]> prev
       else delete (TypingIndicator.userId data) prev)
    c.

(** The [user-joined] handler (lines 247-257). *)
Definition on_user_joined (user : RoomUser.t) (users : list RoomUser.t) (c : Comp) : Comp :=
  setRoomUsers (uniqueUsers users) c.

(** The [user-left] handler (lines 260-277). *)
Definition on_user_left (userId socketId : string) (users : list RoomUser.t)
    (c : Comp) : Comp :=
  let c := setRoomUsers (uniqueUsers users) c in
  setTypingUsers (λ prev, delete userId prev) c.

(** Events received from the room server. *)
Inductive Inbound :=
| room_history (data : RoomData.t)
| new_message (message : SocketChatMessage.t)
| ai_typing (message : SocketChatMessage.t)
| typing_indicator (data : TypingIndicator.t)
| user_joined (user : RoomUser.t) (users : list RoomUser.t)
| user_left (userId socketId : string) (users : list RoomUser.t).

(** Dispatch of a received event to its handler. *)
Definition on_inbound (ev : Inbound) (c : Comp) : Comp :=
  match ev with
  | room_history data => on_room_history data c
  | new_message message => on_new_message message c
  | ai_typing message => on_ai_typing message c
  | typing_indicator data => on_typing_indicator data c
  | user_joined user users => on_user_joined user users c
  | user_left userId socketId users => on_user_left userId socketId users c
  end.

(* ===================================================================== *)
(** * [ChatRoom.tsx]: the typing debouncer *)
(* ===================================================================== *)

(** The client: the module state of [socket.ts] with its browser, and the
    mounted [ChatRoom] component. *)
Record Client := mkClient { env : Env; ui : Comp }.

(** [if (typingTimeoutRef.current) clearTimeout(typingTimeoutRef.current)]. *)
Definition clear_typing_timeout (cl : Client) : Env :=
  match typingTimeoutRef (ui cl) with
  | Some h => clearTimeout h (env cl)
  | None => env cl
  end.

(** [handleInputChange] (lines 330-359). *)
Definition handleInputChange (value : string) (cl : Client) : Client :=
  let c := setInputValue value (ui cl) in
  match roomId c with
  | Some room =>
      if bool_decide (trim value ≠ "") && truthy (roomId c) then
        let e := sendTypingIndicator room (env cl) in
        let e := clear_typing_timeout (mkClient e c) in
        let '(h, e) := setTimeout (task_stopTyping (roomId c)) 2000 e in
        mkClient e (set_typingTimeoutRef (Some h) c)
      else if bool_decide (trim value = "") && truthy (roomId c) then
        let e := clear_typing_timeout (mkClient (env cl) c) in
        let c := match typingTimeoutRef c with
                 | Some _ => set_typingTimeoutRef None c
                 | None => c
                 end in
        mkClient (sendStoppedTypingIndicator room e) c
      else mkClient (env cl) c
  | None => mkClient (env cl) c
  end.

(** [handleSubmit] (lines 297-327); [messageId] is the value of
    [uuidv4()]. *)
Definition handleSubmit (messageId : string) (cl : Client) : Client :=
  let c := ui cl in
  match roomId c with
  | Some room =>
      if bool_decide (trim (inputValue c) = "") || isLoading c || negb (truthy (roomId c))
      then cl
      else
        let c' := setIsLoading true (setInputValue "" c) in
        let e := clear_typing_timeout cl in
        let c' := match typingTimeoutRef c with
                  | Some _ => set_typingTimeoutRef None c'
                  | None => c'
                  end in
        let e := sendStoppedTypingIndicator room e in
        let e := sendMessage room (inputValue c) role_user (Some messageId) e in
        let e := requestAIResponse room (inputValue c) e in
        mkClient e c'
  | None => cl
  end.

(** The [onBlur] handler of the text area (lines 710-717). *)
Definition onBlur (cl : Client) : Client :=
  match roomId (ui cl), typingTimeoutRef (ui cl) with
  | Some room, Some h =>
      if truthy (roomId (ui cl)) then
        mkClient (sendStoppedTypingIndicator room (clearTimeout h (env cl)))
                 (set_typingTimeoutRef None (ui cl))
      else cl
  | _, _ => cl
  end.

(** The idle callback armed by [handleInputChange] (lines 345-350). *)
Definition stopTyping_callback (captured_roomId : option string) (cl : Client) : Client :=
  let e := match captured_roomId with
           | Some room =>
               if truthy captured_roomId then sendStoppedTypingIndicator room (env cl)
               else env cl
           | None => env cl
           end in
  mkClient e (set_typingTimeoutRef None (ui cl)).

(* ===================================================================== *)
(** * The event loop *)
(* ===================================================================== *)

(** Runs a timer callback. Aborting a controller rejects the [fetch] that
    carries its signal with an AbortError, which resumes the suspended
    [deleteUserChat]. *)
Definition run_task (tk : Task) (cl : Client) : Client :=
  match tk with
  | task_actuallyJoinRoom room user => mkClient (actuallyJoinRoom room user (env cl)) (ui cl)
  | task_stopTyping captured => stopTyping_callback captured cl
  | task_abort c => mkClient (settle_delete c (Rejected AbortError) (env cl)) (ui cl)
  end.

(** The live timer that expires first; among timers of equal expiry, the
    one armed first. *)
Fixpoint earliest (l : list Timer) : option Timer :=
  match l with
  | [] => None
  | tm :: l' =>
      match earliest l' with
      | Some tm' => if fire_at tm' <? fire_at tm then Some tm' else Some tm
      | None => Some tm
      end
  end.

(** The timer [tm] expires: it leaves the live timers and its callback runs,
    at its expiry time. *)
Definition fire (tm : Timer) (cl : Client) : Client :=
  let e := set_now (Z.max (now (env cl)) (fire_at tm))
             (clearTimeout (handle tm) (env cl)) in
  run_task (task tm) (mkClient e (ui cl)).

(** Fires, in order, the timers that expire up to time [t]. *)
Fixpoint run_due (fuel : nat) (t : Z) (cl : Client) : Client :=
  match fuel with
  | O => cl
  | S fuel' =>
      match earliest (timers (env cl)) with
      | Some tm => if fire_at tm <=? t then run_due fuel' t (fire tm cl) else cl
      | None => cl
      end
  end.

(** Lets time pass until [t]. No callback arms a timer, so one round per
    live timer is enough ([run_due_complete]). *)
Definition advance (t : Z) (cl : Client) : Client :=
  let cl := run_due (length (timers (env cl))) t cl in
  mkClient (set_now (Z.max (now (env cl)) t) (env cl)) (ui cl).

(** What can happen to the client between two timer expiries. *)
Inductive Step :=
| call_joinRoom (room : string) (user : option User.t)
| call_deleteUserChat (userId room : string)
| call_createRoom
| call_disconnectSocket
| input_change (value : string)
| input_submit (messageId : string)
| input_blur
| receive (ev : Inbound)
| delete_settled (controller : positive) (o : FetchOutcome)
| socket_connect
| socket_connect_error
| socket_reconnect_failed.

Definition step (st : Step) (cl : Client) : Client :=
  match st with
  | call_joinRoom room user => mkClient (joinRoom room user (env cl)) (ui cl)
  | call_deleteUserChat userId room =>
      mkClient (deleteUserChat_begin userId room (env cl)).2 (ui cl)
  | call_createRoom => mkClient (createRoom_begin (env cl)) (ui cl)
  | call_disconnectSocket => mkClient (disconnectSocket (env cl)) (ui cl)
  | input_change value => handleInputChange value cl
  | input_submit messageId => handleSubmit messageId cl
  | input_blur => onBlur cl
  | receive ev => mkClient (env cl) (on_inbound ev (ui cl))
  | delete_settled c o => mkClient (settle_delete c o (env cl)) (ui cl)
  | socket_connect => mkClient (on_connect (env cl)) (ui cl)
  | socket_connect_error => mkClient (on_connect_error (env cl)) (ui cl)
  | socket_reconnect_failed => mkClient (on_reconnect_failed (env cl)) (ui cl)
  end.

(** Runs a schedule: each step happens at its time, after the timers that
    expire up to then. *)
Definition run (schedule : list (Z * Step)) (cl : Client) : Client :=
  foldl (λ cl '(t, st), step st (advance t cl)) cl schedule.

(** The client when the component mounts for room [room]: nothing emitted,
    no timer, no socket, no remembered room. *)
Definition initial_client (room : option string) : Client :=
  mkClient
    (mkEnv 0 [] 1%positive [] None [] [] None None)
    (mkComp [] false [] ∅
            (ChatInfo.mk "New Conversation"
               (Some "Start typing to chat with AI and collaborators") (new_Date 0))
            "" room None []).

(** The [user-stopped-typing] events of a log. *)
Definition is_stop (ev : Outbound) : bool :=
  match ev with
  | user_stopped_typing _ => true
  | _ => false
  end.

Definition stop_events (log : list (Z * Outbound)) : list (Z * Outbound) :=
  filter (λ p, is_stop p.2) log.

(* ===================================================================== *)
(** * Notions used in the statements *)
(* ===================================================================== *)

(** [l] is in ascending order of [key]. *)
Definition ascending_by {A} (key : A → Z) (l : list A) : Prop :=
  ∀ i j a b, (i < j)%nat → l !! i = Some a → l !! j = Some b → key a ≤ key b.

(** An occurrence of [a] precedes an occurrence of [b] in [l]. *)
Definition before {A} (l : list A) (a b : A) : Prop :=
  ∃ i j, (i < j)%nat ∧ l !! i = Some a ∧ l !! j = Some b.

(** The component after its handlers have processed [events], oldest
    first, starting from [c]. *)
Definition reconcile (events : list Inbound) (c : Comp) : Comp :=
  foldl (λ c ev, on_inbound ev c) c events.

(** The ids of a message list, in order. *)
Definition ids (l : list ChatMessage.t) : list string := ChatMessage.id <$> l.

(** The user ids of a presence list, in order. *)
Definition user_ids (l : list RoomUser.t) : list string := RoomUser.id <$> l.

(** An event that keeps the ids of the message list [l] distinct for a
    reason visible in the event itself: a snapshot whose ids are distinct, a
    placeholder whose id is not listed yet. The other events never add an
    id. *)
Definition id_safe (ev : Inbound) (l : list ChatMessage.t) : Prop :=
  match ev with
  | room_history data => NoDup (SocketChatMessage.id <$> RoomData.messages data)
  | ai_typing message => SocketChatMessage.id message ∉ ids l
  | _ => True
  end.

(** Every event of the sequence is [id_safe] when it arrives. *)
Fixpoint all_id_safe (events : list Inbound) (c : Comp) : Prop :=
  match events with
  | [] => True
  | ev :: rest => id_safe ev (messages c) ∧ all_id_safe rest (on_inbound ev c)
  end.



(** The schedule of a burst of keystrokes. *)
Definition keystrokes (ks : list (Z * string)) : list (Z * Step) :=
  (λ k, (k.1, input_change k.2)) <$> ks.

(** A timer of the typing debouncer. *)
Definition is_stop_timer (tm : Timer) : bool :=
  match task tm with
  | task_stopTyping _ => true
  | _ => false
  end.

(** The live idle timers of the typing debouncer. *)
Definition typing_timers (e : Env) : list Timer :=
  filter (λ tm, is_stop_timer tm) (timers e).

(** What holds of timers in every state the client reaches: handles are
    below the next handle to hand out and pairwise distinct; no live timer
    is overdue; the timeout handle kept by a suspended [deleteUserChat] is
    a handle already handed out, and a live timer of that handle is its
    abort. *)
Record EnvInv (e : Env) : Prop := mkEnvInv {
  inv_handles : ∀ tm, tm ∈ timers e → (handle tm < next_handle e)%positive;
  inv_nodup : NoDup (handle <$> timers e);
  inv_clock : ∀ tm, tm ∈ timers e → now e ≤ fire_at tm;
  inv_pending : ∀ pd, pd ∈ pending_deletes e →
    (pd_timeoutId pd < next_handle e)%positive
    ∧ ∀ tm, tm ∈ timers e → handle tm = pd_timeoutId pd → ∃ c, task tm = task_abort c
}.

(** [typingTimeoutRef] holds the handle of the only live idle timer, or is
    null when there is none. *)
Definition TypingInv (e : Env) (ref : option positive) : Prop :=
  match ref with
  | Some h => ∃ tm, typing_timers e = [tm] ∧ handle tm = h
  | None => typing_timers e = []
  end.

Definition Inv (cl : Client) : Prop :=
  EnvInv (env cl) ∧ TypingInv (env cl) (typingTimeoutRef (ui cl)).

(** [e'] differs from [e] only in what the timer invariants do not read. *)
Definition same_timing (e e' : Env) : Prop :=
  timers e' = timers e ∧ next_handle e' = next_handle e
  ∧ now e' = now e ∧ pending_deletes e' = pending_deletes e.

(** [e'] differs from [e] in nothing that concerns timers or the calls of
    [deleteUserChat]. *)
Definition same_deletes (e e' : Env) : Prop :=
  same_timing e e' ∧ delete_results e' = delete_results e.

(** What holds of the calls of [deleteUserChat] in every state the client
    reaches: the timer that aborts the request of controller [c] has the
    handle handed out right after [c], and that is the timeout handle the
    suspended call keeps; the controllers of the suspended calls and of the
    calls that resolved are pairwise distinct, and already handed out; the
    calls that resolved did so with [true]. *)
Record DeleteInv (e : Env) : Prop := mkDeleteInv {
  di_abort : ∀ tm c, tm ∈ timers e → task tm = task_abort c → handle tm = Pos.succ c;
  di_timeout : ∀ pd, pd ∈ pending_deletes e → pd_timeoutId pd = Pos.succ (pd_controller pd);
  di_once : NoDup ((pd_controller <$> pending_deletes e) ++ (fst <$> delete_results e));
  di_fresh : ∀ c, c ∈ (pd_controller <$> pending_deletes e) ++ (fst <$> delete_results e) →
                  (c < next_handle e)%positive;
  di_true : ∀ r, r ∈ delete_results e → r.2 = true
}.

(** The call of controller [c] has resolved with [true], or it is suspended
    and its abort is due by [deadline]. *)
Definition Resolving (c : positive) (deadline : Z) (e : Env) : Prop :=
  (c, true) ∈ delete_results e
  ∨ ∃ pd tm, pd ∈ pending_deletes e ∧ pd_controller pd = c
             ∧ tm ∈ timers e ∧ task tm = task_abort c ∧ fire_at tm ≤ deadline.

(** [DeleteInv], and [Resolving] for the call that is followed, if any. *)
Definition Tracked (call : option (positive * Z)) (e : Env) : Prop :=
  DeleteInv e
  ∧ match call with
    | Some (c, deadline) => Resolving c deadline e
    | None => True
    end.

(** The states the client reaches from a fresh mount. *)
Definition reachable (cl : Client) : Prop :=
  ∃ room schedule, cl = run schedule (initial_client room).

(** The steps that leave the socket in place: all but [disconnectSocket] and
    the [reconnect_failed] handler, which drop it. *)
Definition keeps_socket (st : Step) : bool :=
  match st with
  | call_disconnectSocket | socket_reconnect_failed => false
  | _ => true
  end.

(** The log of [e'] is the log of [e] with events added at its end. *)
Definition grows (e e' : Env) : Prop := ∃ log, emitted e' = emitted e ++ log.

(** A change of room remounts the component ([App.tsx] lines 39-44, the
    [key] of [ChatRoom] is made of the room id): its state and its refs start
    anew for the new room, while the module state of [socket.ts] and the
    timers of the browser stay as they are, the cleanup of the effect (lines
    282-289) removing socket handlers only. The idle callback of an earlier
    mount acts on the ref of that mount; [stopTyping_callback] models the
    callback of the current mount, so [remount] serves only to show the
    state in which the new mount starts. *)
Definition remount (room : option string) (cl : Client) : Client :=
  mkClient (env cl) (ui (initial_client room)).

(** Sample data for the worked examples. *)
Definition sample_message (id : string) (ts : Z) (content : string) : SocketChatMessage.t :=
  SocketChatMessage.mk id "u1" "Ada" None content role_user ts None None.

Definition sample_placeholder (id : string) (ts : Z) : SocketChatMessage.t :=
  SocketChatMessage.mk id "ai" "CollabGPT" None "" role_assistant ts (Some true) None.

Definition sample_user (id name : string) : RoomUser.t :=
  RoomUser.mk id name None None None.

Definition sample_room : Comp := ui (initial_client (Some "room-1")).

(* ===================================================================== *)
(** * More of [ChatRoom.tsx]: the title effect, the typing list *)
(* ===================================================================== *)

#[global] Instance Role_eq_dec : EqDecision Role.
Proof. solve_decision. Defined.

(** The title given to a chat before it has one of its own. *)
Definition default_title : string := "New Conversation".

(** The effect that names the chat after its first user message (lines
    88-104). [substring(0, 30)] and [length] count code units, which are the
    characters of the model. *)
Definition generate_title (c : Comp) : Comp :=
  if bool_decide (ChatInfo.title (chatInfo c) ≠ default_title)
     || bool_decide (length (messages c) = 0%nat)
  then c
  else
    match list_find (λ msg, ChatMessage.role msg = role_user) (messages c) with
    | Some (_, firstUserMessage) =>
        let content := ChatMessage.content firstUserMessage in
        let newTitle := String.substring 0 30 content in
        let newTitle := if bool_decide (30 < String.length content)%nat
                        then newTitle +:+ "..." else newTitle in
        setChatInfo (ChatInfo.mk newTitle (ChatInfo.description (chatInfo c))
                                 (ChatInfo.createdAt (chatInfo c))) c
    | None => c
    end.

(** The entries of the typing map that are rendered, for the signed-in
    user's [uid] ([None] when there is no user). The typing rows stand in
    the branch of [messages.length === 0 ? ... : ...] (line 567) that shows
    the messages, so with an empty message list none is rendered; else, when
    [typingUsers.size > 0] (line 659), the entries that pass
    [.filter(([userId]) => userId !== user?.uid)] (lines 661-662). The order
    of rendering is not modelled. *)
Definition visible_typing (uid : option string) (messages : list ChatMessage.t)
    (m : gmap string TypingInfo.t) : gmap string TypingInfo.t :=
  if bool_decide (length messages = 0%nat) then ∅
  else if bool_decide (0 < size m)%nat then filter (λ kv, Some kv.1 ≠ uid) m
  else ∅.

(** A received event that is the answer of the assistant: a [new-message]
    of role [assistant]. *)
Definition is_answer (ev : Inbound) : bool :=
  match ev with
  | new_message message =>
      match SocketChatMessage.role message with
      | role_assistant => true
      | role_user => false
      end
  | _ => false
  end.

(* ===================================================================== *)
(** * More of [socket.ts]: [testConnection] *)
(* ===================================================================== *)

(** The text of the message [testConnection] returns, by its parts. *)
Inductive TestMessage :=
| server_is (status environment : JsValue)
| failed_to_connect (reason : Error).

Record ConnectionTest := mkConnectionTest { success : bool; message : TestMessage }.

(** [testConnection] (lines 313-333), from the point where [fetch]
    settles. *)
Definition testConnection (o : FetchOutcome) : Eff ConnectionTest :=
  try_catch
    (let! response := await_fetch o in
     let! data := response_json response in
     let! status := get_property data "status" in
     let! environment := get_property data "environment" in
     eff_ret (mkConnectionTest true (server_is status environment)))
    (λ error, eff_ret (mkConnectionTest false (failed_to_connect error))).

(* ===================================================================== *)
(** * [UserAvatar] *)
(* ===================================================================== *)

(** The [user] prop of [UserAvatar]: a Firebase user or a room user, read
    through the optional properties the component looks at. *)
Module AvatarUser.
Record t := mk {
  photoURL : option string;
  displayName : option string;
  name : option string;
  id : option string;
  uid : option string
}.
End AvatarUser.

(** [user.displayName || user.name || "User"]. *)
Definition avatar_name (user : AvatarUser.t) : string :=
  or_else (AvatarUser.displayName user) (or_else (AvatarUser.name user) "User").

(** [user.id || user.uid || name]. *)
Definition avatar_userId (user : AvatarUser.t) : string :=
  or_else (AvatarUser.id user) (or_else (AvatarUser.uid user) (avatar_name user)).

(** [char.charCodeAt(0)], for the characters of [s] in order. *)
Fixpoint char_codes (s : string) : list Z :=
  match s with
  | EmptyString => []
  | String c s' => Z.of_nat (Ascii.nat_of_ascii c) :: char_codes s'
  end.

(** [userId.split('').reduce((acc, char) => acc + char.charCodeAt(0), 0) % 8]. *)
Definition colorIndex (userId : string) : Z :=
  foldl (λ acc code, acc + code) 0 (char_codes userId) `mod` 8.

Definition bgColors : list string :=
  ["bg-blue-600"; "bg-green-600"; "bg-purple-600"; "bg-yellow-600";
   "bg-pink-600"; "bg-indigo-600"; "bg-red-600"; "bg-emerald-600"].

(** [bgColors[colorIndex]]: [None] stands for [undefined]. *)
Definition bgColor (user : AvatarUser.t) : option string :=
  bgColors !! Z.to_nat (colorIndex (avatar_userId user)).

(** Upper case of a code unit below 128; the others are left alone, as the
    case-insensitive match of a pattern of ASCII characters does. *)
Definition ascii_upper (c : Ascii.ascii) : Ascii.ascii :=
  let n := Ascii.nat_of_ascii c in
  if bool_decide (97 ≤ n ≤ 122)%nat then Ascii.ascii_of_nat (n - 32) else c.

(** [s] starts with [pattern], letters compared without case. *)
Fixpoint starts_with_ci (pattern s : string) : bool :=
  match pattern, s with
  | EmptyString, _ => true
  | String p pattern', String c s' =>
      bool_decide (ascii_upper p = ascii_upper c) && starts_with_ci pattern' s'
  | String _ _, EmptyString => false
  end.

(** LineTerminator code units below 256: what [.] does not match. *)
Definition is_line_terminator (c : Ascii.ascii) : bool :=
  bool_decide (Ascii.nat_of_ascii c ∈ [10; 13]%nat).

(** [.*pattern] matches at the start of [s]: [pattern] occurs in [s] with no
    line terminator before it. *)
Fixpoint dots_then_ci (pattern s : string) : bool :=
  starts_with_ci pattern s
  || match s with
     | String c s' => negb (is_line_terminator c) && dots_then_ci pattern s'
     | EmptyString => false
     end.

(** [safeDomainsRegex.test(url)] for
    [/^https:\/\/(lh3\.googleusercontent\.com|.*\.firebasestorage\.googleapis\.com|.*\.gravatar\.com)/i]. *)
Definition safeDomainsRegex_test (url : string) : bool :=
  starts_with_ci "https://" url
  && let rest := String.substring 8 (String.length url - 8) url in
     starts_with_ci "lh3.googleusercontent.com" rest
     || dots_then_ci ".firebasestorage.googleapis.com" rest
     || dots_then_ci ".gravatar.com" rest.

(** The state of a mounted [UserAvatar]. *)
Record AvatarState := mkAvatarState { imageError : bool; photoUrl : option string }.

(** The effect of [UserAvatar] that vets the photo URL, run when [user]
    changes. *)
Definition avatar_effect (user : option AvatarUser.t) (st : AvatarState) : AvatarState :=
  match user with
  | None => st
  | Some u =>
      match AvatarUser.photoURL u with
      | Some url =>
          if truthy (Some url) then
            if safeDomainsRegex_test url
            then mkAvatarState (imageError st) (Some url)
            else mkAvatarState true (photoUrl st)
          else st
      | None => st
      end
  end.

(** Whether the component renders the photo: [photoUrl && !imageError], for
    a user that is not null. *)
Definition shows_photo (user : option AvatarUser.t) (st : AvatarState) : bool :=
  match user with
  | None => false
  | Some _ => truthy (photoUrl st) && negb (imageError st)
  end.

(** What the effect makes of a [user] prop: nothing when there is no user
    or no photo URL (null, undefined or the empty string), else the URL with
    the verdict of the allow-list. *)
Definition photo_verdict (user : option AvatarUser.t) : option (string * bool) :=
  match user with
  | Some u =>
      match AvatarUser.photoURL u with
      | Some url => if truthy (Some url) then Some (url, safeDomainsRegex_test url) else None
      | None => None
      end
  | None => None
  end.

(** The URLs of the props that passed the allow-list, and whether a prop
    failed it. *)
Definition accepted_url (user : option AvatarUser.t) : option string :=
  match photo_verdict user with
  | Some (url, true) => Some url
  | _ => None
  end.

Definition rejected_url (user : option AvatarUser.t) : bool :=
  match photo_verdict user with
  | Some (_, false) => true
  | _ => false
  end.

(** A mounted [UserAvatar] after its [user] prop took the values [users] in
    turn, the first at mount, while no image failed to load (no [onError]). *)
Definition avatar_after (users : list (option AvatarUser.t)) : AvatarState :=
  foldl (λ st user, avatar_effect user st) (mkAvatarState false None) users.

(* ===================================================================== *)
(** * [ChatHistory.tsx]: deleting a chat *)
(* ===================================================================== *)

(** A room of the history list, as far as [handleDeleteRoom] reads it. *)
Module ChatRoom.
Record t := mk { id : string; title : string }.
End ChatRoom.

(** Where the component sends the browser: [navigate('/chat')],
    [navigate(`/join/${newRoomId}`)] and [window.location.href = '/chat']. *)
Inductive Navigation :=
| navigate_chat
| navigate_join (newRoomId : JsValue)
| location_chat.

(** The entry [chat_rooms_${user.uid}] of [localStorage]: a text with the
    value it parses to ([None] when it is not JSON), or the text that
    [JSON.stringify] gives for a value, which parses back to that value. *)
Inductive CacheEntry :=
| cache_text (text : string) (parsed : option Json)
| cache_json (value : Json).

(** The state of the [ChatHistory] component that [handleDeleteRoom] reads
    and writes, with what it does to the browser: the navigations, oldest
    first, the cache entry, and the number of reloads it scheduled with
    [setTimeout(() => loadRooms(), 1000)]. *)
Record History := mkHistory {
  rooms : list ChatRoom.t;
  deleteDialogOpen : bool;
  roomToDelete : option string;
  isDeleting : bool;
  error : option Error;
  navigations : list Navigation;
  cache : option CacheEntry;
  reloads_scheduled : nat
}.

Definition setRooms (v : list ChatRoom.t) (h : History) : History :=
  mkHistory v (deleteDialogOpen h) (roomToDelete h) (isDeleting h) (error h)
            (navigations h) (cache h) (reloads_scheduled h).
Definition setDeleteDialogOpen (v : bool) (h : History) : History :=
  mkHistory (rooms h) v (roomToDelete h) (isDeleting h) (error h)
            (navigations h) (cache h) (reloads_scheduled h).
Definition setRoomToDelete (v : option string) (h : History) : History :=
  mkHistory (rooms h) (deleteDialogOpen h) v (isDeleting h) (error h)
            (navigations h) (cache h) (reloads_scheduled h).
Definition setIsDeleting (v : bool) (h : History) : History :=
  mkHistory (rooms h) (deleteDialogOpen h) (roomToDelete h) v (error h)
            (navigations h) (cache h) (reloads_scheduled h).
Definition setError (v : option Error) (h : History) : History :=
  mkHistory (rooms h) (deleteDialogOpen h) (roomToDelete h) (isDeleting h) v
            (navigations h) (cache h) (reloads_scheduled h).
Definition navigate (v : Navigation) (h : History) : History :=
  mkHistory (rooms h) (deleteDialogOpen h) (roomToDelete h) (isDeleting h) (error h)
            (navigations h ++ [v]) (cache h) (reloads_scheduled h).
Definition set_cache (v : option CacheEntry) (h : History) : History :=
  mkHistory (rooms h) (deleteDialogOpen h) (roomToDelete h) (isDeleting h) (error h)
            (navigations h) v (reloads_scheduled h).
Definition schedule_reload (h : History) : History :=
  mkHistory (rooms h) (deleteDialogOpen h) (roomToDelete h) (isDeleting h) (error h)
            (navigations h) (cache h) (S (reloads_scheduled h)).

(** Code of the component: it reads and writes [History] and may throw. *)
Definition Act (A : Type) : Type := History → Completion A * History.

Definition act_ret {A} (a : A) : Act A := λ h, (Normal a, h).

Definition act_bind {A B} (m : Act A) (k : A → Act B) : Act B :=
  λ h, match m h with
       | (Normal a, h') => k a h'
       | (Throw e, h') => (Throw e, h')
       end.

Definition act_exec (f : History → History) : Act unit := λ h, (Normal (), f h).

(** [await promise], for a promise that settles with [outcome]. *)
Definition act_await {A} (outcome : Completion A) : Act A := λ h, (outcome, h).

(** [try { body } catch (e) { handler }]. *)
Definition act_try {A} (body : Act A) (handler : Error → Act A) : Act A :=
  λ h, match body h with
       | (Normal a, h') => (Normal a, h')
       | (Throw e, h') => handler e h'
       end.

(** [try { body } finally { finalizer }]. *)
Definition act_finally {A} (body : Act A) (finalizer : Act unit) : Act A :=
  λ h, match body h with
       | (result, h') =>
           match finalizer h' with
           | (Normal _, h'') => (result, h'')
           | (Throw e, h'') => (Throw e, h'')
           end
       end.

(** Statements in sequence. *)
Definition act_block (statements : list (Act unit)) : Act unit :=
  foldr (λ statement rest, act_bind statement (λ _, rest)) (act_ret ()) statements.

(** [parsedRooms.filter((room: any) => room.id !== roomToDelete)] on the
    items of an array: reading [id] of [null] throws. *)
Fixpoint filter_cached_rooms (roomToDelete : string) (items : list Json)
    : Completion (list Json) :=
  match items with
  | [] => Normal []
  | room :: rest =>
      match room with
      | JNull => Throw TypeError
      | _ =>
          let keep := match room with
                      | JObject fields =>
                          match own_property fields "id" with
                          | js (JString id) => bool_decide (id ≠ roomToDelete)
                          | _ => true
                          end
                      | _ => true
                      end in
          match filter_cached_rooms roomToDelete rest with
          | Normal rest' => Normal (if keep then room :: rest' else rest')
          | Throw e => Throw e
          end
      end
  end.

(** [if (value)] on the text of an entry: what [JSON.stringify] gives is
    never empty. *)
Definition entry_truthy (entry : CacheEntry) : bool :=
  match entry with
  | cache_text text _ => bool_decide (text ≠ "")
  | cache_json _ => true
  end.

(** [JSON.parse(value)] on the text of an entry: [None] when it throws. *)
Definition entry_parse (entry : CacheEntry) : option Json :=
  match entry with
  | cache_text _ parsed => parsed
  | cache_json value => Some value
  end.

(** The fallback of [handleDeleteRoom] (lines 106-112): the body of its
    inner [try]. A value that is not an array has no [filter] to call. *)
Definition cache_cleanup (roomToDelete : string) : Act unit :=
  λ h,
    match cache h with
    | Some entry =>
        if entry_truthy entry then
          match entry_parse entry with
          | Some (JArray items) =>
              match filter_cached_rooms roomToDelete items with
              | Normal updatedRooms =>
                  (Normal (), set_cache (Some (cache_json (JArray updatedRooms))) h)
              | Throw e => (Throw e, h)
              end
          | Some _ => (Throw TypeError, h)
          | None => (Throw SyntaxError, h)
          end
        else (Normal (), h)
    | None => (Normal (), h)
    end.

(** [handleDeleteRoom] (lines 73-156) for the props [user] (the [uid] of the
    user, [None] for no user) and [currentRoomId]. [deleted] and [created]
    are how the promises of [deleteUserChat] and [createRoom] settle; the
    500 ms the function waits before it navigates to the new room are not
    modelled. *)
Definition handleDeleteRoom (user : option string) (currentRoomId : option string)
    (deleted : Completion bool) (created : Completion JsValue) : Act unit :=
  λ h,
    match roomToDelete h, user with
    | Some room, Some uid =>
        if negb (truthy (roomToDelete h)) then (Normal (), h)
        else
          act_finally
            (act_try
               (act_block
                  [ act_exec (setIsDeleting true);
                    act_exec (setRooms (filter (λ r, ChatRoom.id r ≠ room) (rooms h)));
                    (if bool_decide (Some room = currentRoomId)
                     then act_exec (navigate navigate_chat) else act_ret ());
                    act_bind
                      (act_try (act_await deleted)
                         (λ apiError,
                            act_bind
                              (act_try (cache_cleanup room) (λ localError, act_ret ()))
                              (λ _, act_ret false)))
                      (λ success, act_ret ());
                    (if bool_decide (length (rooms h) = 1%nat)
                     then act_try
                            (act_bind (act_await created)
                               (λ newRoomId, act_exec (navigate (navigate_join newRoomId))))
                            (λ createError, act_exec (navigate location_chat))
                     else act_ret ());
                    act_exec (setDeleteDialogOpen false);
                    act_exec (setRoomToDelete None) ])
               (λ error,
                  act_block
                    [ act_exec (setError (Some error));
                      act_exec schedule_reload;
                      act_exec (setDeleteDialogOpen false);
                      act_exec (setRoomToDelete None) ]))
            (act_exec (setIsDeleting false)) h
    | _, _ => (Normal (), h)
    end.

(* ===================================================================== *)
(** * The storage cleaning script *)
(* ===================================================================== *)

(** [localStorage]: the entries by key. *)
Definition Storage := gmap string CacheEntry.

(** The test of the [filter] in [cleanLocalStorage]: [item] is an object
    whose [id] is a string that is not empty. An array is an object, and has
    no [id]. *)
Definition valid_item (item : Json) : bool :=
  match item with
  | JObject fields =>
      match own_property fields "id" with
      | js (JString id) => bool_decide (id ≠ "")
      | _ => false
      end
  | _ => false
  end.

(** What the body of the [forEach] makes of the entry of one key: [None]
    when it removes the key. *)
Definition clean_entry (entry : CacheEntry) : option CacheEntry :=
  if negb (entry_truthy entry) then None
  else
    match entry_parse entry with
    | Some (JArray parsed) =>
        let validItems := filter (λ item, valid_item item) parsed in
        if bool_decide (length validItems ≠ length parsed)
        then Some (cache_json (JArray validItems))
        else Some entry
    | Some _ => None
    | None => None
    end.

(** [cleanLocalStorage] (lines 7-76 of the script). Each round of the
    [forEach] touches the key it is about only. *)
Definition cleanLocalStorage (storage : Storage) : Storage :=
  let storage :=
    map_imap (λ key entry,
                if String.prefix "chat_rooms_" key then clean_entry entry else Some entry)
             storage in
  match storage !! "lastRoomId" with
  | Some lastRoomId =>
      if entry_truthy lastRoomId then delete "lastRoomId" storage else storage
  | None => storage
  end.

(* ===================================================================== *)
(** * More of [ChatRoom.tsx]: a new chat *)
(* ===================================================================== *)

Definition setRoomId (v : option string) (c : Comp) : Comp :=
  mkComp (messages c) (isLoading c) (roomUsers c) (typingUsers c) (chatInfo c)
         (inputValue c) v (typingTimeoutRef c) (effect_roomUsers c).

(** [handleNewChat] (lines 361-406) up to [await createRoom()]; the flag
    [isSwitchingRoom] is not part of the modelled state. *)
Definition handleNewChat_begin (cl : Client) : Client :=
  let c := setMessages (λ _, []) (ui cl) in
  let c := setTypingUsers (λ _, ∅) c in
  let c := setChatInfo
             (ChatInfo.mk "New Conversation"
                (Some "Start typing to chat with AI and collaborators")
                (new_Date (now (env cl)))) c in
  let e := match roomId (ui cl) with
           | Some room =>
               if truthy (roomId (ui cl))
               then socket_emit (leave_room room) (initSocket (env cl))
               else env cl
           | None => env cl
           end in
  let c := setRoomId None c in
  mkClient (createRoom_begin e) c.

(* ===================================================================== *)
(** * Facts about [Array.prototype.sort] *)
(* ===================================================================== *)

(** Whatever the comparator, the sort rearranges. *)
Lemma sort_insert_rearranges {A} (comparefn : A → A → Z) (x : A) (l : list A) :
  sort_insert comparefn x l ≡ₚ x :: l.
Proof.
  induction l as [|y l IH]; simpl; [done|].
  case_match; [done|]. rewrite IH. apply Permutation_swap.
Qed.

Lemma array_sort_rearranges {A} (comparefn : A → A → Z) (l : list A) :
  array_sort comparefn l ≡ₚ l.
Proof.
  induction l as [|x l IH]; simpl; [done|].
  rewrite sort_insert_rearranges. by rewrite IH.
Qed.

(** The sort reads the comparator on the elements of the array only. *)
Lemma array_sort_ext {A} (f g : A → A → Z) (l : list A) :
  (∀ a b, a ∈ l → b ∈ l → f a b = g a b) → array_sort f l = array_sort g l.
Proof.
  induction l as [|x l IH]; intros Hfg; simpl; [done|].
  rewrite IH by (intros a b Ha Hb; apply Hfg; by right).
  assert (∀ k, (∀ y, y ∈ k → y ∈ l) → sort_insert f x k = sort_insert g x k) as Hins.
  { induction k as [|y k IHk]; intros Hk; simpl; [done|].
    rewrite (Hfg x y) by (by left || (right; apply Hk; by left)).
    rewrite IHk by (intros z Hz; apply Hk; by right). done. }
  apply Hins. intros y Hy. by rewrite (array_sort_rearranges g l) in Hy.
Qed.

Section SortFacts.
Context {A : Type} (key : A → Z).

Local Abbreviation cmp := (λ a b : A, key a - key b).
Local Abbreviation has_key k := (λ x : A, key x = k).
Local Abbreviation sorted := (StronglySorted (λ a b : A, key a ≤ key b)).

Lemma sort_insert_perm (x : A) (l : list A) : sort_insert cmp x l ≡ₚ x :: l.
Proof.
  induction l as [|y l IH]; simpl; [done|].
  case_match; [done|]. rewrite IH. apply Permutation_swap.
Qed.

Lemma array_sort_perm (l : list A) : array_sort cmp l ≡ₚ l.
Proof.
  induction l as [|x l IH]; simpl; [done|].
  rewrite sort_insert_perm. by rewrite IH.
Qed.

Lemma sort_insert_sorted (x : A) (l : list A) :
  sorted l → sorted (sort_insert cmp x l).
Proof.
  induction 1 as [|y l Hl IH Hy]; simpl.
  - repeat constructor.
  - destruct (key x - key y <=? 0) eqn:E.
    + constructor; [by constructor|].
      constructor; [lia|].
      eapply Forall_impl; [exact Hy|]. simpl. intros; lia.
    + constructor; [done|].
      rewrite sort_insert_perm. constructor; [lia|done].
Qed.

Lemma array_sort_sorted (l : list A) : sorted (array_sort cmp l).
Proof.
  induction l as [|x l IH]; simpl; [constructor|].
  by apply sort_insert_sorted.
Qed.

Lemma sort_insert_filter (k : Z) (x : A) (l : list A) :
  filter (has_key k) (sort_insert cmp x l) = filter (has_key k) (x :: l).
Proof.
  induction l as [|y l IH]; simpl; [done|].
  destruct (key x - key y <=? 0) eqn:E; [done|].
  rewrite (filter_cons _ y), IH, !filter_cons.
  repeat case_decide; try done; lia.
Qed.

(** The sort is stable: it keeps the order of the elements of equal key. *)
Lemma array_sort_stable (k : Z) (l : list A) :
  filter (has_key k) (array_sort cmp l) = filter (has_key k) l.
Proof.
  induction l as [|x l IH]; simpl; [done|].
  rewrite sort_insert_filter, !filter_cons. by rewrite IH.
Qed.

(** An ordered list is determined by its groups of equal key: there is one
    stable ordered rearrangement of a list. *)
Lemma stable_ascending_unique (l1 l2 : list A) :
  sorted l1 → sorted l2 →
  (∀ k, filter (has_key k) l1 = filter (has_key k) l2) →
  l1 = l2.
Proof.
  revert l2. induction l1 as [|x l1 IH]; intros [|y l2] S1 S2 F; [done| | |].
  - specialize (F (key y)). by rewrite filter_cons_True in F.
  - specialize (F (key x)). by rewrite filter_cons_True in F.
  - apply StronglySorted_inv in S1 as [S1 H1].
    apply StronglySorted_inv in S2 as [S2 H2].
    rewrite Forall_forall in H1, H2.
    assert (key x ≤ key y) as Hxy.
    { assert (y ∈ filter (has_key (key y)) (x :: l1)) as Hy.
      { rewrite F, filter_cons_True by done. left. }
      apply list_elem_of_filter in Hy as [_ Hy].
      apply elem_of_cons in Hy as [->|Hy]; [lia|by apply H1]. }
    assert (key y ≤ key x) as Hyx.
    { assert (x ∈ filter (has_key (key x)) (y :: l2)) as Hx.
      { rewrite <- F, filter_cons_True by done. left. }
      apply list_elem_of_filter in Hx as [_ Hx].
      apply elem_of_cons in Hx as [->|Hx]; [lia|by apply H2]. }
    assert (x = y) as ->.
    { specialize (F (key x)).
      rewrite !filter_cons_True in F by lia. by injection F. }
    f_equal. apply IH; [done..|].
    intros k. specialize (F k). rewrite !filter_cons in F.
    case_decide; [by injection F|done].
Qed.

Lemma array_sort_id (l : list A) : sorted l → array_sort cmp l = l.
Proof.
  intros Hl. apply stable_ascending_unique; [apply array_sort_sorted|done|].
  intros k. apply array_sort_stable.
Qed.

(** Sorting, appending and sorting again is sorting the whole at once. *)
Lemma array_sort_snoc (l : list A) (x : A) :
  array_sort cmp (array_sort cmp l ++ [x]) = array_sort cmp (l ++ [x]).
Proof.
  apply stable_ascending_unique; [apply array_sort_sorted..|].
  intros k. rewrite !array_sort_stable, !filter_app. by rewrite array_sort_stable.
Qed.

Lemma sorted_ascending_by (l : list A) : sorted l ↔ ascending_by key l.
Proof.
  split.
  - induction 1 as [|x l Hl IH Hx]; intros i j a b Hij Hi Hj.
    + by rewrite lookup_nil in Hi.
    + destruct j as [|j]; [lia|]. simpl in Hj.
      destruct i as [|i]; simpl in Hi.
      * injection Hi as ->. rewrite Forall_forall in Hx.
        apply Hx. by eapply list_elem_of_lookup_2.
      * apply (IH i j); [lia|done..].
  - induction l as [|x l IH]; intros Hl; constructor.
    + apply IH. intros i j a b Hij Hi Hj. apply (Hl (S i) (S j)); [lia|done..].
    + apply Forall_forall. intros y [j Hj]%list_elem_of_lookup_1.
      apply (Hl 0%nat (S j)); [lia|done..].
Qed.

End SortFacts.

(* ===================================================================== *)
(** * Facts about [before] *)
(* ===================================================================== *)

Section BeforeFacts.
Context {A : Type}.
Implicit Types (l : list A) (a b : A).

Lemma before_split l a b :
  before l a b ↔ ∃ l1 l2 l3, l = l1 ++ a :: l2 ++ b :: l3.
Proof.
  split.
  - intros (i & j & Hij & Hi & Hj).
    exists (take i l), (take (j - S i) (drop (S i) l)), (drop (S (j - S i)) (drop (S i) l)).
    rewrite (take_drop_middle (drop (S i) l) (j - S i) b).
    + by rewrite take_drop_middle.
    + rewrite lookup_drop. rewrite <- Hj. f_equal. lia.
  - intros (l1 & l2 & l3 & ->).
    exists (length l1), (length (l1 ++ a :: l2)). split_and!.
    + rewrite length_app. simpl. lia.
    + by apply list_lookup_middle.
    + change (l1 ++ a :: l2 ++ b :: l3) with (l1 ++ (a :: l2) ++ b :: l3).
      rewrite (assoc_L (++)). by apply list_lookup_middle.
Qed.

Lemma before_sublist l a b : before l a b ↔ [a; b] `sublist_of` l.
Proof.
  rewrite before_split. split.
  - intros (l1 & l2 & l3 & ->).
    apply sublist_inserts_l. apply sublist_skip.
    apply sublist_inserts_l. apply sublist_skip. apply sublist_nil_l.
  - intros (k1 & k2 & -> & (k3 & k4 & -> & _)%sublist_cons_l)%sublist_cons_l.
    by exists k1, k3, k4.
Qed.

Lemma before_filter_elim (P : A → Prop) `{!∀ x, Decision (P x)} l a b :
  before (filter P l) a b → before l a b.
Proof.
  rewrite !before_sublist. intros Hsub. etrans; [exact Hsub|]. apply sublist_filter.
Qed.

Lemma before_filter_intro (P : A → Prop) `{!∀ x, Decision (P x)} l a b :
  P a → P b → before l a b → before (filter P l) a b.
Proof.
  intros Ha Hb (l1 & l2 & l3 & ->)%before_split. apply before_split.
  exists (filter P l1), (filter P l2), (filter P l3).
  rewrite filter_app, filter_cons_True, filter_app, filter_cons_True; done.
Qed.

Lemma before_fmap {B} (f : B → A) (k : list B) a b :
  before (f <$> k) a b → ∃ x y, before k x y ∧ f x = a ∧ f y = b.
Proof.
  intros (i & j & Hij & Hi & Hj).
  rewrite list_lookup_fmap in Hi, Hj.
  destruct (k !! i) as [x|] eqn:Ex; [|done].
  destruct (k !! j) as [y|] eqn:Ey; [|done].
  simpl in Hi, Hj. injection Hi as <-. injection Hj as <-.
  exists x, y. split; [|done]. by exists i, j.
Qed.

End BeforeFacts.

(** A stable sort keeps elements of equal key in their original order. *)
Lemma array_sort_before {A} (key : A → Z) (l : list A) (a b : A) :
  before (array_sort (λ a b, key a - key b) l) a b → key a = key b → before l a b.
Proof.
  intros Hab Hk.
  apply (before_filter_intro (λ x, key x = key a)) in Hab; [|done..].
  rewrite array_sort_stable in Hab. by eapply before_filter_elim.
Qed.

(* ===================================================================== *)
(** * The event reconciler *)
(* ===================================================================== *)

(** ** Valid dates *)

Lemma valid_time_localize (msg : SocketChatMessage.t) :
  valid_time (localize msg) ↔ in_time_range (SocketChatMessage.timestamp msg).
Proof.
  unfold valid_time, localize, new_Date. simpl.
  case_bool_decide as Hr; split; intros H; try done.
  all: try (by destruct H as [? ?]); by eexists.
Qed.

Lemma time_of_localize (msg : SocketChatMessage.t) :
  in_time_range (SocketChatMessage.timestamp msg) →
  time_of (localize msg) = SocketChatMessage.timestamp msg.
Proof.
  intros Hr. unfold time_of, localize, new_Date. simpl.
  by rewrite (bool_decide_eq_true_2 _ Hr).
Qed.

Lemma valid_times_localize (msgs : list SocketChatMessage.t) :
  Forall (λ msg, in_time_range (SocketChatMessage.timestamp msg)) msgs →
  Forall valid_time (localize <$> msgs).
Proof.
  intros H. apply Forall_fmap. eapply Forall_impl; [exact H|].
  intros msg. apply valid_time_localize.
Qed.

(** On valid dates the comparator is the difference of the time values. *)
Lemma by_timestamp_valid (a b : ChatMessage.t) :
  valid_time a → valid_time b → by_timestamp a b = time_of a - time_of b.
Proof. unfold valid_time, by_timestamp, time_of. by intros [ta ->] [tb ->]. Qed.

Lemma array_sort_by_timestamp (l : list ChatMessage.t) :
  Forall valid_time l →
  array_sort by_timestamp l = array_sort (λ a b, time_of a - time_of b) l.
Proof.
  rewrite Forall_forall. intros Hl. apply array_sort_ext.
  intros a b Ha Hb. apply by_timestamp_valid; by apply Hl.
Qed.

Lemma array_sort_valid (l : list ChatMessage.t) :
  Forall valid_time l → Forall valid_time (array_sort by_timestamp l).
Proof. by rewrite array_sort_rearranges. Qed.

(** On valid dates: sorting, appending and sorting again is sorting the
    whole at once. *)
Lemma array_sort_by_timestamp_snoc (l : list ChatMessage.t) (x : ChatMessage.t) :
  Forall valid_time l → valid_time x →
  array_sort by_timestamp (array_sort by_timestamp l ++ [x])
  = array_sort by_timestamp (l ++ [x]).
Proof.
  intros Hl Hx.
  rewrite (array_sort_by_timestamp (l ++ [x]))
    by (apply Forall_app; split; [done|by apply Forall_singleton]).
  rewrite (array_sort_by_timestamp (array_sort by_timestamp l ++ [x]))
    by (apply Forall_app; split; [by apply array_sort_valid|by apply Forall_singleton]).
  rewrite (array_sort_by_timestamp l) by done.
  apply (array_sort_snoc time_of).
Qed.

Lemma history_messages_perm (msgs : list SocketChatMessage.t) :
  history_messages msgs ≡ₚ localize <$> msgs.
Proof. apply array_sort_rearranges. Qed.

Lemma history_messages_ascending (msgs : list SocketChatMessage.t) :
  Forall (λ msg, in_time_range (SocketChatMessage.timestamp msg)) msgs →
  ascending_by time_of (history_messages msgs).
Proof.
  intros Hr. unfold history_messages.
  rewrite array_sort_by_timestamp by by apply valid_times_localize.
  apply sorted_ascending_by, (array_sort_sorted time_of).
Qed.

Lemma ids_localize (msgs : list SocketChatMessage.t) :
  ids (localize <$> msgs) = SocketChatMessage.id <$> msgs.
Proof. unfold ids. rewrite <- list_fmap_compose. done. Qed.

Lemma findIndex_None (message : SocketChatMessage.t) (prev : list ChatMessage.t) :
  findIndex (λ m, ChatMessage.id m = SocketChatMessage.id message) prev = None
  ↔ SocketChatMessage.id message ∉ ids prev.
Proof.
  unfold findIndex. rewrite fmap_None, list_find_None, Forall_forall.
  unfold ids. rewrite list_elem_of_fmap. split.
  - intros H (m & Hid & Hm). by apply (H m).
  - intros H m Hm Hid. apply H. by exists m.
Qed.

Lemma findIndex_Some (message : SocketChatMessage.t) (prev : list ChatMessage.t) i :
  findIndex (λ m, ChatMessage.id m = SocketChatMessage.id message) prev = Some i
  ↔ ∃ old, prev !! i = Some old
        ∧ ChatMessage.id old = SocketChatMessage.id message
        ∧ ∀ j m, (j < i)%nat → prev !! j = Some m →
                 ChatMessage.id m ≠ SocketChatMessage.id message.
Proof.
  unfold findIndex. rewrite fmap_Some. split.
  - intros ([i' old] & (Hi & Hid & Hfirst)%list_find_Some & ->). simpl. 
    exists old. split_and!; [done..|]. intros j m Hj Hm. by eapply Hfirst.
  - intros (old & Hi & Hid & Hfirst). exists (i, old). split; [|done].
    apply list_find_Some. split_and!; [done..|]. intros j m Hm Hj. by eapply Hfirst.
Qed.

(** Without a matching id the updater sorts the extended list. *)
Lemma new_message_update_fresh (message : SocketChatMessage.t) (prev : list ChatMessage.t) :
  SocketChatMessage.id message ∉ ids prev →
  new_message_update message prev = array_sort by_timestamp (prev ++ [localize message]).
Proof.
  intros H%findIndex_None. unfold new_message_update. by rewrite H.
Qed.

(** Messages of distinct ids and valid dates, received one by one, are
    sorted as a whole. *)
Lemma new_messages_fold (events : list SocketChatMessage.t) :
  NoDup (SocketChatMessage.id <$> events) →
  Forall (λ e, in_time_range (SocketChatMessage.timestamp e)) events →
  foldl (λ l e, new_message_update e l) [] events
  = array_sort by_timestamp (localize <$> events).
Proof.
  induction events as [|e events IH] using rev_ind; [done|].
  rewrite !fmap_app, foldl_app. simpl.
  intros [Hnd [Hfresh _]]%NoDup_app Hall.
  apply Forall_app in Hall as [Hr He]. rewrite Forall_singleton in He.
  rewrite IH by done.
  rewrite new_message_update_fresh.
  - apply array_sort_by_timestamp_snoc;
      [by apply valid_times_localize|by apply valid_time_localize].
  - intros Hin. unfold ids in Hin.
    rewrite array_sort_rearranges, <- list_fmap_compose in Hin.
    apply (Hfresh _ Hin). simpl. left.
Qed.

Lemma messages_reconcile_new (events : list SocketChatMessage.t) (c : Comp) :
  messages (reconcile (new_message <$> events) c)
  = foldl (λ l e, new_message_update e l) (messages c) events.
Proof.
  revert c. induction events as [|e events IH]; intros c; [done|].
  change (reconcile (new_message <$> e :: events) c)
    with (reconcile (new_message <$> events) (on_new_message e c)).
  rewrite IH. simpl. f_equal.
  unfold on_new_message. by destruct (SocketChatMessage.role e).
Qed.

Lemma messages_on_new_message (message : SocketChatMessage.t) (c : Comp) :
  messages (on_new_message message c) = new_message_update message (messages c).
Proof. unfold on_new_message. by destruct (SocketChatMessage.role message). Qed.

(** C1. A [new-message] event whose id is the id of a listed message
    replaces that message in place: the handler writes the received message
    at the index of the first listed message of that id; the list keeps its
    length, and every other index keeps its message. *)
Theorem new_message_replaces_in_place (message : SocketChatMessage.t) (c : Comp) :
  SocketChatMessage.id message ∈ ids (messages c) →
  ∃ i old,
    messages c !! i = Some old
    ∧ ChatMessage.id old = SocketChatMessage.id message
    ∧ (∀ j m, (j < i)%nat → messages c !! j = Some m →
              ChatMessage.id m ≠ SocketChatMessage.id message)
    ∧ length (messages (on_new_message message c)) = length (messages c)
    ∧ messages (on_new_message message c) !! i = Some (localize message)
    ∧ ∀ j, j ≠ i → messages (on_new_message message c) !! j = messages c !! j.
Proof.
  intros Hin. rewrite messages_on_new_message. unfold new_message_update.
  destruct (findIndex _ (messages c)) as [i|] eqn:Hfind.
  - pose proof Hfind as (old & Hi & Hid & Hfirst)%findIndex_Some.
    exists i, old. split_and!; [done..| | |].
    + apply length_insert.
    + apply list_lookup_insert_eq. by eapply lookup_lt_Some.
    + intros j Hj. by apply list_lookup_insert_ne.
  - by apply findIndex_None in Hfind.
Qed.

(** A placeholder and a message, then the final content of the placeholder. *)
Lemma new_message_replaces_in_place_witness :
  let c := reconcile [new_message (sample_message "m1" 100 "");
                      new_message (sample_message "m2" 200 "hello")] sample_room in
  let message := sample_message "m1" 100 "final" in
  ids (messages c) = ["m1"; "m2"]
  ∧ ∃ i old,
      messages c !! i = Some old
      ∧ ChatMessage.id old = SocketChatMessage.id message
      ∧ (∀ j m, (j < i)%nat → messages c !! j = Some m →
                ChatMessage.id m ≠ SocketChatMessage.id message)
      ∧ length (messages (on_new_message message c)) = length (messages c)
      ∧ messages (on_new_message message c) !! i = Some (localize message)
      ∧ ∀ j, j ≠ i → messages (on_new_message message c) !! j = messages c !! j.
Proof.
  intros c message. split; [reflexivity|].
  apply (new_message_replaces_in_place message c).
  change ("m1" ∈ ["m1"; "m2"]). left.
Defined.

(** A stable sort keeps messages of equal time value in their order. *)
Lemma array_sort_by_timestamp_before (l : list ChatMessage.t) (a b : ChatMessage.t) :
  Forall valid_time l →
  before (array_sort by_timestamp l) a b → time_of a = time_of b → before l a b.
Proof.
  intros Hl. rewrite array_sort_by_timestamp by done. apply (array_sort_before time_of).
Qed.

(** C2, as the code has it. [new-message] events of pairwise distinct ids
    whose timestamps are those of valid dates, received into an empty list,
    leave the list in ascending order of timestamp; the list holds exactly
    the received messages; and two messages of equal timestamp stand in the
    order in which their events arrived. *)
Theorem new_messages_sorted_stable (events : list SocketChatMessage.t) (c : Comp) :
  messages c = [] →
  NoDup (SocketChatMessage.id <$> events) →
  Forall (λ e, in_time_range (SocketChatMessage.timestamp e)) events →
  let result := messages (reconcile (new_message <$> events) c) in
  ascending_by time_of result
  ∧ result ≡ₚ localize <$> events
  ∧ (∀ m, m ∈ result → ∃ e, e ∈ events ∧ m = localize e
                            ∧ time_of m = SocketChatMessage.timestamp e)
  ∧ ∀ a b, before result a b → time_of a = time_of b →
           ∃ ea eb, before events ea eb ∧ localize ea = a ∧ localize eb = b.
Proof.
  intros Hempty Hnd Hr result. subst result.
  rewrite messages_reconcile_new, Hempty, new_messages_fold by done.
  split_and!.
  - by apply history_messages_ascending.
  - apply history_messages_perm.
  - intros m Hm. rewrite array_sort_rearranges in Hm.
    apply list_elem_of_fmap in Hm as (e & -> & He). exists e. split_and!; [done..|].
    apply time_of_localize. rewrite Forall_forall in Hr. by apply Hr.
  - intros a b Hab Ht. apply before_fmap.
    apply array_sort_by_timestamp_before; [by apply valid_times_localize|done..].
Qed.

(** Four messages, two timestamps, received out of order. *)
Lemma new_messages_sorted_stable_witness :
  let events := [sample_message "m1" 300 "c"; sample_message "m2" 100 "a";
                 sample_message "m3" 300 "d"; sample_message "m4" 100 "b"] in
  let result := messages (reconcile (new_message <$> events) sample_room) in
  ids result = ["m2"; "m4"; "m1"; "m3"]
  ∧ ascending_by time_of result
  ∧ result ≡ₚ localize <$> events
  ∧ (∀ m, m ∈ result → ∃ e, e ∈ events ∧ m = localize e
                            ∧ time_of m = SocketChatMessage.timestamp e)
  ∧ ∀ a b, before result a b → time_of a = time_of b →
           ∃ ea eb, before events ea eb ∧ localize ea = a ∧ localize eb = b.
Proof.
  intros events result. split; [reflexivity|].
  apply (new_messages_sorted_stable events sample_room); [reflexivity| |].
  - change (NoDup ["m1"; "m2"; "m3"; "m4"]).
    apply (bool_decide_unpack _). vm_compute. exact I.
  - repeat constructor; unfold in_time_range, max_time; simpl; lia.
Defined.

(** C2 as the specification words it fails on a timestamp that is not that
    of a valid date: [new Date] gives an Invalid Date and every comparison
    with it is NaN. With two messages the comparator then calls them equal
    either way round, which is consistent, and the sort, being stable, keeps
    them in the order of arrival, the later timestamp first. *)
Lemma new_messages_invalid_date_unsorted :
  let m1 := sample_message "m1" 8640000000000001 "far" in
  let m2 := sample_message "m2" 100 "near" in
  let result := messages (reconcile (new_message <$> [m1; m2]) sample_room) in
  messages sample_room = []
  ∧ NoDup (SocketChatMessage.id <$> [m1; m2])
  ∧ result = [localize m1; localize m2]
  ∧ SocketChatMessage.timestamp m2 < SocketChatMessage.timestamp m1.
Proof.
  split_and!; [reflexivity| |reflexivity|reflexivity].
  change (NoDup ["m1"; "m2"]). apply (bool_decide_unpack _). vm_compute. exact I.
Qed.

(** C3, as the code has it. A [room-history] event replaces the message
    list by a rearrangement of the messages of the snapshot, whatever the
    list was before; when the timestamps of the snapshot are those of valid
    dates, the list is in ascending order of timestamp, messages of equal
    timestamp in the order of the snapshot. Processing the same snapshot
    twice in a row leaves the component as processing it once does. *)
Theorem room_history_replaces_and_is_idempotent (data : RoomData.t) (c c' : Comp) :
  let result := messages (on_room_history data c) in
  result ≡ₚ localize <$> RoomData.messages data
  ∧ (Forall (λ e, in_time_range (SocketChatMessage.timestamp e)) (RoomData.messages data) →
     ascending_by time_of result
     ∧ (∀ m, m ∈ result → ∃ e, e ∈ RoomData.messages data ∧ m = localize e
                               ∧ time_of m = SocketChatMessage.timestamp e)
     ∧ ∀ a b, before result a b → time_of a = time_of b →
              before (localize <$> RoomData.messages data) a b)
  ∧ messages (on_room_history data c') = result
  ∧ on_room_history data (on_room_history data c) = on_room_history data c.
Proof.
  assert (∀ d, messages (on_room_history data d)
               = history_messages (RoomData.messages data)) as Hmsg.
  { intros d. unfold on_room_history. by destruct (RoomData.chatInfo data). }
  intros result. subst result. rewrite !Hmsg. split_and!.
  - apply history_messages_perm.
  - intros Hr. split_and!.
    + by apply history_messages_ascending.
    + intros m Hm. rewrite history_messages_perm in Hm.
      apply list_elem_of_fmap in Hm as (e & -> & He). exists e. split_and!; [done..|].
      apply time_of_localize. rewrite Forall_forall in Hr. by apply Hr.
    + intros a b Hab Ht.
      by apply (array_sort_by_timestamp_before (localize <$> RoomData.messages data));
        [apply valid_times_localize|..].
  - done.
  - unfold on_room_history. by destruct (RoomData.chatInfo data).
Qed.

(** A snapshot out of order, its timestamps those of valid dates. *)
Lemma room_history_replaces_and_is_idempotent_witness :
  let data := RoomData.mk "room-1"
                [sample_message "m1" 300 "c"; sample_message "m2" 100 "a";
                 sample_message "m3" 300 "d"] [] None in
  let result := messages (on_room_history data sample_room) in
  ids result = ["m2"; "m1"; "m3"]
  ∧ ascending_by time_of result
  ∧ (∀ m, m ∈ result → ∃ e, e ∈ RoomData.messages data ∧ m = localize e
                            ∧ time_of m = SocketChatMessage.timestamp e)
  ∧ ∀ a b, before result a b → time_of a = time_of b →
           before (localize <$> RoomData.messages data) a b.
Proof.
  intros data result. split; [reflexivity|].
  apply (room_history_replaces_and_is_idempotent data sample_room sample_room).
  repeat constructor; unfold in_time_range, max_time; simpl; lia.
Defined.

(** C3 as the specification words it fails on a timestamp that is not that
    of a valid date: the comparator calls the two messages equal either way
    round, and the snapshot stays in the order received. *)
Lemma room_history_invalid_date_unsorted :
  let m1 := sample_message "m1" 8640000000000001 "far" in
  let m2 := sample_message "m2" 100 "near" in
  let data := RoomData.mk "room-1" [m1; m2] [] None in
  messages (on_room_history data sample_room) = [localize m1; localize m2]
  ∧ SocketChatMessage.timestamp m2 < SocketChatMessage.timestamp m1.
Proof. split; reflexivity. Qed.

(** The scenario of the specification: an empty snapshot, a message, then
    the same id with its final content. *)
Example placeholder_then_final :
  let snapshot := RoomData.mk "room-1" [] [] None in
  let result :=
    messages (reconcile [room_history snapshot;
                         new_message (sample_message "m1" 100 "");
                         new_message (sample_message "m1" 100 "final")] sample_room) in
  result = [localize (sample_message "m1" 100 "final")].
Proof. reflexivity. Qed.

(** ** Uniqueness of ids *)

Lemma ids_insert (l : list ChatMessage.t) (i : nat) (m old : ChatMessage.t) :
  l !! i = Some old → ChatMessage.id old = ChatMessage.id m →
  ids (<[i := m]> l) = ids l.
Proof.
  intros Hi Hid. unfold ids. rewrite list_fmap_insert.
  apply list_insert_id. rewrite list_lookup_fmap, Hi. simpl. by rewrite Hid.
Qed.

(** The [new-message] updater keeps the ids of the list distinct. *)
Lemma new_message_update_NoDup (message : SocketChatMessage.t) (prev : list ChatMessage.t) :
  NoDup (ids prev) → NoDup (ids (new_message_update message prev)).
Proof.
  intros Hnd. unfold new_message_update.
  destruct (findIndex _ prev) as [i|] eqn:Hfind.
  - apply findIndex_Some in Hfind as (old & Hi & Hid & _).
    by rewrite (ids_insert _ _ _ old).
  - apply findIndex_None in Hfind. unfold ids.
    rewrite array_sort_rearranges, fmap_app. simpl.
    apply NoDup_app. split_and!; [done| |apply NoDup_singleton].
    intros x Hx ->%list_elem_of_singleton. done.
Qed.

Lemma on_inbound_NoDup (ev : Inbound) (c : Comp) :
  NoDup (ids (messages c)) → id_safe ev (messages c) →
  NoDup (ids (messages (on_inbound ev c))).
Proof.
  intros Hnd Hsafe. destruct ev as [data|message|message|data|user users|u s users]; simpl.
  - assert (messages (on_room_history data c)
            = history_messages (RoomData.messages data)) as ->.
    { unfold on_room_history. by destruct (RoomData.chatInfo data). }
    unfold ids. rewrite history_messages_perm. fold (ids (localize <$> RoomData.messages data)).
    by rewrite ids_localize.
  - rewrite messages_on_new_message. by apply new_message_update_NoDup.
  - unfold ai_typing_update, ids. rewrite fmap_app. simpl in *.
    apply NoDup_app. split_and!; [done| |apply NoDup_singleton].
    intros x Hx ->%list_elem_of_singleton. done.
  - done.
  - done.
  - done.
Qed.

(** C7, as the code has it. When every snapshot carries pairwise distinct
    ids and every [ai-typing] placeholder carries an id that is not listed
    when it arrives, the message list holds at most one message per id after
    any sequence of received events; [new-message] events need no
    condition. *)
Theorem ids_unique_for_id_safe_events (events : list Inbound) (c : Comp) :
  NoDup (ids (messages c)) →
  all_id_safe events c →
  NoDup (ids (messages (reconcile events c))).
Proof.
  revert c. induction events as [|ev events IH]; intros c Hnd Hsafe; [done|].
  destruct Hsafe as [Hev Hrest].
  change (reconcile (ev :: events) c) with (reconcile events (on_inbound ev c)).
  apply IH; [|done]. by apply on_inbound_NoDup.
Qed.

(** A snapshot, a placeholder, its answer, and a late message. *)
Lemma ids_unique_for_id_safe_events_witness :
  let events := [room_history (RoomData.mk "room-1" [sample_message "m1" 100 "hi"] [] None);
                 ai_typing (sample_placeholder "m2" 200);
                 new_message (sample_message "m2" 250 "answer");
                 new_message (sample_message "m3" 150 "again")] in
  ids (messages (reconcile events sample_room)) = ["m1"; "m3"; "m2"]
  ∧ NoDup (ids (messages (reconcile events sample_room))).
Proof.
  intros events. split; [reflexivity|].
  apply (ids_unique_for_id_safe_events events sample_room).
  - apply NoDup_nil_2.
  - simpl. split_and!; try exact I.
    + change (NoDup ["m1"]). apply NoDup_singleton.
    + change ("m2" ∉ ["m1"]). apply (bool_decide_unpack _). vm_compute. exact I.
Defined.

(** C7 fails as stated: two [ai-typing] events of the same id leave two
    entries of that id in the list, and so does a placeholder that arrives
    after the message that was to replace it; the handler appends without
    looking. *)
Lemma ai_typing_twice_duplicates_id :
  let twice := [ai_typing (sample_placeholder "m1" 100);
                ai_typing (sample_placeholder "m1" 100)] in
  let late := [new_message (sample_message "m1" 120 "answer");
               ai_typing (sample_placeholder "m1" 100)] in
  ids (messages (reconcile twice sample_room)) = ["m1"; "m1"]
  ∧ ¬ NoDup (ids (messages (reconcile twice sample_room)))
  ∧ ids (messages (reconcile late sample_room)) = ["m1"; "m1"].
Proof.
  intros twice late. split; [reflexivity|]. split; [|reflexivity].
  change (¬ NoDup ["m1"; "m1"]).
  intros [Hnotin _]%NoDup_cons. apply Hnotin. left.
Qed.

(* ===================================================================== *)
(** * The presence tracker *)
(* ===================================================================== *)

Lemma uniqueUsers_foldl (users acc : list RoomUser.t) :
  let result :=
    foldl (λ acc user,
             if some (λ u, RoomUser.id u = RoomUser.id user) acc
             then acc else acc ++ [user]) acc users in
  (NoDup (user_ids acc) → NoDup (user_ids result))
  ∧ ∀ x, x ∈ user_ids result ↔ x ∈ user_ids acc ∨ x ∈ user_ids users.
Proof.
  revert acc. induction users as [|user users IH]; intros acc; simpl.
  - split; [done|]. intros x. rewrite elem_of_nil. tauto.
  - assert (some (λ u, RoomUser.id u = RoomUser.id user) acc = true
            ↔ RoomUser.id user ∈ user_ids acc) as Hsome.
    { unfold some, user_ids. rewrite bool_decide_eq_true, Exists_exists, list_elem_of_fmap.
      split; intros (u & ? & ?); by exists u. }
    destruct (some _ acc) eqn:E.
    + destruct (IH acc) as [IH1 IH2]. split; [done|].
      intros x. rewrite IH2, elem_of_cons.
      assert (RoomUser.id user ∈ user_ids acc) by by apply Hsome.
      split; [tauto|]. intros [?|[->|?]]; tauto.
    + destruct (IH (acc ++ [user])) as [IH1 IH2].
      assert (RoomUser.id user ∉ user_ids acc) as Hfresh.
      { intros Hin%Hsome. congruence. }
      assert (user_ids (acc ++ [user]) = user_ids acc ++ [RoomUser.id user]) as Hsnoc.
      { unfold user_ids. by rewrite fmap_app. }
      split.
      * intros Hnd. apply IH1. rewrite Hsnoc.
        apply NoDup_app. split_and!; [done| |apply NoDup_singleton].
        intros x Hx ->%list_elem_of_singleton. done.
      * intros x. rewrite IH2, Hsnoc, elem_of_app, list_elem_of_singleton, elem_of_cons.
        tauto.
Qed.

Lemma uniqueUsers_NoDup (users : list RoomUser.t) : NoDup (user_ids (uniqueUsers users)).
Proof. apply (uniqueUsers_foldl users []). apply NoDup_nil_2. Qed.

Lemma uniqueUsers_ids (users : list RoomUser.t) (x : string) :
  x ∈ user_ids (uniqueUsers users) ↔ x ∈ user_ids users.
Proof.
  unfold uniqueUsers. destruct (uniqueUsers_foldl users []) as [_ H].
  rewrite H. simpl. rewrite elem_of_nil. tauto.
Qed.

(** C9. After a [room-history], [user-joined] or [user-left] event the
    presence list holds each user id of the carried list, once; after
    [user-left] the departing user id is not in the typing map. *)
Theorem presence_unique_by_id :
  (∀ data c,
     let users := roomUsers (on_inbound (room_history data) c) in
     NoDup (user_ids users)
     ∧ ∀ x, x ∈ user_ids users ↔ x ∈ user_ids (RoomData.users data))
  ∧ (∀ user carried c,
       let users := roomUsers (on_inbound (user_joined user carried) c) in
       NoDup (user_ids users) ∧ ∀ x, x ∈ user_ids users ↔ x ∈ user_ids carried)
  ∧ (∀ userId socketId carried c,
       let c' := on_inbound (user_left userId socketId carried) c in
       NoDup (user_ids (roomUsers c'))
       ∧ (∀ x, x ∈ user_ids (roomUsers c') ↔ x ∈ user_ids carried)
       ∧ typingUsers c' !! userId = None).
Proof.
  split_and!.
  - intros data c. simpl.
    assert (roomUsers (on_room_history data c) = uniqueUsers (RoomData.users data)) as ->.
    { unfold on_room_history. by destruct (RoomData.chatInfo data). }
    split; [apply uniqueUsers_NoDup|apply uniqueUsers_ids].
  - intros user carried c. simpl.
    split; [apply uniqueUsers_NoDup|apply uniqueUsers_ids].
  - intros userId socketId carried c. simpl.
    split_and!; [apply uniqueUsers_NoDup|apply uniqueUsers_ids|apply lookup_delete_eq].
Qed.

(** A [user-joined] event that lists one user twice. *)
Example user_joined_duplicate :
  let ada := sample_user "u1" "Ada" in
  let bob := sample_user "u2" "Bob" in
  roomUsers (on_inbound (user_joined ada [ada; bob; ada]) sample_room) = [ada; bob].
Proof. reflexivity. Qed.

(* ===================================================================== *)
(** * [socket.ts]: the HTTP side channel *)
(* ===================================================================== *)

(** [safeUser] as [actuallyJoinRoom] builds it. *)
Lemma emitted_actuallyJoinRoom (room : string) (user : option User.t) (s : Env) :
  emitted (actuallyJoinRoom room user s)
  = match socket s with
    | Some _ => emitted s ++ [(now s, join_room room (safeUser user))]
    | None => emitted s
    end.
Proof.
  unfold actuallyJoinRoom, socket_emit.
  destruct (safeUser user); simpl; by destruct (socket s).
Qed.

Lemma socket_initSocket (s : Env) : socket (initSocket s) ≠ None.
Proof. unfold initSocket. destruct (socket s) eqn:E; simpl; congruence. Qed.

(** C10. [checkRoomExists] never throws: however the request settles it
    returns a value; it returns [false] when the request is rejected and
    when the body is not JSON, which is also what it returns for a room the
    server reports as nonexistent. *)
Theorem checkRoomExists_never_throws (s : Env) :
  (∀ o, ∃ v, checkRoomExists o s = (Normal v, s))
  ∧ (∀ reason, checkRoomExists (Rejected reason) s = (Normal (js (JBool false)), s))
  ∧ (∀ ok status text,
       checkRoomExists (Fulfilled (mkResponse ok status text None)) s
       = (Normal (js (JBool false)), s))
  ∧ (∀ ok status text reason,
       checkRoomExists
         (Fulfilled (mkResponse ok status text (Some (JObject [("exists", JBool false)])))) s
       = checkRoomExists (Rejected reason) s).
Proof.
  split_and!; try done.
  intros [[ok status text [data|]]|reason]; [|by eexists..].
  destruct data; by eexists.
Qed.

(** A body that parses to [null] makes [data.exists] throw inside the
    [try]; the caller still gets [false]. *)
Example checkRoomExists_null_body (s : Env) :
  checkRoomExists (Fulfilled (mkResponse true 200 (Some "null") (Some JNull))) s
  = (Normal (js (JBool false)), s).
Proof. reflexivity. Qed.

Lemma deleteUserChat_resume_true (pd : PendingDelete) (o : FetchOutcome) (s : Env) :
  ∃ s', deleteUserChat_resume pd o s = (Normal true, s').
Proof.
  destruct o as [[ok status [body|] parsed]|reason].
  - unfold deleteUserChat_resume, try_catch, eff_bind, exec, eff_ret, fetchWithCORS,
      try_catch, await_fetch, response_text, JSON_parse_text, response_json, eff_ret, throw.
    simpl. case_bool_decide; [destruct parsed|]; by eexists.
  - by eexists.
  - by eexists.
Qed.

(** C6. [deleteUserChat] first emits [leave-room] for the room and forgets
    the current room when it is that room, arming the 10-second abort of
    the request; then, however the request settles (a response of any
    status and body, a network error, the abort), in whatever state the
    client is by then, the call returns [true]. *)
Theorem deleteUserChat_always_succeeds (userId room : string) (s : Env) :
  let pd := (deleteUserChat_begin userId room s).1 in
  let s1 := (deleteUserChat_begin userId room s).2 in
  emitted s1 = emitted s ++ [(now s, leave_room room)]
  ∧ currentRoomId s1
    = (if bool_decide (currentRoomId s = Some room) then None else currentRoomId s)
  ∧ timers s1
    = timers s ++ [mkTimer (pd_timeoutId pd) (now s + 10000) (task_abort (pd_controller pd))]
  ∧ pd_userId pd = userId ∧ pd_roomId pd = room
  ∧ ∀ o s2, ∃ s3, deleteUserChat_resume pd o s2 = (Normal true, s3).
Proof.
  intros pd s1. split_and!.
  - subst s1. unfold deleteUserChat_begin, socket_emit.
    pose proof (socket_initSocket s) as Hsock.
    destruct (socket (initSocket s)) eqn:E; [|done].
    assert (now (initSocket s) = now s ∧ emitted (initSocket s) = emitted s) as [Hn He].
    { unfold initSocket. by destruct (socket s). }
    simpl. rewrite <- Hn, <- He. by case_bool_decide.
  - subst s1. unfold deleteUserChat_begin, socket_emit.
    assert (currentRoomId (initSocket s) = currentRoomId s) as Hc.
    { unfold initSocket. by destruct (socket s). }
    destruct (socket (initSocket s)); simpl; rewrite Hc; by case_bool_decide.
  - subst s1 pd. unfold deleteUserChat_begin, socket_emit.
    assert (now (initSocket s) = now s ∧ timers (initSocket s) = timers s) as [Hn Ht].
    { unfold initSocket. by destruct (socket s). }
    destruct (socket (initSocket s)); case_bool_decide; simpl; by rewrite Hn, Ht.
  - done.
  - done.
  - intros o s2. apply deleteUserChat_resume_true.
Qed.

(** The scenario of the specification: the server never answers, the abort
    fires after 10 seconds, and the promise of the call resolves with
    [true]. *)
Example deleteUserChat_timeout :
  let cl := run [(0, call_joinRoom "room-1" None);
                 (50, call_deleteUserChat "u1" "room-1")] (initial_client (Some "room-1")) in
  delete_results (env (advance 10049 cl)) = []
  ∧ delete_results (env (advance 10050 cl)) = [(1%positive, true)]
  ∧ emitted (env (advance 10050 cl))
    = [(0, join_room "room-1" None); (50, leave_room "room-1")]
  ∧ currentRoomId (env cl) = None.
Proof. vm_compute. done. Qed.

(** A response of status 500 with a body that is not JSON. *)
Example deleteUserChat_server_error :
  let cl := run [(0, call_deleteUserChat "u1" "room-1");
                 (120, delete_settled 1%positive
                         (Fulfilled (mkResponse false 500 (Some "oops") None)))]
                (initial_client (Some "room-1")) in
  delete_results (env cl) = [(1%positive, true)] ∧ timers (env cl) = [].
Proof. vm_compute. done. Qed.

(* ===================================================================== *)
(** * Timers: what every reachable state satisfies *)
(* ===================================================================== *)

Lemma same_timing_refl (e : Env) : same_timing e e.
Proof. by repeat split. Qed.

Lemma same_timing_trans (e1 e2 e3 : Env) :
  same_timing e1 e2 → same_timing e2 e3 → same_timing e1 e3.
Proof. intros (?&?&?&?) (?&?&?&?). repeat split; congruence. Qed.

Lemma same_timing_initSocket (e : Env) : same_timing e (initSocket e).
Proof. unfold initSocket. destruct (socket e); by repeat split. Qed.

Lemma same_timing_socket_emit (ev : Outbound) (e : Env) : same_timing e (socket_emit ev e).
Proof. unfold socket_emit. destruct (socket e); by repeat split. Qed.

Lemma same_timing_send (ev : Outbound) (e : Env) :
  same_timing e (socket_emit ev (initSocket e)).
Proof.
  eapply same_timing_trans; [apply same_timing_initSocket|apply same_timing_socket_emit].
Qed.

Lemma same_timing_actuallyJoinRoom (room : string) (user : option User.t) (e : Env) :
  same_timing e (actuallyJoinRoom room user e).
Proof.
  unfold actuallyJoinRoom, socket_emit.
  destruct (safeUser user); simpl; destruct (socket e); by repeat split.
Qed.

Lemma EnvInv_same_timing (e e' : Env) : same_timing e e' → EnvInv e → EnvInv e'.
Proof.
  intros (Ht & Hn & Hc & Hp) [H1 H2 H3 H4].
  split; rewrite ?Ht, ?Hn, ?Hc, ?Hp; done.
Qed.

Lemma typing_timers_same (e e' : Env) :
  timers e' = timers e → typing_timers e' = typing_timers e.
Proof. unfold typing_timers. by intros ->. Qed.

Lemma TypingInv_same_timing (e e' : Env) (ref : option positive) :
  same_timing e e' → TypingInv e ref → TypingInv e' ref.
Proof.
  intros (Ht & _). unfold TypingInv. by rewrite (typing_timers_same e e').
Qed.

(** ** [clearTimeout] and [setTimeout] *)

Lemma EnvInv_clearTimeout (h : positive) (e : Env) : EnvInv e → EnvInv (clearTimeout h e).
Proof.
  intros [H1 H2 H3 H4]. split; simpl.
  - intros tm [_ Htm]%list_elem_of_filter. by apply H1.
  - eapply sublist_NoDup; [exact H2|]. apply fmap_sublist, sublist_filter.
  - intros tm [_ Htm]%list_elem_of_filter. by apply H3.
  - intros pd Hpd. destruct (H4 pd Hpd) as [Hlt Habort]. split; [done|].
    intros tm [_ Htm]%list_elem_of_filter. by apply Habort.
Qed.

Lemma typing_timers_clearTimeout (h : positive) (e : Env) :
  typing_timers (clearTimeout h e) = filter (λ tm, handle tm ≠ h) (typing_timers e).
Proof.
  unfold typing_timers. simpl. rewrite !list_filter_filter.
  apply list_filter_iff. tauto.
Qed.

Lemma EnvInv_setTimeout (tk : Task) (delay : Z) (e : Env) :
  0 ≤ delay → EnvInv e → EnvInv (setTimeout tk delay e).2.
Proof.
  intros Hd [H1 H2 H3 H4]. split; simpl.
  - intros tm [Htm| ->%list_elem_of_singleton]%elem_of_app.
    + specialize (H1 tm Htm). lia.
    + simpl. lia.
  - rewrite fmap_app. apply NoDup_app. split_and!; [done| |apply NoDup_singleton].
    intros h [tm [-> Htm]]%list_elem_of_fmap Heq%list_elem_of_singleton.
    specialize (H1 tm Htm). simpl in Heq. lia.
  - intros tm [Htm| ->%list_elem_of_singleton]%elem_of_app; [by apply H3|].
    simpl. lia.
  - intros pd Hpd. destruct (H4 pd Hpd) as [Hlt Habort]. split; [lia|].
    intros tm [Htm| ->%list_elem_of_singleton]%elem_of_app; [by apply Habort|].
    simpl. lia.
Qed.

Lemma typing_timers_setTimeout (tk : Task) (delay : Z) (e : Env) :
  typing_timers (setTimeout tk delay e).2
  = typing_timers e
    ++ (if is_stop_timer (mkTimer (next_handle e) (now e + delay) tk)
        then [mkTimer (next_handle e) (now e + delay) tk] else []).
Proof.
  unfold typing_timers. simpl. rewrite filter_app. f_equal.
  rewrite filter_cons, filter_nil.
  destruct (is_stop_timer _) eqn:E; case_decide; done.
Qed.

(** Clearing the timer that [typingTimeoutRef] holds leaves no idle timer. *)
Lemma typing_timers_cleared (e : Env) (ref : option positive) :
  TypingInv e ref →
  typing_timers (match ref with Some h => clearTimeout h e | None => e end) = [].
Proof.
  destruct ref as [h|]; [|done].
  intros (tm & Htm & Hh). rewrite typing_timers_clearTimeout, Htm.
  by rewrite filter_cons_False, filter_nil by (intros ?; done).
Qed.

Lemma EnvInv_cleared (e : Env) (ref : option positive) :
  EnvInv e → EnvInv (match ref with Some h => clearTimeout h e | None => e end).
Proof. destruct ref; [apply EnvInv_clearTimeout|done]. Qed.

(** A timer that is not an idle timer can be cleared without touching the
    idle timers. *)
Lemma typing_timers_clear_other (h : positive) (e : Env) :
  (∀ tm, tm ∈ timers e → handle tm = h → is_stop_timer tm = false) →
  typing_timers (clearTimeout h e) = typing_timers e.
Proof.
  unfold typing_timers. simpl. induction (timers e) as [|tm l IH]; intros Hother; [done|].
  rewrite (filter_cons _ tm l), (filter_cons (λ tm, is_stop_timer tm) tm l).
  assert (filter (λ tm, is_stop_timer tm) (filter (λ tm, handle tm ≠ h) l)
          = filter (λ tm, is_stop_timer tm) l) as IH'.
  { apply IH. intros tm' Htm'. apply Hother. by right. }
  case_decide as Hh.
  - rewrite filter_cons, IH'. done.
  - rewrite IH'.
    assert (is_stop_timer tm = false) as ->; [|done].
    apply Hother; [left|done].
Qed.

(** ** The debouncer keeps the invariant *)

Lemma truthy_Some (room : string) : truthy (Some room) = bool_decide (room ≠ "").
Proof. done. Qed.

(** [handleInputChange] on content that is not blank, in a room. *)
Lemma handleInputChange_typing (value room : string) (cl : Client) :
  roomId (ui cl) = Some room → room ≠ "" → trim value ≠ "" →
  handleInputChange value cl
  = let e := match typingTimeoutRef (ui cl) with
             | Some h => clearTimeout h (sendTypingIndicator room (env cl))
             | None => sendTypingIndicator room (env cl)
             end in
    mkClient (setTimeout (task_stopTyping (Some room)) 2000 e).2
             (set_typingTimeoutRef (Some (next_handle e)) (setInputValue value (ui cl))).
Proof.
  intros Hroom Hne Hv. unfold handleInputChange, clear_typing_timeout. simpl.
  rewrite Hroom. simpl.
  rewrite (bool_decide_eq_true_2 _ Hv), (bool_decide_eq_true_2 _ Hne). done.
Qed.

(** [handleInputChange] on blank content, in a room. *)
Lemma handleInputChange_blank (value room : string) (cl : Client) :
  roomId (ui cl) = Some room → room ≠ "" → trim value = "" →
  handleInputChange value cl
  = mkClient
      (sendStoppedTypingIndicator room
         match typingTimeoutRef (ui cl) with
         | Some h => clearTimeout h (env cl)
         | None => env cl
         end)
      (match typingTimeoutRef (ui cl) with
       | Some _ => set_typingTimeoutRef None (setInputValue value (ui cl))
       | None => setInputValue value (ui cl)
       end).
Proof.
  intros Hroom Hne Hv. unfold handleInputChange, clear_typing_timeout. simpl.
  rewrite Hroom. simpl.
  rewrite (bool_decide_eq_false_2 (trim value ≠ "")) by (intros H; done).
  rewrite (bool_decide_eq_true_2 _ Hv), (bool_decide_eq_true_2 _ Hne). done.
Qed.

(** [handleInputChange] outside a room only stores the content. *)
Lemma handleInputChange_no_room (value : string) (cl : Client) :
  truthy (roomId (ui cl)) = false →
  handleInputChange value cl = mkClient (env cl) (setInputValue value (ui cl)).
Proof.
  intros Hroom. unfold handleInputChange. simpl.
  destruct (roomId (ui cl)) as [room|]; [|done].
  rewrite Hroom, !andb_false_r. done.
Qed.

Lemma Inv_handleInputChange (value : string) (cl : Client) :
  Inv cl → Inv (handleInputChange value cl).
Proof.
  intros [He Ht].
  destruct (truthy (roomId (ui cl))) eqn:Htr.
  - destruct (roomId (ui cl)) as [room|] eqn:Hroom; [|done].
    apply bool_decide_eq_true in Htr.
    destruct (decide (trim value = "")) as [Hv|Hv].
    + rewrite (handleInputChange_blank value room) by done. split; simpl.
      * eapply EnvInv_same_timing; [apply same_timing_send|]. by apply EnvInv_cleared.
      * assert (typingTimeoutRef
                  match typingTimeoutRef (ui cl) with
                  | Some _ => set_typingTimeoutRef None (setInputValue value (ui cl))
                  | None => setInputValue value (ui cl)
                  end = None) as ->.
        { by destruct (typingTimeoutRef (ui cl)) eqn:E. }
        eapply TypingInv_same_timing; [apply same_timing_send|].
        by apply typing_timers_cleared.
    + rewrite (handleInputChange_typing value room) by done.
      set (e := match typingTimeoutRef (ui cl) with
                | Some h => clearTimeout h (sendTypingIndicator room (env cl))
                | None => sendTypingIndicator room (env cl)
                end).
      assert (EnvInv e ∧ typing_timers e = []) as [He' Hnone].
      { split.
        - apply EnvInv_cleared. eapply EnvInv_same_timing; [apply same_timing_send|done].
        - apply typing_timers_cleared.
          eapply TypingInv_same_timing; [apply same_timing_send|done]. }
      split.
      * apply EnvInv_setTimeout; [lia|done].
      * eexists. split.
        { change (env _) with (setTimeout (task_stopTyping (Some room)) 2000 e).2.
          rewrite typing_timers_setTimeout, Hnone. reflexivity. }
        reflexivity.
  - by rewrite handleInputChange_no_room.
Qed.

Lemma Inv_handleSubmit (messageId : string) (cl : Client) :
  Inv cl → Inv (handleSubmit messageId cl).
Proof.
  intros Hinv. pose proof Hinv as [He Ht]. unfold handleSubmit.
  destruct (roomId (ui cl)) as [room|] eqn:Hroom; [|done].
  destruct (_ || _ || _); [done|].
  unfold clear_typing_timeout, sendMessage, requestAIResponse, sendStoppedTypingIndicator.
  assert (∀ e,
            same_timing e
              (socket_emit (request_ai_response room (inputValue (ui cl)))
                 (initSocket
                    (socket_emit (send_message room (Some messageId) (inputValue (ui cl)) role_user)
                       (initSocket
                          (socket_emit (user_stopped_typing room) (initSocket e))))))) as Hsame.
  { intros e. repeat (eapply same_timing_trans; [|apply same_timing_send]).
    apply same_timing_refl. }
  split; simpl.
  - eapply EnvInv_same_timing; [apply Hsame|]. by apply EnvInv_cleared.
  - assert (typingTimeoutRef
              match typingTimeoutRef (ui cl) with
              | Some _ => set_typingTimeoutRef None (setIsLoading true (setInputValue "" (ui cl)))
              | None => setIsLoading true (setInputValue "" (ui cl))
              end = None) as ->.
    { by destruct (typingTimeoutRef (ui cl)) eqn:E. }
    eapply TypingInv_same_timing; [apply Hsame|].
    by apply typing_timers_cleared.
Qed.

Lemma Inv_onBlur (cl : Client) : Inv cl → Inv (onBlur cl).
Proof.
  intros Hinv. pose proof Hinv as [He Ht]. unfold onBlur.
  destruct (roomId (ui cl)) as [room|] eqn:Hroom; [|done].
  destruct (typingTimeoutRef (ui cl)) as [h|] eqn:Href; [|done].
  destruct (truthy (Some room)); [|done].
  split; simpl.
  - eapply EnvInv_same_timing; [apply same_timing_send|]. by apply EnvInv_clearTimeout.
  - erewrite typing_timers_same; [|apply same_timing_send].
    by apply (typing_timers_cleared _ (Some h)).
Qed.

(** ** [socket.ts] keeps the invariant *)

Lemma joinRoom_cases (room : string) (user : option User.t) (e : Env) :
  joinRoom room user e = actuallyJoinRoom room user (initSocket e)
  ∨ ∃ current,
      currentRoomId e = Some current ∧ current ≠ "" ∧ current ≠ room
      ∧ joinRoom room user e
        = (setTimeout (task_actuallyJoinRoom room user) 100
             (socket_emit (leave_room current) (initSocket e))).2.
Proof.
  unfold joinRoom.
  assert (currentRoomId (initSocket e) = currentRoomId e) as Hc.
  { unfold initSocket. by destruct (socket e). }
  rewrite Hc. destruct (currentRoomId e) as [current|] eqn:E; [|by left].
  simpl. case_bool_decide as H1; [|by left].
  case_bool_decide as H2; [|by left].
  right. exists current. split_and!; [done..|congruence|done].
Qed.

Lemma EnvInv_joinRoom (room : string) (user : option User.t) (e : Env) :
  EnvInv e → EnvInv (joinRoom room user e).
Proof.
  intros He. destruct (joinRoom_cases room user e) as [->|(current & _ & _ & _ & ->)].
  - eapply EnvInv_same_timing; [|exact He].
    eapply same_timing_trans; [apply same_timing_initSocket|apply same_timing_actuallyJoinRoom].
  - apply EnvInv_setTimeout; [lia|].
    eapply EnvInv_same_timing; [apply same_timing_send|done].
Qed.

Lemma typing_timers_joinRoom (room : string) (user : option User.t) (e : Env) :
  typing_timers (joinRoom room user e) = typing_timers e.
Proof.
  destruct (joinRoom_cases room user e) as [->|(current & _ & _ & _ & ->)].
  - apply typing_timers_same.
    eapply same_timing_trans; [apply same_timing_initSocket|apply same_timing_actuallyJoinRoom].
  - rewrite typing_timers_setTimeout. simpl. rewrite app_nil_r.
    apply typing_timers_same, same_timing_send.
Qed.

Lemma same_timing_createRoom_begin (e : Env) : same_timing e (createRoom_begin e).
Proof.
  unfold createRoom_begin.
  destruct (truthy _); [|apply same_timing_initSocket].
  destruct (currentRoomId (initSocket e)); [|apply same_timing_initSocket].
  eapply same_timing_trans; [apply same_timing_send|]. by repeat split.
Qed.

Lemma same_timing_disconnectSocket (e : Env) : same_timing e (disconnectSocket e).
Proof. unfold disconnectSocket. destruct (socket e); by repeat split. Qed.

Lemma same_timing_on_connect (e : Env) : same_timing e (on_connect e).
Proof.
  unfold on_connect. destruct (truthy _); [|apply same_timing_refl].
  destruct (currentRoomId e); [apply same_timing_socket_emit|apply same_timing_refl].
Qed.

Lemma same_timing_on_connect_error (e : Env) : same_timing e (on_connect_error e).
Proof.
  unfold on_connect_error. destruct (socket e); [|apply same_timing_refl].
  case_bool_decide; by repeat split.
Qed.

(** The state [deleteUserChat] leaves when it resumes. *)
Lemma deleteUserChat_resume_env (pd : PendingDelete) (o : FetchOutcome) (s : Env) :
  deleteUserChat_resume pd o s = (Normal true, (deleteUserChat_resume pd o s).2)
  ∧ ((deleteUserChat_resume pd o s).2 = clearTimeout (pd_timeoutId pd) s
     ∨ (deleteUserChat_resume pd o s).2
       = socket_emit (user_deleted_chat (pd_userId pd) (pd_roomId pd))
           (clearTimeout (pd_timeoutId pd) s)).
Proof.
  destruct o as [[ok status [body|] parsed]|reason].
  - unfold deleteUserChat_resume, try_catch, eff_bind, exec, eff_ret, fetchWithCORS,
      try_catch, await_fetch, response_text, JSON_parse_text, response_json, eff_ret, throw.
    simpl. case_bool_decide; [destruct parsed|]; split; (done || by right).
  - split; [done|by right].
  - split; [done|by left].
Qed.

Lemma deleteUserChat_begin_env (userId room : string) (e : Env) :
  let e0 := if bool_decide (currentRoomId (socket_emit (leave_room room) (initSocket e)) = Some room)
            then set_currentRoomId None (socket_emit (leave_room room) (initSocket e))
            else socket_emit (leave_room room) (initSocket e) in
  let e1 := (setTimeout (task_abort (next_handle e)) 10000 (new_AbortController e0).2).2 in
  let pd := mkPendingDelete userId room (next_handle e) (Pos.succ (next_handle e)) in
  same_timing e e0
  ∧ deleteUserChat_begin userId room e = (pd, set_pending_deletes (pending_deletes e ++ [pd]) e1).
Proof.
  intros e0 e1 pd.
  assert (same_timing e e0) as Hsame.
  { subst e0. case_bool_decide.
    - eapply same_timing_trans; [apply same_timing_send|]. by repeat split.
    - apply same_timing_send. }
  split; [done|].
  destruct Hsame as (Ht & Hn & Hc & Hp).
  unfold deleteUserChat_begin. fold e0. subst pd e1. simpl. rewrite Hn, Hp. done.
Qed.

Lemma EnvInv_deleteUserChat_begin (userId room : string) (e : Env) :
  EnvInv e → EnvInv (deleteUserChat_begin userId room e).2.
Proof.
  intros He. destruct (deleteUserChat_begin_env userId room e) as [Hsame ->]. simpl.
  set (e0 := if bool_decide _ then _ else _) in *.
  apply (EnvInv_same_timing e e0) in He; [|done].
  destruct Hsame as (Ht & Hn & Hc & Hp).
  destruct He as [H1 H2 H3 H4]. split; simpl.
  - intros tm [Htm| ->%list_elem_of_singleton]%elem_of_app.
    + specialize (H1 tm Htm). lia.
    + simpl. lia.
  - rewrite fmap_app. apply NoDup_app. split_and!; [done| |apply NoDup_singleton].
    intros h [tm [-> Htm]]%list_elem_of_fmap Heq%list_elem_of_singleton.
    specialize (H1 tm Htm). simpl in Heq. lia.
  - intros tm [Htm| ->%list_elem_of_singleton]%elem_of_app; [by apply H3|].
    simpl. lia.
  - intros pd [Hpd| ->%list_elem_of_singleton]%elem_of_app.
    + rewrite <- Hp in Hpd. destruct (H4 pd Hpd) as [Hlt Habort]. split; [lia|].
      intros tm [Htm| ->%list_elem_of_singleton]%elem_of_app; [by apply Habort|].
      simpl. lia.
    + simpl. split; [lia|].
      intros tm [Htm| ->%list_elem_of_singleton]%elem_of_app.
      * specialize (H1 tm Htm). lia.
      * by eexists.
Qed.

Lemma typing_timers_deleteUserChat_begin (userId room : string) (e : Env) :
  typing_timers (deleteUserChat_begin userId room e).2 = typing_timers e.
Proof.
  destruct (deleteUserChat_begin_env userId room e) as [(Ht & _) ->].
  unfold typing_timers. simpl. rewrite filter_app, Ht. simpl.
  rewrite filter_cons_False; [by rewrite filter_nil, app_nil_r|].
  unfold is_stop_timer. simpl. tauto.
Qed.

(** What [settle_delete] does when the call is suspended: the call leaves
    the suspended calls, its timeout is cleared, [user-deleted-chat] is
    emitted when the request was fulfilled, and the promise resolves. *)
Lemma settle_delete_env (c : positive) (o : FetchOutcome) (s : Env) :
  settle_delete c o s = s
  ∨ ∃ pd e',
      pd ∈ pending_deletes s
      ∧ (let s1 := set_pending_deletes
                     (filter (λ pd, pd_controller pd ≠ c) (pending_deletes s)) s in
         e' = clearTimeout (pd_timeoutId pd) s1
         ∨ e' = socket_emit (user_deleted_chat (pd_userId pd) (pd_roomId pd))
                  (clearTimeout (pd_timeoutId pd) s1))
      ∧ settle_delete c o s = set_delete_results (delete_results e' ++ [(c, true)]) e'.
Proof.
  unfold settle_delete.
  destruct (list_find _ (pending_deletes s)) as [[i pd]|] eqn:Hfind; [|by left].
  right. apply list_find_Some in Hfind as (Hi & _ & _).
  set (s1 := set_pending_deletes _ s).
  destruct (deleteUserChat_resume_env pd o s1) as [Hres Hcases].
  exists pd, (deleteUserChat_resume pd o s1).2. split_and!.
  - by eapply list_elem_of_lookup_2.
  - done.
  - by rewrite Hres.
Qed.

Lemma EnvInv_settle_delete (c : positive) (o : FetchOutcome) (s : Env) :
  EnvInv s → EnvInv (settle_delete c o s).
Proof.
  intros He. destruct (settle_delete_env c o s) as [->|(pd & e' & Hpd & He' & ->)]; [done|].
  assert (EnvInv (clearTimeout (pd_timeoutId pd)
                    (set_pending_deletes
                       (filter (λ pd, pd_controller pd ≠ c) (pending_deletes s)) s))) as H1.
  { apply EnvInv_clearTimeout. destruct He as [H1 H2 H3 H4]. split; simpl; try done.
    intros pd' [_ Hpd']%list_elem_of_filter. by apply H4. }
  eapply EnvInv_same_timing; [|exact H1].
  destruct He' as [->| ->].
  - by repeat split.
  - eapply same_timing_trans; [apply same_timing_socket_emit|]. by repeat split.
Qed.

Lemma timers_settle_delete (c : positive) (o : FetchOutcome) (s : Env) :
  timers (settle_delete c o s) = timers s
  ∨ ∃ pd, pd ∈ pending_deletes s
          ∧ timers (settle_delete c o s)
            = filter (λ tm, handle tm ≠ pd_timeoutId pd) (timers s).
Proof.
  destruct (settle_delete_env c o s) as [->|(pd & e' & Hpd & He' & ->)]; [by left|].
  right. exists pd. split; [done|]. simpl.
  destruct He' as [->| ->]; [done|].
  destruct (same_timing_socket_emit (user_deleted_chat (pd_userId pd) (pd_roomId pd))
              (clearTimeout (pd_timeoutId pd)
                 (set_pending_deletes
                    (filter (λ pd, pd_controller pd ≠ c) (pending_deletes s)) s)))
    as (-> & _). done.
Qed.

Lemma typing_timers_settle_delete (c : positive) (o : FetchOutcome) (s : Env) :
  EnvInv s → typing_timers (settle_delete c o s) = typing_timers s.
Proof.
  intros He. destruct (timers_settle_delete c o s) as [Ht|(pd & Hpd & Ht)].
  - by apply typing_timers_same.
  - unfold typing_timers at 1. rewrite Ht.
    apply (typing_timers_clear_other (pd_timeoutId pd) s).
    intros tm Htm Hh. destruct (inv_pending s He pd Hpd) as [_ Habort].
    destruct (Habort tm Htm Hh) as [c' Hc']. unfold is_stop_timer. by rewrite Hc'.
Qed.

Lemma now_settle_delete (c : positive) (o : FetchOutcome) (s : Env) :
  now (settle_delete c o s) = now s.
Proof.
  destruct (settle_delete_env c o s) as [->|(pd & e' & Hpd & He' & ->)]; [done|].
  simpl. destruct He' as [->| ->]; [done|].
  unfold socket_emit. by destruct (socket _).
Qed.

Lemma socket_settle_delete (c : positive) (o : FetchOutcome) (s : Env) :
  socket (settle_delete c o s) = socket s.
Proof.
  destruct (settle_delete_env c o s) as [->|(pd & e' & Hpd & He' & ->)]; [done|].
  simpl. destruct He' as [->| ->]; [done|].
  unfold socket_emit. simpl. by destruct (socket s) eqn:E.
Qed.

(** [settle_delete] emits at most a [user-deleted-chat] event. *)
Lemma emitted_settle_delete (c : positive) (o : FetchOutcome) (s : Env) :
  emitted (settle_delete c o s) = emitted s
  ∨ ∃ userId room,
      emitted (settle_delete c o s) = emitted s ++ [(now s, user_deleted_chat userId room)].
Proof.
  destruct (settle_delete_env c o s) as [->|(pd & e' & Hpd & He' & ->)]; [by left|].
  simpl. destruct He' as [->| ->]; [by left|].
  unfold socket_emit. simpl. destruct (socket s); [|by left].
  right. by eexists _, _.
Qed.

(** ** One step keeps the invariant *)

Lemma Inv_env_step (cl : Client) (e' : Env) :
  Inv cl → EnvInv e' → typing_timers e' = typing_timers (env cl) →
  Inv (mkClient e' (ui cl)).
Proof.
  intros [He Ht] He' Htt. split; [done|]. simpl.
  unfold TypingInv in *. by rewrite Htt.
Qed.

Lemma Inv_same_timing (cl : Client) (e' : Env) :
  Inv cl → same_timing (env cl) e' → Inv (mkClient e' (ui cl)).
Proof.
  intros Hinv Hsame. apply Inv_env_step; [done| |].
  - destruct Hinv. by eapply EnvInv_same_timing.
  - apply typing_timers_same, Hsame.
Qed.

Lemma typingTimeoutRef_on_inbound (ev : Inbound) (c : Comp) :
  typingTimeoutRef (on_inbound ev c) = typingTimeoutRef c
  ∧ roomId (on_inbound ev c) = roomId c.
Proof.
  destruct ev as [data|message|message|data|user users|u s users]; simpl; try done.
  - unfold on_room_history. by destruct (RoomData.chatInfo data).
  - unfold on_new_message. by destruct (SocketChatMessage.role message).
Qed.

Lemma Inv_step (st : Step) (cl : Client) : Inv cl → Inv (step st cl).
Proof.
  intros Hinv. destruct st; simpl.
  - apply Inv_env_step; [done| |apply typing_timers_joinRoom].
    apply EnvInv_joinRoom, Hinv.
  - apply Inv_env_step; [done| |apply typing_timers_deleteUserChat_begin].
    apply EnvInv_deleteUserChat_begin, Hinv.
  - apply Inv_same_timing; [done|apply same_timing_createRoom_begin].
  - apply Inv_same_timing; [done|apply same_timing_disconnectSocket].
  - by apply Inv_handleInputChange.
  - by apply Inv_handleSubmit.
  - by apply Inv_onBlur.
  - destruct Hinv as [He Ht]. split; [done|]. simpl.
    by rewrite (proj1 (typingTimeoutRef_on_inbound ev (ui cl))).
  - apply Inv_env_step; [done| |apply typing_timers_settle_delete, Hinv].
    apply EnvInv_settle_delete, Hinv.
  - apply Inv_same_timing; [done|apply same_timing_on_connect].
  - apply Inv_same_timing; [done|apply same_timing_on_connect_error].
  - apply Inv_same_timing; [done|]. by repeat split.
Qed.

(** ** Timer expiry keeps the invariant *)

Lemma earliest_None (l : list Timer) : earliest l = None → l = [].
Proof.
  destruct l as [|x l]; [done|]. simpl. destruct (earliest l) as [tm1|]; [|done].
  by destruct (_ <? _).
Qed.

Lemma earliest_Some (l : list Timer) (tm : Timer) :
  earliest l = Some tm → tm ∈ l ∧ ∀ tm', tm' ∈ l → fire_at tm ≤ fire_at tm'.
Proof.
  revert tm. induction l as [|x l IH]; intros tm; simpl; [done|].
  destruct (earliest l) as [tm1|] eqn:E.
  - destruct (IH tm1 eq_refl) as [Hin Hmin].
    destruct (Z.ltb_spec (fire_at tm1) (fire_at x)) as [Hlt|Hlt]; intros [= <-].
    + split; [by right|]. intros tm' [->|Htm']%elem_of_cons; [lia|by apply Hmin].
    + split; [by left|]. intros tm' [->|Htm']%elem_of_cons; [lia|].
      specialize (Hmin tm' Htm'). lia.
  - intros [= <-]. apply earliest_None in E as ->.
    split; [by left|]. intros tm' ->%list_elem_of_singleton. lia.
Qed.

Lemma handle_inj (l : list Timer) (tm tm' : Timer) :
  NoDup (handle <$> l) → tm ∈ l → tm' ∈ l → handle tm = handle tm' → tm = tm'.
Proof.
  induction l as [|x l IH]; [by intros _ ?%elem_of_nil|].
  rewrite fmap_cons. intros [Hx Hnd]%NoDup_cons.
  intros [->|H1]%elem_of_cons [->|H2]%elem_of_cons Hh; [done| | |by apply IH].
  - destruct Hx. rewrite Hh. by apply list_elem_of_fmap_2.
  - destruct Hx. rewrite <- Hh. by apply list_elem_of_fmap_2.
Qed.

(** The environment in which the callback of the expiring timer [tm]
    runs. *)
Lemma fire_base (e : Env) (tm : Timer) :
  EnvInv e → earliest (timers e) = Some tm →
  let e1 := set_now (Z.max (now e) (fire_at tm)) (clearTimeout (handle tm) e) in
  EnvInv e1
  ∧ now e1 = fire_at tm
  ∧ (length (timers e1) < length (timers e))%nat
  ∧ (∀ tm', tm' ∈ timers e1 ↔ tm' ∈ timers e ∧ tm' ≠ tm).
Proof.
  intros He [Hin Hmin]%earliest_Some e1.
  pose proof (inv_clock e He tm Hin) as Hclock.
  assert (∀ tm', tm' ∈ timers e1 ↔ tm' ∈ timers e ∧ tm' ≠ tm) as Hmem.
  { intros tm'. subst e1. simpl. rewrite list_elem_of_filter. split.
    - intros [Hh Htm']. split; [done|]. by intros ->.
    - intros [Htm' Hne]. split; [|done]. intros Hh. apply Hne.
      by apply (handle_inj (timers e)); [apply He|..]. }
  split_and!.
  - pose proof (EnvInv_clearTimeout (handle tm) e He) as [H1 H2 H3 H4].
    split; try done. intros tm' Htm'. subst e1. simpl in *.
    apply list_elem_of_filter in Htm' as [_ Htm']. specialize (Hmin tm' Htm'). lia.
  - subst e1. simpl. lia.
  - subst e1. simpl. apply (length_filter_lt _ _ tm); [done|]. by intros H.
  - done.
Qed.

Lemma typing_timers_fire_base_other (e : Env) (tm : Timer) :
  EnvInv e → tm ∈ timers e → is_stop_timer tm = false →
  typing_timers (set_now (Z.max (now e) (fire_at tm)) (clearTimeout (handle tm) e))
  = typing_timers e.
Proof.
  intros He Hin Hstop.
  rewrite <- (typing_timers_clear_other (handle tm) e); [done|].
  intros tm' Htm' Hh.
  by rewrite (handle_inj (timers e) tm' tm) by (done || apply He).
Qed.

Lemma typing_timers_fire_base_stop (e : Env) (tm : Timer) (ref : option positive) :
  TypingInv e ref → tm ∈ timers e → is_stop_timer tm = true →
  ref = Some (handle tm)
  ∧ typing_timers (set_now (Z.max (now e) (fire_at tm)) (clearTimeout (handle tm) e)) = [].
Proof.
  intros Ht Hin Hstop.
  assert (tm ∈ typing_timers e) as Htt.
  { unfold typing_timers. apply list_elem_of_filter. by rewrite Hstop. }
  destruct ref as [h|]; simpl in Ht.
  - destruct Ht as (tm' & Heq & Hh). rewrite Heq in Htt.
    apply list_elem_of_singleton in Htt as ->. split; [by rewrite Hh|].
    change (typing_timers (clearTimeout (handle tm') e) = []).
    apply (typing_timers_cleared e (Some (handle tm'))). by exists tm'.
  - rewrite Ht in Htt. by apply elem_of_nil in Htt.
Qed.

Lemma same_timing_stop_callback (captured : option string) (e : Env) :
  same_timing e
    match captured with
    | Some room => if truthy captured then sendStoppedTypingIndicator room e else e
    | None => e
    end.
Proof.
  destruct captured as [room|]; [|apply same_timing_refl].
  destruct (truthy _); [apply same_timing_send|apply same_timing_refl].
Qed.

Lemma Inv_fire (tm : Timer) (cl : Client) :
  Inv cl → earliest (timers (env cl)) = Some tm → Inv (fire tm cl).
Proof.
  intros [He Ht] Hearliest.
  destruct (fire_base (env cl) tm He Hearliest) as (He1 & _ & _ & _).
  pose proof (earliest_Some _ _ Hearliest) as [Hin _].
  unfold fire. destruct (task tm) as [room user|captured|c] eqn:Htask; simpl.
  - split; simpl.
    + eapply EnvInv_same_timing; [apply same_timing_actuallyJoinRoom|done].
    + unfold TypingInv.
      rewrite (typing_timers_same _ _ (proj1 (same_timing_actuallyJoinRoom room user _))).
      rewrite typing_timers_fire_base_other; [done..|].
      unfold is_stop_timer. by rewrite Htask.
  - unfold stopTyping_callback. split; simpl.
    + eapply EnvInv_same_timing; [apply same_timing_stop_callback|done].
    + rewrite (typing_timers_same _ _ (proj1 (same_timing_stop_callback captured _))).
      eapply typing_timers_fire_base_stop; [done..|].
      unfold is_stop_timer. by rewrite Htask.
  - split; simpl.
    + by apply EnvInv_settle_delete.
    + unfold TypingInv. rewrite typing_timers_settle_delete by done.
      rewrite typing_timers_fire_base_other; [done..|].
      unfold is_stop_timer. by rewrite Htask.
Qed.

(** No callback arms a timer. *)
Lemma timers_run_task (tk : Task) (cl : Client) (tm : Timer) :
  tm ∈ timers (env (run_task tk cl)) → tm ∈ timers (env cl).
Proof.
  destruct tk as [room user|captured|c]; simpl.
  - by rewrite (proj1 (same_timing_actuallyJoinRoom room user _)).
  - by rewrite (proj1 (same_timing_stop_callback captured _)).
  - destruct (timers_settle_delete c (Rejected AbortError) (env cl)) as [->|(pd & _ & ->)];
      [done|]. by intros [_ ?]%list_elem_of_filter.
Qed.

Lemma length_timers_run_task (tk : Task) (cl : Client) :
  (length (timers (env (run_task tk cl))) ≤ length (timers (env cl)))%nat.
Proof.
  destruct tk as [room user|captured|c]; simpl.
  - by rewrite (proj1 (same_timing_actuallyJoinRoom room user _)).
  - by rewrite (proj1 (same_timing_stop_callback captured _)).
  - destruct (timers_settle_delete c (Rejected AbortError) (env cl)) as [->|(pd & _ & ->)];
      [done|]. apply length_filter.
Qed.

Lemma length_timers_fire (tm : Timer) (cl : Client) :
  Inv cl → earliest (timers (env cl)) = Some tm →
  (length (timers (env (fire tm cl))) < length (timers (env cl)))%nat.
Proof.
  intros [He _] Hearliest.
  destruct (fire_base (env cl) tm He Hearliest) as (_ & _ & Hlen & _).
  unfold fire. eapply Nat.le_lt_trans; [apply length_timers_run_task|]. exact Hlen.
Qed.

Lemma Inv_run_due (fuel : nat) (t : Z) (cl : Client) : Inv cl → Inv (run_due fuel t cl).
Proof.
  revert cl. induction fuel as [|fuel IH]; intros cl Hinv; simpl; [done|].
  destruct (earliest _) as [tm|] eqn:E; [|done].
  destruct (_ <=? _); [|done]. by apply IH, Inv_fire.
Qed.

(** With a round for each live timer, [run_due] leaves no timer that
    expires up to [t]. *)
Lemma run_due_complete (fuel : nat) (t : Z) (cl : Client) :
  Inv cl → (length (timers (env cl)) ≤ fuel)%nat →
  ∀ tm, tm ∈ timers (env (run_due fuel t cl)) → t < fire_at tm.
Proof.
  revert cl. induction fuel as [|fuel IH]; intros cl Hinv Hlen tm; simpl.
  - destruct (timers (env cl)); [by intros ?%elem_of_nil|simpl in Hlen; lia].
  - destruct (earliest _) as [tm1|] eqn:E.
    + destruct (Z.leb_spec (fire_at tm1) t) as [Hdue|Hdue].
      * apply IH; [by apply Inv_fire|].
        pose proof (length_timers_fire tm1 cl Hinv E). lia.
      * intros Htm. apply earliest_Some in E as [_ Hmin].
        specialize (Hmin tm Htm). lia.
    + apply earliest_None in E. rewrite E. by intros ?%elem_of_nil.
Qed.

Lemma Inv_advance (t : Z) (cl : Client) : Inv cl → Inv (advance t cl).
Proof.
  intros Hinv. unfold advance.
  pose proof (Inv_run_due (length (timers (env cl))) t cl Hinv) as [He Ht].
  pose proof (run_due_complete (length (timers (env cl))) t cl Hinv (le_n _)) as Hdone.
  split; simpl; [|done].
  destruct He as [H1 H2 H3 H4]. split; try done. simpl.
  intros tm Htm. specialize (H3 tm Htm). specialize (Hdone tm Htm). lia.
Qed.

Lemma Inv_run (schedule : list (Z * Step)) (cl : Client) : Inv cl → Inv (run schedule cl).
Proof.
  revert cl. induction schedule as [|[t st] schedule IH]; intros cl Hinv; [done|].
  simpl. by apply IH, Inv_step, Inv_advance.
Qed.

Lemma Inv_initial (room : option string) : Inv (initial_client room).
Proof.
  split; [split|]; simpl; try done.
  - by intros tm ?%elem_of_nil.
  - apply NoDup_nil_2.
  - by intros tm ?%elem_of_nil.
  - by intros tm ?%elem_of_nil.
Qed.

(** Every reachable state satisfies the invariant. *)
Lemma reachable_Inv (cl : Client) : reachable cl → Inv cl.
Proof. intros (room & schedule & ->). apply Inv_run, Inv_initial. Qed.

Lemma reachable_step (st : Step) (t : Z) (cl : Client) :
  reachable cl → reachable (step st (advance t cl)).
Proof.
  intros (room & schedule & ->). exists room, (schedule ++ [(t, st)]).
  unfold run. by rewrite foldl_app.
Qed.

(* ===================================================================== *)
(** * The room session: leave, then join *)
(* ===================================================================== *)

Lemma emitted_socket_emit (ev : Outbound) (e : Env) :
  socket e ≠ None → emitted (socket_emit ev e) = emitted e ++ [(now e, ev)].
Proof. unfold socket_emit. by destruct (socket e). Qed.

Lemma emitted_send (ev : Outbound) (e : Env) :
  emitted (socket_emit ev (initSocket e)) = emitted e ++ [(now e, ev)].
Proof.
  rewrite emitted_socket_emit by apply socket_initSocket.
  unfold initSocket. by destruct (socket e).
Qed.

Lemma socket_socket_emit (ev : Outbound) (e : Env) : socket (socket_emit ev e) = socket e.
Proof. unfold socket_emit. by destruct (socket e) eqn:E. Qed.

Lemma socket_actuallyJoinRoom (room : string) (user : option User.t) (e : Env) :
  socket (actuallyJoinRoom room user e) = socket e.
Proof.
  unfold actuallyJoinRoom. rewrite socket_socket_emit. by destruct (safeUser user).
Qed.

Lemma socket_send (ev : Outbound) (e : Env) : socket (socket_emit ev (initSocket e)) ≠ None.
Proof. rewrite socket_socket_emit. apply socket_initSocket. Qed.

(** A callback leaves the socket in place. *)
Lemma socket_run_task (tk : Task) (cl : Client) :
  socket (env cl) ≠ None → socket (env (run_task tk cl)) ≠ None.
Proof.
  intros Hs. destruct tk as [room user|captured|c]; simpl.
  - by rewrite socket_actuallyJoinRoom.
  - destruct captured as [room|]; [|done]. destruct (truthy _); [|done]. apply socket_send.
  - by rewrite socket_settle_delete.
Qed.

(** A callback only adds to the log of emitted events. *)
Lemma emitted_run_task (tk : Task) (cl : Client) :
  ∃ log, emitted (env (run_task tk cl)) = emitted (env cl) ++ log.
Proof.
  destruct tk as [room user|captured|c]; simpl.
  - rewrite emitted_actuallyJoinRoom. destruct (socket _); [by eexists|].
    exists []. by rewrite app_nil_r.
  - destruct captured as [room|]; [|exists []; by rewrite app_nil_r].
    destruct (truthy _); [|exists []; by rewrite app_nil_r].
    unfold sendStoppedTypingIndicator. rewrite emitted_send. by eexists.
  - destruct (emitted_settle_delete c (Rejected AbortError) (env cl))
      as [->|(u & r & ->)]; [|by eexists].
    exists []. by rewrite app_nil_r.
Qed.

Lemma emitted_fire (tm : Timer) (cl : Client) :
  ∃ log, emitted (env (fire tm cl)) = emitted (env cl) ++ log.
Proof.
  unfold fire. set (cl1 := mkClient _ (ui cl)).
  destruct (emitted_run_task (task tm) cl1) as [log Hlog]. by exists log.
Qed.

Lemma emitted_run_due (fuel : nat) (t : Z) (cl : Client) :
  ∃ log, emitted (env (run_due fuel t cl)) = emitted (env cl) ++ log.
Proof.
  revert cl. induction fuel as [|fuel IH]; intros cl; simpl.
  - exists []. by rewrite app_nil_r.
  - destruct (earliest _) as [tm|]; [|exists []; by rewrite app_nil_r].
    destruct (_ <=? _); [|exists []; by rewrite app_nil_r].
    destruct (IH (fire tm cl)) as [log2 ->].
    destruct (emitted_fire tm cl) as [log1 ->].
    exists (log1 ++ log2). by rewrite app_assoc.
Qed.

Lemma currentRoomId_actuallyJoinRoom (room : string) (user : option User.t) (e : Env) :
  currentRoomId (actuallyJoinRoom room user e) = Some room.
Proof.
  unfold actuallyJoinRoom, socket_emit.
  destruct (safeUser user); simpl; by destruct (socket e).
Qed.

(** The timer armed by [joinRoom] expires: [join-room] is emitted at its
    expiry time. *)
Lemma fire_join (tm : Timer) (cl : Client) (room : string) (user : option User.t) :
  Inv cl → earliest (timers (env cl)) = Some tm →
  task tm = task_actuallyJoinRoom room user → socket (env cl) ≠ None →
  emitted (env (fire tm cl))
  = emitted (env cl) ++ [(fire_at tm, join_room room (safeUser user))]
  ∧ currentRoomId (env (fire tm cl)) = Some room.
Proof.
  intros [He _] Hearliest Htask Hsock.
  destruct (fire_base (env cl) tm He Hearliest) as (_ & Hnow & _ & _).
  unfold fire. rewrite Htask. simpl. split; [|apply currentRoomId_actuallyJoinRoom].
  rewrite emitted_actuallyJoinRoom. simpl.
  destruct (socket (env cl)); [|done]. simpl in Hnow. by rewrite Hnow.
Qed.

(** A timer that is not an abort survives the expiry of another timer. *)
Lemma fire_keeps_timer (tm tm0 : Timer) (cl : Client) :
  Inv cl → earliest (timers (env cl)) = Some tm →
  tm0 ∈ timers (env cl) → tm0 ≠ tm → (∀ c, task tm0 ≠ task_abort c) →
  tm0 ∈ timers (env (fire tm cl)).
Proof.
  intros [He _] Hearliest Hin Hne Htask.
  destruct (fire_base (env cl) tm He Hearliest) as (He1 & _ & _ & Hmem).
  set (e1 := set_now _ _) in *.
  assert (tm0 ∈ timers e1) as Hin1 by by apply Hmem.
  unfold fire. fold e1. destruct (task tm) as [room user|captured|c]; simpl.
  - by rewrite (proj1 (same_timing_actuallyJoinRoom room user _)).
  - by rewrite (proj1 (same_timing_stop_callback captured _)).
  - destruct (timers_settle_delete c (Rejected AbortError) e1) as [->|(pd & Hpd & ->)];
      [done|].
    apply list_elem_of_filter. split; [|done]. intros Hh.
    destruct (inv_pending e1 He1 pd Hpd) as [_ Habort].
    destruct (Habort tm0 Hin1 Hh) as [c' Hc']. by apply (Htask c').
Qed.

Lemma socket_fire (tm : Timer) (cl : Client) :
  socket (env cl) ≠ None → socket (env (fire tm cl)) ≠ None.
Proof. intros Hs. unfold fire. by apply socket_run_task. Qed.

(** Once the time of a pending join has come, [join-room] is in the log,
    stamped with the expiry time of its timer. *)
Lemma run_due_join (fuel : nat) (t : Z) (cl : Client) (tm0 : Timer)
    (room : string) (user : option User.t) :
  Inv cl → tm0 ∈ timers (env cl) → task tm0 = task_actuallyJoinRoom room user →
  socket (env cl) ≠ None → fire_at tm0 ≤ t → (length (timers (env cl)) ≤ fuel)%nat →
  ∃ log1 log2,
    emitted (env (run_due fuel t cl))
    = emitted (env cl) ++ log1 ++ [(fire_at tm0, join_room room (safeUser user))] ++ log2.
Proof.
  revert cl. induction fuel as [|fuel IH]; intros cl Hinv Hin Htask Hsock Hdue Hlen.
  - destruct (timers (env cl)); [by apply elem_of_nil in Hin|simpl in Hlen; lia].
  - simpl. destruct (earliest _) as [tm|] eqn:E;
      [|apply earliest_None in E; rewrite E in Hin; by apply elem_of_nil in Hin].
    pose proof (earliest_Some _ _ E) as [Htm Hmin].
    specialize (Hmin tm0 Hin).
    destruct (Z.leb_spec (fire_at tm) t) as [_|?]; [|lia].
    assert (tm0 = tm ∨ tm0 ≠ tm) as [->|Hne].
    { destruct (decide (handle tm0 = handle tm)) as [Hh|Hh]; [left|right; by intros ->].
      apply (handle_inj (timers (env cl))); [apply Hinv|done..]. }
    + destruct (fire_join tm cl room user Hinv E Htask Hsock) as [Hemit _].
      destruct (emitted_run_due fuel t (fire tm cl)) as [log2 ->].
      exists [], log2. rewrite Hemit. by rewrite <- !app_assoc.
    + destruct (IH (fire tm cl)) as (log1 & log2 & ->).
      * by apply Inv_fire.
      * apply fire_keeps_timer; [done..|]. intros c. by rewrite Htask.
      * done.
      * by apply socket_fire.
      * done.
      * pose proof (length_timers_fire tm cl Hinv E). lia.
      * destruct (emitted_fire tm cl) as [log0 ->].
        exists (log0 ++ log1), log2. by rewrite <- !app_assoc.
Qed.

Lemma currentRoomId_initSocket (e : Env) : currentRoomId (initSocket e) = currentRoomId e.
Proof. unfold initSocket. by destruct (socket e). Qed.

(** [joinRoom] from another room: leave now, join in 100 ms. *)
Lemma joinRoom_switch (room current : string) (user : option User.t) (e : Env) :
  currentRoomId e = Some current → current ≠ "" → current ≠ room →
  joinRoom room user e
  = (setTimeout (task_actuallyJoinRoom room user) 100
       (socket_emit (leave_room current) (initSocket e))).2.
Proof.
  intros Hc H1 H2. unfold joinRoom. rewrite currentRoomId_initSocket, Hc. simpl.
  rewrite (bool_decide_eq_true_2 _ H1).
  rewrite bool_decide_eq_true_2 by congruence. done.
Qed.

(** [joinRoom] from no room, or into the current room: join now. *)
Lemma joinRoom_direct (room : string) (user : option User.t) (e : Env) :
  truthy (currentRoomId e) = false ∨ currentRoomId e = Some room →
  joinRoom room user e = actuallyJoinRoom room user (initSocket e).
Proof.
  intros Hc. unfold joinRoom. rewrite currentRoomId_initSocket.
  destruct Hc as [->| ->]; [done|].
  rewrite (bool_decide_eq_false_2 (Some room ≠ Some room)) by (intros H; by apply H).
  by rewrite andb_false_r.
Qed.

(** ** What every step keeps *)

Lemma grows_refl (e : Env) : grows e e.
Proof. exists []. by rewrite app_nil_r. Qed.

Lemma grows_eq (e e' : Env) : emitted e' = emitted e → grows e e'.
Proof. intros H. exists []. by rewrite app_nil_r. Qed.

Lemma grows_trans (e1 e2 e3 : Env) : grows e1 e2 → grows e2 e3 → grows e1 e3.
Proof. intros [l1 H1] [l2 H2]. exists (l1 ++ l2). by rewrite H2, H1, app_assoc. Qed.

Lemma grows_socket_emit (ev : Outbound) (e : Env) : grows e (socket_emit ev e).
Proof. unfold socket_emit. destruct (socket e); [by eexists|apply grows_refl]. Qed.

Lemma grows_send (ev : Outbound) (e : Env) : grows e (socket_emit ev (initSocket e)).
Proof. eexists. apply emitted_send. Qed.

Lemma grows_cleared (ref : option positive) (e : Env) :
  grows e (match ref with Some h => clearTimeout h e | None => e end).
Proof. apply grows_eq. by destruct ref. Qed.

Lemma grows_joinRoom (room : string) (user : option User.t) (e : Env) :
  grows e (joinRoom room user e).
Proof.
  destruct (joinRoom_cases room user e) as [->|(current & _ & _ & _ & ->)].
  - eexists. rewrite emitted_actuallyJoinRoom.
    pose proof (socket_initSocket e) as Hs. destruct (socket (initSocket e)); [|done].
    unfold initSocket. by destruct (socket e).
  - simpl. apply grows_send.
Qed.

Lemma grows_step (st : Step) (cl : Client) : grows (env cl) (env (step st cl)).
Proof.
  destruct st; cbn [step env].
  - apply grows_joinRoom.
  - destruct (deleteUserChat_begin_env userId room (env cl)) as [_ ->]. simpl.
    case_bool_decide; apply grows_send.
  - unfold createRoom_begin.
    assert (grows (env cl) (initSocket (env cl))) as Hi
      by (apply grows_eq; unfold initSocket; by destruct (socket (env cl))).
    destruct (truthy _); [|done]. destruct (currentRoomId _); [|done].
    eapply grows_trans; [exact Hi|].
    eapply grows_trans; [apply grows_socket_emit|by apply grows_eq].
  - apply grows_eq. unfold disconnectSocket. by destruct (socket (env cl)).
  - destruct (truthy (roomId (ui cl))) eqn:Htruthy.
    + destruct (roomId (ui cl)) as [room|] eqn:Hroom; [|done].
      apply bool_decide_eq_true in Htruthy.
      destruct (decide (trim value = "")) as [Hv|Hv].
      * rewrite (handleInputChange_blank value room) by done. simpl.
        eapply grows_trans; [apply grows_cleared|apply grows_send].
      * rewrite (handleInputChange_typing value room) by done. simpl.
        eapply grows_trans; [apply grows_send|].
        apply grows_eq. by destruct (typingTimeoutRef (ui cl)).
    + rewrite handleInputChange_no_room by done. apply grows_refl.
  - unfold handleSubmit. destruct (roomId (ui cl)) as [room|]; [|apply grows_refl].
    destruct (_ || _ || _); [apply grows_refl|]. simpl.
    unfold clear_typing_timeout, requestAIResponse, sendMessage, sendStoppedTypingIndicator.
    repeat (eapply grows_trans; [|apply grows_send]). apply grows_cleared.
  - unfold onBlur. destruct (roomId (ui cl)) as [room|]; [|apply grows_refl].
    destruct (typingTimeoutRef (ui cl)) as [h|]; [|apply grows_refl].
    destruct (truthy _); [|apply grows_refl]. simpl.
    eapply grows_trans; [|apply grows_send]. by apply grows_eq.
  - apply grows_refl.
  - destruct (emitted_settle_delete controller o (env cl)) as [H|(u & r & H)];
      [by apply grows_eq|by eexists].
  - unfold on_connect. destruct (truthy _); [|apply grows_refl].
    destruct (currentRoomId _); [apply grows_socket_emit|apply grows_refl].
  - apply grows_eq. unfold on_connect_error. destruct (socket (env cl)); [|done].
    by case_bool_decide.
  - by apply grows_eq.
Qed.

Lemma grows_advance (t : Z) (cl : Client) : grows (env cl) (env (advance t cl)).
Proof. unfold advance. simpl. apply emitted_run_due. Qed.

Lemma grows_run (schedule : list (Z * Step)) (cl : Client) :
  grows (env cl) (env (run schedule cl)).
Proof.
  revert cl. induction schedule as [|[t st] schedule IH]; intros cl; [apply grows_refl|].
  simpl. eapply grows_trans; [|apply IH].
  eapply grows_trans; [apply grows_advance|apply grows_step].
Qed.

(** The socket stays unless it is torn down. *)
Lemma socket_step (st : Step) (cl : Client) :
  keeps_socket st = true → socket (env cl) ≠ None → socket (env (step st cl)) ≠ None.
Proof.
  intros Hst Hs. destruct st; try done; cbn [step env].
  - destruct (joinRoom_cases room user (env cl)) as [->|(current & _ & _ & _ & ->)].
    + rewrite socket_actuallyJoinRoom. apply socket_initSocket.
    + simpl. apply socket_send.
  - destruct (deleteUserChat_begin_env userId room (env cl)) as [_ ->]. simpl.
    case_bool_decide; apply socket_send.
  - unfold createRoom_begin. pose proof (socket_initSocket (env cl)) as Hi.
    destruct (truthy _); [|done]. destruct (currentRoomId _); [|done]. simpl.
    by rewrite socket_socket_emit.
  - destruct (truthy (roomId (ui cl))) eqn:Htruthy.
    + destruct (roomId (ui cl)) as [room|] eqn:Hroom; [|done].
      apply bool_decide_eq_true in Htruthy.
      destruct (decide (trim value = "")) as [Hv|Hv].
      * rewrite (handleInputChange_blank value room) by done. simpl. apply socket_send.
      * rewrite (handleInputChange_typing value room) by done. simpl.
        destruct (typingTimeoutRef (ui cl)); simpl; apply socket_send.
    + by rewrite handleInputChange_no_room.
  - unfold handleSubmit. destruct (roomId (ui cl)) as [room|]; [|done].
    destruct (_ || _ || _); [done|]. simpl. apply socket_send.
  - unfold onBlur. destruct (roomId (ui cl)) as [room|]; [|done].
    destruct (typingTimeoutRef (ui cl)) as [h|]; [|done].
    destruct (truthy _); [|done]. simpl. apply socket_send.
  - by rewrite socket_settle_delete.
  - unfold on_connect. destruct (truthy _); [|done].
    destruct (currentRoomId _); [by rewrite socket_socket_emit|done].
  - unfold on_connect_error. destruct (socket (env cl)) eqn:E; [|done].
    case_bool_decide; simpl; congruence.
Qed.

Lemma socket_run_due (fuel : nat) (t : Z) (cl : Client) :
  socket (env cl) ≠ None → socket (env (run_due fuel t cl)) ≠ None.
Proof.
  revert cl. induction fuel as [|fuel IH]; intros cl Hs; simpl; [done|].
  destruct (earliest _) as [tm|]; [|done]. destruct (_ <=? _); [|done].
  by apply IH, socket_fire.
Qed.

Lemma socket_advance (t : Z) (cl : Client) :
  socket (env cl) ≠ None → socket (env (advance t cl)) ≠ None.
Proof. intros Hs. unfold advance. simpl. by apply socket_run_due. Qed.

(** A pending join is cleared by nothing. *)
Lemma join_timer_cleared (tm0 : Timer) (ref : option positive) (e : Env) :
  EnvInv e → TypingInv e ref → is_stop_timer tm0 = false → tm0 ∈ timers e →
  tm0 ∈ timers (match ref with Some h => clearTimeout h e | None => e end).
Proof.
  intros He Ht Hstop Hin. destruct ref as [h|]; [|done]. simpl.
  apply list_elem_of_filter. split; [|done]. intros Hh.
  destruct Ht as (tm' & Htt & Hh').
  assert (tm' ∈ typing_timers e) as Hin' by (rewrite Htt; by left).
  apply list_elem_of_filter in Hin' as [Hstop' Hin'].
  assert (tm0 = tm') as -> by (apply (handle_inj (timers e)); [apply He|done..|congruence]).
  by rewrite Hstop in Hstop'.
Qed.

Lemma join_timer_step (st : Step) (cl : Client) (tm0 : Timer)
    (room : string) (user : option User.t) :
  Inv cl → tm0 ∈ timers (env cl) → task tm0 = task_actuallyJoinRoom room user →
  tm0 ∈ timers (env (step st cl)).
Proof.
  intros [He Ht] Hin Htask.
  assert (is_stop_timer tm0 = false) as Hstop by (unfold is_stop_timer; by rewrite Htask).
  destruct st; cbn [step env].
  - destruct (joinRoom_cases room0 user0 (env cl)) as [->|(current & _ & _ & _ & ->)].
    + rewrite (proj1 (same_timing_trans _ _ _ (same_timing_initSocket _)
                        (same_timing_actuallyJoinRoom room0 user0 _))). done.
    + simpl. rewrite (proj1 (same_timing_send _ _)). apply elem_of_app. by left.
  - destruct (deleteUserChat_begin_env userId room0 (env cl)) as [Hsame ->]. simpl.
    rewrite (proj1 Hsame). apply elem_of_app. by left.
  - by rewrite (proj1 (same_timing_createRoom_begin _)).
  - by rewrite (proj1 (same_timing_disconnectSocket _)).
  - destruct (truthy (roomId (ui cl))) eqn:Htruthy.
    + destruct (roomId (ui cl)) as [room0|] eqn:Hroom; [|done].
      apply bool_decide_eq_true in Htruthy.
      destruct (decide (trim value = "")) as [Hv|Hv].
      * rewrite (handleInputChange_blank value room0) by done. simpl.
        unfold sendStoppedTypingIndicator. rewrite (proj1 (same_timing_send _ _)).
        by apply join_timer_cleared.
      * rewrite (handleInputChange_typing value room0) by done. simpl.
        apply elem_of_app. left.
        apply (join_timer_cleared tm0 (typingTimeoutRef (ui cl))
                 (sendTypingIndicator room0 (env cl))); [| |done|].
        -- eapply EnvInv_same_timing; [apply same_timing_send|done].
        -- eapply TypingInv_same_timing; [apply same_timing_send|done].
        -- unfold sendTypingIndicator. by rewrite (proj1 (same_timing_send _ _)).
    + by rewrite handleInputChange_no_room.
  - unfold handleSubmit. destruct (roomId (ui cl)) as [room0|]; [|done].
    destruct (_ || _ || _); [done|]. simpl.
    unfold clear_typing_timeout, requestAIResponse, sendMessage, sendStoppedTypingIndicator.
    rewrite !(proj1 (same_timing_send _ _)). by apply join_timer_cleared.
  - unfold onBlur. destruct (roomId (ui cl)) as [room0|]; [|done].
    destruct (typingTimeoutRef (ui cl)) as [h|] eqn:Href; [|done].
    destruct (truthy _); [|done]. simpl.
    unfold sendStoppedTypingIndicator. rewrite (proj1 (same_timing_send _ _)).
    by apply (join_timer_cleared tm0 (Some h)).
  - done.
  - destruct (timers_settle_delete controller o (env cl)) as [->|(pd & Hpd & ->)]; [done|].
    apply list_elem_of_filter. split; [|done]. intros Hh.
    destruct (inv_pending _ He pd Hpd) as [_ Habort].
    destruct (Habort tm0 Hin Hh) as [c Hc]. congruence.
  - by rewrite (proj1 (same_timing_on_connect _)).
  - by rewrite (proj1 (same_timing_on_connect_error _)).
  - done.
Qed.

Lemma join_timer_run_due (fuel : nat) (t : Z) (cl : Client) (tm0 : Timer)
    (room : string) (user : option User.t) :
  Inv cl → tm0 ∈ timers (env cl) → task tm0 = task_actuallyJoinRoom room user →
  t < fire_at tm0 → tm0 ∈ timers (env (run_due fuel t cl)).
Proof.
  revert cl. induction fuel as [|fuel IH]; intros cl Hinv Hin Htask Hlate; simpl; [done|].
  destruct (earliest _) as [tm|] eqn:E; [|done].
  destruct (Z.leb_spec (fire_at tm) t) as [Hdue|Hdue]; [|done].
  apply IH; [by apply Inv_fire| |done..].
  apply fire_keeps_timer; [done..| |].
  - intros ->. lia.
  - intros c. by rewrite Htask.
Qed.

(** Once its time has come, a pending join is in the log, stamped with the
    expiry time of its timer, whatever happened meanwhile short of tearing
    the socket down. *)
Lemma pending_join_emitted (schedule : list (Z * Step)) (t : Z) (cl : Client)
    (tm0 : Timer) (room : string) (user : option User.t) :
  Inv cl → tm0 ∈ timers (env cl) → task tm0 = task_actuallyJoinRoom room user →
  socket (env cl) ≠ None →
  (∀ ts st, (ts, st) ∈ schedule → ts < fire_at tm0 → keeps_socket st = true) →
  fire_at tm0 ≤ t →
  ∃ log1 log2,
    emitted (env (advance t (run schedule cl)))
    = emitted (env cl) ++ log1 ++ [(fire_at tm0, join_room room (safeUser user))] ++ log2.
Proof.
  revert cl. induction schedule as [|[ts st] schedule IH];
    intros cl Hinv Hin Htask Hsock Hkeeps Hdue.
  - simpl. by apply (run_due_join (length (timers (env cl))) t cl tm0).
  - change (run ((ts, st) :: schedule) cl) with (run schedule (step st (advance ts cl))).
    destruct (Z.lt_ge_cases ts (fire_at tm0)) as [Hlate|Hpast].
    + set (cl' := step st (advance ts cl)).
      assert (grows (env cl) (env cl')) as [log0 Hlog0]
        by (eapply grows_trans; [apply grows_advance|apply grows_step]).
      destruct (IH cl') as (log1 & log2 & Hlog).
      * by apply Inv_step, Inv_advance.
      * eapply join_timer_step; [by apply Inv_advance| |done].
        unfold advance. simpl. by eapply join_timer_run_due.
      * done.
      * apply socket_step; [|by apply socket_advance].
        apply (Hkeeps ts st); [by left|done].
      * intros ts' st' Hin'. apply Hkeeps. by right.
      * done.
      * exists (log0 ++ log1), log2. rewrite Hlog, Hlog0. by rewrite <- !app_assoc.
    + destruct (run_due_join (length (timers (env cl))) ts cl tm0 room user)
        as (log1 & log2 & Hlog); [done..|].
      assert (grows (env (advance ts cl)) (env (advance t (run schedule (step st (advance ts cl))))))
        as [log3 Hlog3].
      { eapply grows_trans; [apply grows_step|].
        eapply grows_trans; [apply grows_run|apply grows_advance]. }
      exists log1, (log2 ++ log3). rewrite Hlog3.
      change (emitted (env (advance ts cl)))
        with (emitted (env (run_due (length (timers (env cl))) ts cl))).
      rewrite Hlog. by rewrite <- !app_assoc.
Qed.

(** C4, as the code has it. In a state the client reaches, [joinRoom(B)]
    with a remembered room [A] other than [B], [A] not the empty string,
    emits [leave-room(A)] at once and arms a timer of 100 ms. Whatever the
    client does and receives afterwards, as long as no step before the
    expiry of the timer drops the socket ([disconnectSocket], the
    [reconnect_failed] handler), once the 100 ms have passed [join-room(B)]
    is in the log after the leave, stamped 100 ms later. With no other timer
    pending and nothing else happening the log gains exactly the leave and,
    from 100 ms on, the join. With no remembered room (null or the empty
    string), or [B] the remembered room, [join-room(B)] is emitted at once,
    with no leave and no timer. *)
Theorem joinRoom_leave_before_join (cl : Client) (B : string) (user : option User.t) :
  reachable cl →
  let t0 := now (env cl) in
  let cl1 := step (call_joinRoom B user) cl in
  (∀ A, currentRoomId (env cl) = Some A → A ≠ "" → A ≠ B →
     emitted (env cl1) = emitted (env cl) ++ [(t0, leave_room A)]
     ∧ timers (env cl1)
       = timers (env cl)
         ++ [mkTimer (next_handle (env cl)) (t0 + 100) (task_actuallyJoinRoom B user)]
     ∧ (∀ schedule t,
          (∀ ts st, (ts, st) ∈ schedule → ts < t0 + 100 → keeps_socket st = true) →
          t0 + 100 ≤ t →
          ∃ log1 log2,
            emitted (env (advance t (run schedule cl1)))
            = emitted (env cl) ++ [(t0, leave_room A)] ++ log1
              ++ [(t0 + 100, join_room B (safeUser user))] ++ log2)
     ∧ (timers (env cl) = [] →
        ∀ t, emitted (env (advance t cl1))
             = emitted (env cl) ++ (t0, leave_room A)
               :: (if bool_decide (t0 + 100 ≤ t)
                   then [(t0 + 100, join_room B (safeUser user))] else [])))
  ∧ (truthy (currentRoomId (env cl)) = false ∨ currentRoomId (env cl) = Some B →
     emitted (env cl1) = emitted (env cl) ++ [(t0, join_room B (safeUser user))]
     ∧ timers (env cl1) = timers (env cl)).
Proof.
  intros Hinv%reachable_Inv t0 cl1.
  assert (Inv cl1) as Hinv1 by by apply Inv_step.
  split.
  - intros A HA HA1 HAB.
    set (e0 := socket_emit (leave_room A) (initSocket (env cl))).
    assert (env cl1 = (setTimeout (task_actuallyJoinRoom B user) 100 e0).2) as Henv.
    { subst cl1. simpl. by apply joinRoom_switch. }
    destruct (same_timing_send (leave_room A) (env cl)) as (Ht & Hn & Hc & _).
    fold e0 in Ht, Hn, Hc.
    set (tm0 := mkTimer (next_handle (env cl)) (t0 + 100) (task_actuallyJoinRoom B user)).
    assert (emitted (env cl1) = emitted (env cl) ++ [(t0, leave_room A)]) as Hemit.
    { rewrite Henv. simpl. apply emitted_send. }
    assert (timers (env cl1) = timers (env cl) ++ [tm0]) as Htimers.
    { rewrite Henv. simpl. by rewrite Ht, Hn, Hc. }
    assert (socket (env cl1) ≠ None) as Hsock.
    { rewrite Henv. simpl. apply socket_send. }
    split_and!; [done..| |].
    + intros schedule t Hkeeps Ht0.
      destruct (pending_join_emitted schedule t cl1 tm0 B user)
        as (log1 & log2 & Hlog); [done| |done..|].
      { rewrite Htimers. apply elem_of_app. right. by left. }
      exists log1, log2. rewrite Hlog, Hemit. by rewrite <- !app_assoc.
    + intros Hnone t.
      change (emitted (env (advance t cl1)))
        with (emitted (env (run_due (length (timers (env cl1))) t cl1))).
      assert (earliest (timers (env cl1)) = Some tm0) as Hearliest.
      { by rewrite Htimers, Hnone. }
      assert (length (timers (env cl1)) = 1%nat) as -> by by rewrite Htimers, Hnone.
      cbn [run_due]. rewrite Hearliest.
      change (fire_at tm0) with (t0 + 100).
      destruct (Z.leb_spec (t0 + 100) t) as [Hdue|Hdue].
      * rewrite bool_decide_eq_true_2 by done.
        destruct (fire_join tm0 cl1 B user Hinv1 Hearliest eq_refl Hsock) as [-> _].
        rewrite Hemit. by rewrite <- app_assoc.
      * rewrite bool_decide_eq_false_2 by lia. by rewrite Hemit.
  - intros Hc.
    assert (env cl1 = actuallyJoinRoom B user (initSocket (env cl))) as Henv.
    { subst cl1. simpl. by apply joinRoom_direct. }
    rewrite Henv. split.
    + rewrite emitted_actuallyJoinRoom.
      pose proof (socket_initSocket (env cl)) as Hs.
      destruct (socket (initSocket (env cl))); [|done].
      unfold initSocket. by destruct (socket (env cl)).
    + apply (same_timing_trans _ _ _ (same_timing_initSocket _)
               (same_timing_actuallyJoinRoom B user _)).
Qed.

(** A leave and a join, 100 ms apart, and a rejoin of the current room. *)
Lemma joinRoom_leave_before_join_witness :
  let cl := run [(0, call_joinRoom "room-1" None);
                 (40, receive (room_history (RoomData.mk "room-1" [] [] None)))]
                (initial_client (Some "room-1")) in
  let cl1 := step (call_joinRoom "room-2" None) cl in
  reachable cl
  ∧ emitted (env cl1) = [(0, join_room "room-1" None); (40, leave_room "room-1")]
  ∧ (∀ t, emitted (env (advance t cl1))
          = [(0, join_room "room-1" None)]
            ++ (40, leave_room "room-1")
               :: (if bool_decide (140 ≤ t) then [(140, join_room "room-2" None)] else []))
  ∧ emitted (env (step (call_joinRoom "room-1" None) cl))
    = [(0, join_room "room-1" None); (40, join_room "room-1" None)].
Proof.
  intros cl cl1.
  assert (reachable cl) as Hr by (by eexists _, _).
  split; [exact Hr|].
  destruct (joinRoom_leave_before_join cl "room-2" None Hr) as [Hswitch _].
  destruct (Hswitch "room-1") as (Hleave & _ & _ & Hexact);
    [reflexivity|discriminate|discriminate|].
  split; [exact Hleave|]. split; [exact (Hexact eq_refl)|].
  destruct (joinRoom_leave_before_join cl "room-1" None Hr) as [_ Hdirect].
  apply Hdirect. right. reflexivity.
Defined.

(** A reconnection and a keystroke between the leave and the join: the
    handler of [connect] joins the room that is still remembered, and the
    join of the new room comes at its time. *)
Example joinRoom_join_survives_steps :
  let cl := run [(0, call_joinRoom "room-1" None)] (initial_client (Some "room-1")) in
  let cl1 := step (call_joinRoom "room-2" None) (advance 40 cl) in
  emitted (env (advance 200 (run [(60, socket_connect); (90, input_change "h")] cl1)))
  = [(0, join_room "room-1" None); (40, leave_room "room-1");
     (60, join_room "room-1" None); (90, user_typing "room-1");
     (140, join_room "room-2" None)].
Proof. vm_compute. done. Qed.

(** C4 fails as stated: the empty string is a room id as any other for
    [joinRoom], but a remembered room "" counts as no room; joining another
    room from it emits no leave and joins at once. And a join that waits for
    its 100 ms is lost when the socket is torn down meanwhile. *)
Lemma joinRoom_from_empty_id_skips_leave :
  let cl := step (call_joinRoom "" None) (initial_client None) in
  let torn := run [(0, call_joinRoom "room-1" None);
                   (40, call_joinRoom "room-2" None);
                   (90, call_disconnectSocket)] (initial_client (Some "room-1")) in
  currentRoomId (env cl) = Some ""
  ∧ "" ≠ "room-2"
  ∧ emitted (env (advance 1000 (step (call_joinRoom "room-2" None) cl)))
    = [(0, join_room "" None); (0, join_room "room-2" None)]
  ∧ emitted (env (advance 1000 torn))
    = [(0, join_room "room-1" None); (40, leave_room "room-1")].
Proof. split; [reflexivity|]. split; [discriminate|]. vm_compute. done. Qed.

(* ===================================================================== *)
(** * The typing debouncer *)
(* ===================================================================== *)

Lemma stop_events_snoc (log : list (Z * Outbound)) (t : Z) (ev : Outbound) :
  stop_events (log ++ [(t, ev)])
  = stop_events log ++ (if is_stop ev then [(t, ev)] else []).
Proof.
  unfold stop_events. rewrite filter_app. f_equal.
  rewrite filter_cons, filter_nil. simpl. by destruct (is_stop ev).
Qed.

Lemma now_run_task (tk : Task) (cl : Client) : now (env (run_task tk cl)) = now (env cl).
Proof.
  destruct tk as [room user|captured|c]; simpl.
  - apply same_timing_actuallyJoinRoom.
  - apply same_timing_stop_callback.
  - apply now_settle_delete.
Qed.

Lemma now_fire (tm : Timer) (cl : Client) :
  Inv cl → earliest (timers (env cl)) = Some tm → now (env (fire tm cl)) = fire_at tm.
Proof.
  intros [He _] Hearliest.
  destruct (fire_base (env cl) tm He Hearliest) as (_ & Hnow & _).
  unfold fire. by rewrite now_run_task.
Qed.

Lemma now_run_due (fuel : nat) (t : Z) (cl : Client) :
  Inv cl → now (env cl) ≤ t → now (env (run_due fuel t cl)) ≤ t.
Proof.
  revert cl. induction fuel as [|fuel IH]; intros cl Hinv Hnow; simpl; [done|].
  destruct (earliest _) as [tm|] eqn:E; [|done].
  destruct (Z.leb_spec (fire_at tm) t) as [Hdue|Hdue]; [|done].
  apply IH; [by apply Inv_fire|]. by rewrite now_fire.
Qed.

Lemma now_advance (t : Z) (cl : Client) :
  Inv cl → now (env cl) ≤ t → now (env (advance t cl)) = t.
Proof.
  intros Hinv Hnow. unfold advance. simpl.
  pose proof (now_run_due (length (timers (env cl))) t cl Hinv Hnow). lia.
Qed.

(** A timer other than the idle timer expires: the debouncer sees nothing
    of it. *)
Lemma fire_other (tm : Timer) (cl : Client) :
  Inv cl → earliest (timers (env cl)) = Some tm → is_stop_timer tm = false →
  ui (fire tm cl) = ui cl
  ∧ typing_timers (env (fire tm cl)) = typing_timers (env cl)
  ∧ stop_events (emitted (env (fire tm cl))) = stop_events (emitted (env cl)).
Proof.
  intros [He _] Hearliest Hstop.
  destruct (fire_base (env cl) tm He Hearliest) as (He1 & _ & _ & _).
  pose proof (earliest_Some _ _ Hearliest) as [Hin _].
  pose proof (typing_timers_fire_base_other (env cl) tm He Hin Hstop) as Htt.
  unfold fire. unfold is_stop_timer in Hstop.
  destruct (task tm) as [room user|captured|c]; [|done|]; simpl.
  - split_and!; [done| |].
    + by rewrite (typing_timers_same _ _ (proj1 (same_timing_actuallyJoinRoom room user _))).
    + rewrite emitted_actuallyJoinRoom. simpl. destruct (socket (env cl)); [|done].
      by rewrite stop_events_snoc, app_nil_r.
  - split_and!; [done| |].
    + by rewrite typing_timers_settle_delete.
    + destruct (emitted_settle_delete c (Rejected AbortError)
                  (set_now (Z.max (now (env cl)) (fire_at tm))
                     (clearTimeout (handle tm) (env cl))))
        as [->|(u & r & ->)]; [done|].
      by rewrite stop_events_snoc, app_nil_r.
Qed.

(** The idle timer expires: [user-stopped-typing] is emitted at its expiry
    time and the debouncer is idle again. *)
Lemma fire_stop (tm : Timer) (cl : Client) (room : string) :
  Inv cl → earliest (timers (env cl)) = Some tm →
  task tm = task_stopTyping (Some room) → room ≠ "" →
  emitted (env (fire tm cl)) = emitted (env cl) ++ [(fire_at tm, user_stopped_typing room)]
  ∧ typing_timers (env (fire tm cl)) = []
  ∧ typingTimeoutRef (ui (fire tm cl)) = None
  ∧ roomId (ui (fire tm cl)) = roomId (ui cl).
Proof.
  intros [He Ht] Hearliest Htask Hroom.
  destruct (fire_base (env cl) tm He Hearliest) as (He1 & Hnow & _ & _).
  pose proof (earliest_Some _ _ Hearliest) as [Hin _].
  assert (is_stop_timer tm = true) as Hstop by (unfold is_stop_timer; by rewrite Htask).
  destruct (typing_timers_fire_base_stop (env cl) tm _ Ht Hin Hstop) as [_ Htt].
  set (e1 := set_now _ _) in *.
  assert (fire tm cl
          = mkClient (socket_emit (user_stopped_typing room) (initSocket e1))
                     (set_typingTimeoutRef None (ui cl))) as ->.
  { unfold fire. rewrite Htask. fold e1. unfold run_task, stopTyping_callback.
    cbn [env ui truthy]. by rewrite (bool_decide_eq_true_2 _ Hroom). }
  cbn [env ui]. split_and!; [| |done..].
  - rewrite emitted_send. by rewrite Hnow.
  - by rewrite (typing_timers_same _ _ (proj1 (same_timing_send _ _))).
Qed.

Lemma is_stop_timer_typing (e : Env) (tm : Timer) :
  tm ∈ timers e → is_stop_timer tm = true → tm ∈ typing_timers e.
Proof. intros Hin Hstop. apply list_elem_of_filter. by rewrite Hstop. Qed.

(** While no idle timer is due, the debouncer sees nothing of the passing
    of time. *)
Lemma run_due_idle (fuel : nat) (t : Z) (cl : Client) :
  Inv cl → (∀ tm, tm ∈ typing_timers (env cl) → t < fire_at tm) →
  ui (run_due fuel t cl) = ui cl
  ∧ typing_timers (env (run_due fuel t cl)) = typing_timers (env cl)
  ∧ stop_events (emitted (env (run_due fuel t cl))) = stop_events (emitted (env cl)).
Proof.
  revert cl. induction fuel as [|fuel IH]; intros cl Hinv Hlate; simpl; [done|].
  destruct (earliest _) as [tm|] eqn:E; [|done].
  destruct (Z.leb_spec (fire_at tm) t) as [Hdue|Hdue]; [|done].
  pose proof (earliest_Some _ _ E) as [Hin _].
  destruct (is_stop_timer tm) eqn:Hstop.
  - specialize (Hlate tm (is_stop_timer_typing _ _ Hin Hstop)). lia.
  - destruct (fire_other tm cl Hinv E Hstop) as (Hui & Htt & Hev).
    destruct (IH (fire tm cl)) as (Hui' & Htt' & Hev').
    + by apply Inv_fire.
    + by rewrite Htt.
    + by rewrite Hui', Htt', Hev'.
Qed.

(** Once its time has come, the only idle timer expires, once. *)
Lemma run_due_stop (fuel : nat) (t : Z) (cl : Client) (tm : Timer) (room : string) :
  Inv cl → typing_timers (env cl) = [tm] →
  task tm = task_stopTyping (Some room) → room ≠ "" →
  fire_at tm ≤ t → (length (timers (env cl)) ≤ fuel)%nat →
  stop_events (emitted (env (run_due fuel t cl)))
  = stop_events (emitted (env cl)) ++ [(fire_at tm, user_stopped_typing room)]
  ∧ typing_timers (env (run_due fuel t cl)) = []
  ∧ typingTimeoutRef (ui (run_due fuel t cl)) = None
  ∧ roomId (ui (run_due fuel t cl)) = roomId (ui cl).
Proof.
  revert cl. induction fuel as [|fuel IH]; intros cl Hinv Htt Htask Hroom Hdue Hlen.
  - assert (tm ∈ timers (env cl)) as Hin.
    { eapply (list_elem_of_filter (λ tm, is_stop_timer tm)). fold (typing_timers (env cl)).
      rewrite Htt. left. }
    destruct (timers (env cl)); [by apply elem_of_nil in Hin|simpl in Hlen; lia].
  - assert (tm ∈ timers (env cl)) as Hin.
    { eapply (list_elem_of_filter (λ tm, is_stop_timer tm)). fold (typing_timers (env cl)).
      rewrite Htt. left. }
    simpl. destruct (earliest _) as [tm1|] eqn:E;
      [|apply earliest_None in E; rewrite E in Hin; by apply elem_of_nil in Hin].
    pose proof (earliest_Some _ _ E) as [Hin1 Hmin]. specialize (Hmin tm Hin).
    destruct (Z.leb_spec (fire_at tm1) t) as [_|?]; [|lia].
    destruct (is_stop_timer tm1) eqn:Hstop.
    + pose proof (is_stop_timer_typing _ _ Hin1 Hstop) as H1.
      rewrite Htt in H1. apply list_elem_of_singleton in H1 as ->.
      destruct (fire_stop tm cl room Hinv E Htask Hroom) as (Hemit & Hnone & Href & Hrid).
      destruct (run_due_idle fuel t (fire tm cl)) as (Hui & Htt' & Hev).
      * by apply Inv_fire.
      * rewrite Hnone. by intros ? ?%elem_of_nil.
      * rewrite Hui, Htt', Hev, Hemit, stop_events_snoc. done.
    + destruct (fire_other tm1 cl Hinv E Hstop) as (Hui & Htt1 & Hev).
      destruct (IH (fire tm1 cl)) as (Hev' & Htt' & Href & Hrid); [|by rewrite Htt1|done..| |].
      * by apply Inv_fire.
      * pose proof (length_timers_fire tm1 cl Hinv E). lia.
      * by rewrite Hev', Hev, Hrid, Hui.
Qed.

Lemma advance_idle (t : Z) (cl : Client) :
  Inv cl → now (env cl) ≤ t → (∀ tm, tm ∈ typing_timers (env cl) → t < fire_at tm) →
  Inv (advance t cl)
  ∧ ui (advance t cl) = ui cl
  ∧ now (env (advance t cl)) = t
  ∧ typing_timers (env (advance t cl)) = typing_timers (env cl)
  ∧ stop_events (emitted (env (advance t cl))) = stop_events (emitted (env cl)).
Proof.
  intros Hinv Hnow Hlate.
  destruct (run_due_idle (length (timers (env cl))) t cl Hinv Hlate) as (Hui & Htt & Hev).
  split_and!; [by apply Inv_advance|done|by apply now_advance|done..].
Qed.

(** A keystroke with content that is not blank, in a room, while no idle
    timer is due: nothing is stopped, and the only idle timer is the one
    armed now, for 2 seconds from now. *)
Lemma keystroke_arms (cl : Client) (room value : string) (t : Z) :
  Inv cl → roomId (ui cl) = Some room → room ≠ "" → trim value ≠ "" →
  now (env cl) ≤ t → (∀ tm, tm ∈ typing_timers (env cl) → t < fire_at tm) →
  let cl' := step (input_change value) (advance t cl) in
  Inv cl'
  ∧ roomId (ui cl') = Some room
  ∧ now (env cl') = t
  ∧ stop_events (emitted (env cl')) = stop_events (emitted (env cl))
  ∧ ∃ tm, typing_timers (env cl') = [tm]
          ∧ fire_at tm = t + 2000
          ∧ task tm = task_stopTyping (Some room).
Proof.
  intros Hinv Hroom Hne Hv Hnow Hlate cl'.
  destruct (advance_idle t cl Hinv Hnow Hlate) as (Hinva & Hui & Hnowa & Htt & Hev).
  set (cla := advance t cl) in *.
  assert (roomId (ui cla) = Some room) as Hrooma by by rewrite Hui.
  split; [by apply Inv_step|].
  subst cl'. cbn [step]. rewrite (handleInputChange_typing value room) by done.
  set (e := match typingTimeoutRef (ui cla) with
            | Some h => clearTimeout h (sendTypingIndicator room (env cla))
            | None => sendTypingIndicator room (env cla)
            end).
  destruct (same_timing_send (user_typing room) (env cla)) as (Hts & Hns & Hcs & _).
  fold (sendTypingIndicator room (env cla)) in Hts, Hns, Hcs.
  assert (typing_timers e = []) as Hnone.
  { apply typing_timers_cleared. destruct Hinva as [_ Hta].
    eapply TypingInv_same_timing; [apply same_timing_send|done]. }
  assert (now e = t ∧ emitted e = emitted (env cla) ++ [(t, user_typing room)]) as [Hne' Hee].
  { assert (now e = now (sendTypingIndicator room (env cla))
            ∧ emitted e = emitted (sendTypingIndicator room (env cla))) as [-> ->].
    { subst e. by destruct (typingTimeoutRef (ui cla)). }
    rewrite Hcs. split; [done|].
    unfold sendTypingIndicator. by rewrite emitted_send, Hnowa. }
  cbn [env ui]. split_and!.
  - done.
  - simpl. by rewrite Hne'.
  - simpl. by rewrite Hee, stop_events_snoc, app_nil_r.
  - eexists. split; [|split].
    + rewrite typing_timers_setTimeout, Hnone. reflexivity.
    + simpl. by rewrite Hne'.
    + done.
Qed.



(** [handleSubmit] when the submit is accepted. *)
Lemma handleSubmit_accepted (messageId room : string) (cl : Client) :
  roomId (ui cl) = Some room → room ≠ "" →
  trim (inputValue (ui cl)) ≠ "" → isLoading (ui cl) = false →
  handleSubmit messageId cl
  = mkClient
      (requestAIResponse room (inputValue (ui cl))
         (sendMessage room (inputValue (ui cl)) role_user (Some messageId)
            (sendStoppedTypingIndicator room
               match typingTimeoutRef (ui cl) with
               | Some h => clearTimeout h (env cl)
               | None => env cl
               end)))
      (match typingTimeoutRef (ui cl) with
       | Some _ => set_typingTimeoutRef None (setIsLoading true (setInputValue "" (ui cl)))
       | None => setIsLoading true (setInputValue "" (ui cl))
       end).
Proof.
  intros Hroom Hne Hv Hload. unfold handleSubmit, clear_typing_timeout.
  rewrite Hroom, Hload. cbn [truthy].
  rewrite (bool_decide_eq_false_2 (trim (inputValue (ui cl)) = "")) by done.
  by rewrite (bool_decide_eq_true_2 _ Hne).
Qed.





(** The scenario of the specification: typing starts at 0, keystrokes follow
    at 500, 1000 and 1500 ms; the stop is emitted at 3500 ms, not at
    2000. *)
Example typing_scenario :
  let ks := [(0, "h"); (500, "he"); (1000, "hel"); (1500, "hell")] in
  let cl := run (keystrokes ks) (initial_client (Some "room-1")) in
  stop_events (emitted (env (advance 3499 cl))) = []
  ∧ stop_events (emitted (env (advance 3500 cl))) = [(3500, user_stopped_typing "room-1")]
  ∧ stop_events (emitted (env (advance 9000 cl))) = [(3500, user_stopped_typing "room-1")].
Proof. vm_compute. done. Qed.

(** A room change while the idle timer is pending: the new mount starts
    with a null ref and the timer of the earlier mount alive, and its first
    keystroke arms a second idle timer. *)
Example remount_leaves_idle_timer_alive :
  let cl := step (input_change "h") (initial_client (Some "room-1")) in
  let cl' := remount (Some "room-2") cl in
  typingTimeoutRef (ui cl') = None
  ∧ length (typing_timers (env cl')) = 1%nat
  ∧ ¬ Inv cl'
  ∧ length (typing_timers (env (step (input_change "y") (advance 500 cl')))) = 2%nat.
Proof.
  split_and!; [reflexivity|reflexivity| |reflexivity].
  intros [_ Ht]. vm_compute in Ht. discriminate.
Qed.


(* ===================================================================== *)
(** * [socket.ts]: the current-room pointer *)
(* ===================================================================== *)

(** C8, as the code has it. [actuallyJoinRoom] stores the room in
    [currentRoomId] in the same step in which it emits [join-room]. So
    [joinRoom] from no remembered room stores it at once. [joinRoom] from a
    remembered room [A] other than the new room [B] leaves the pointer at
    [A] and arms the timer of 100 ms; the pointer becomes [B] in the step in
    which that timer expires, which is the step that emits [join-room(B)];
    with no other timer pending the pointer is [A] before the 100 ms have
    passed and [B] from then on. A received event, [room-history] included,
    leaves [currentRoomId] as it is. *)
Theorem currentRoomId_set_when_joining :
  (∀ room user s,
     currentRoomId (actuallyJoinRoom room user s) = Some room
     ∧ emitted (actuallyJoinRoom room user s)
       = match socket s with
         | Some _ => emitted s ++ [(now s, join_room room (safeUser user))]
         | None => emitted s
         end)
  ∧ (∀ room user s,
       currentRoomId (joinRoom room user (set_currentRoomId None s)) = Some room)
  ∧ (∀ A B user s,
       currentRoomId s = Some A → A ≠ "" → A ≠ B →
       currentRoomId (joinRoom B user s) = Some A
       ∧ timers (joinRoom B user s)
         = timers s ++ [mkTimer (next_handle s) (now s + 100)
                                (task_actuallyJoinRoom B user)])
  ∧ (∀ tm cl B user,
       task tm = task_actuallyJoinRoom B user →
       currentRoomId (env (fire tm cl)) = Some B
       ∧ (socket (env cl) ≠ None →
          emitted (env (fire tm cl))
          = emitted (env cl)
            ++ [(Z.max (now (env cl)) (fire_at tm), join_room B (safeUser user))]))
  ∧ (∀ A B user cl t,
       timers (env cl) = [] → currentRoomId (env cl) = Some A → A ≠ "" → A ≠ B →
       currentRoomId (env (advance t (step (call_joinRoom B user) cl)))
       = if bool_decide (now (env cl) + 100 ≤ t) then Some B else Some A)
  ∧ (∀ ev cl, currentRoomId (env (step (receive ev) cl)) = currentRoomId (env cl)).
Proof.
  assert (∀ A B user s,
            currentRoomId s = Some A → A ≠ "" → A ≠ B →
            currentRoomId (joinRoom B user s) = Some A
            ∧ timers (joinRoom B user s)
              = timers s ++ [mkTimer (next_handle s) (now s + 100)
                                     (task_actuallyJoinRoom B user)]) as Hswitch.
  { intros A B user s HA HA1 HAB. rewrite (joinRoom_switch B A) by done.
    destruct (same_timing_send (leave_room A) s) as (Ht & Hn & Hc & _).
    split.
    - change (currentRoomId (socket_emit (leave_room A) (initSocket s)) = Some A).
      rewrite <- HA, <- (currentRoomId_initSocket s).
      unfold socket_emit. by destruct (socket (initSocket s)).
    - simpl. by rewrite Ht, Hn, Hc. }
  split_and!.
  - intros room user s.
    split; [apply currentRoomId_actuallyJoinRoom|apply emitted_actuallyJoinRoom].
  - intros room user s. rewrite joinRoom_direct by by left.
    apply currentRoomId_actuallyJoinRoom.
  - exact Hswitch.
  - intros tm cl B user Htask. unfold fire. rewrite Htask. cbn [run_task env].
    split; [apply currentRoomId_actuallyJoinRoom|].
    intros Hs. rewrite emitted_actuallyJoinRoom. simpl. by destruct (socket (env cl)).
  - intros A B user cl t Hnone HA HA1 HAB.
    destruct (Hswitch A B user (env cl) HA HA1 HAB) as [Hptr Htimers].
    rewrite Hnone in Htimers. simpl in Htimers.
    set (cl1 := step (call_joinRoom B user) cl).
    set (tm0 := mkTimer (next_handle (env cl)) (now (env cl) + 100)
                        (task_actuallyJoinRoom B user)) in *.
    change (timers (env cl1) = [tm0]) in Htimers.
    change (currentRoomId (env cl1) = Some A) in Hptr.
    change (currentRoomId (env (advance t cl1)))
      with (currentRoomId (env (run_due (length (timers (env cl1))) t cl1))).
    rewrite Htimers. cbn [length run_due]. rewrite Htimers. cbn [earliest].
    change (fire_at tm0) with (now (env cl) + 100).
    destruct (Z.leb_spec (now (env cl) + 100) t) as [Hdue|Hdue].
    + rewrite bool_decide_eq_true_2 by done.
      unfold fire. cbn [task tm0 run_task env]. apply currentRoomId_actuallyJoinRoom.
    + by rewrite bool_decide_eq_false_2 by lia.
  - done.
Qed.

(** A switch from room-1 to room-2: the pointer moves when the timer
    expires, and the snapshot of room-2 does not move it. *)
Example currentRoomId_moves_with_the_join :
  let cl := run [(0, call_joinRoom "room-1" None)] (initial_client (Some "room-1")) in
  let cl1 := step (call_joinRoom "room-2" None) (advance 40 cl) in
  let snapshot := receive (room_history (RoomData.mk "room-2" [] [] None)) in
  currentRoomId (env cl1) = Some "room-1"
  ∧ currentRoomId (env (step snapshot (advance 139 cl1))) = Some "room-1"
  ∧ currentRoomId (env (advance 140 cl1)) = Some "room-2".
Proof. vm_compute. done. Qed.

(** C8 fails as stated: right after [joinRoom], before any event has been
    received, the pointer is the new room. *)
Lemma currentRoomId_set_before_snapshot :
  let cl := step (call_joinRoom "room-2" None) (initial_client (Some "room-2")) in
  currentRoomId (env cl) = Some "room-2"
  ∧ messages (ui cl) = [] ∧ roomUsers (ui cl) = []
  ∧ emitted (env cl) = [(0, join_room "room-2" None)].
Proof. vm_compute. done. Qed.


(* ===================================================================== *)
(** * More on the event reconciler *)
(* ===================================================================== *)

(** X1. A [new-message] whose id is not listed, received into a list whose
    timestamps are valid dates and with a timestamp that is one, leaves the
    list in ascending order of timestamp whatever order it was in before
    (after placeholders were appended or messages replaced in place, say),
    and loses nothing: the list is a stable rearrangement of the old list
    with the message at its end. *)
Theorem fresh_new_message_sorts_list (message : SocketChatMessage.t) (c : Comp) :
  SocketChatMessage.id message ∉ ids (messages c) →
  Forall valid_time (messages c) →
  in_time_range (SocketChatMessage.timestamp message) →
  let result := messages (on_new_message message c) in
  ascending_by time_of result
  ∧ result ≡ₚ messages c ++ [localize message]
  ∧ time_of (localize message) = SocketChatMessage.timestamp message
  ∧ ∀ a b, before result a b → time_of a = time_of b →
           before (messages c ++ [localize message]) a b.
Proof.
  intros Hfresh Hc Hm result. subst result.
  rewrite messages_on_new_message, new_message_update_fresh by done.
  assert (Forall valid_time (messages c ++ [localize message])) as Hall.
  { apply Forall_app. split; [done|]. by apply Forall_singleton, valid_time_localize. }
  split_and!.
  - rewrite array_sort_by_timestamp by done.
    apply sorted_ascending_by, (array_sort_sorted time_of).
  - apply array_sort_rearranges.
  - by apply time_of_localize.
  - intros a b Hab Ht. by apply array_sort_by_timestamp_before.
Qed.

(** A list out of order, put in order by the next new message. *)
Lemma fresh_new_message_sorts_list_witness :
  let c := reconcile [new_message (sample_message "m1" 300 "late");
                      ai_typing (sample_placeholder "m2" 100)] sample_room in
  let result := messages (on_new_message (sample_message "m3" 200 "hello") c) in
  ids (messages c) = ["m1"; "m2"]
  ∧ ids result = ["m2"; "m3"; "m1"]
  ∧ ascending_by time_of result.
Proof.
  intros c result. split; [reflexivity|]. split; [reflexivity|].
  apply (fresh_new_message_sorts_list (sample_message "m3" 200 "hello") c).
  - change ("m3" ∉ ["m1"; "m2"]). apply (bool_decide_unpack _). vm_compute. exact I.
  - apply (bool_decide_unpack _). vm_compute. exact I.
  - unfold in_time_range, max_time. simpl. lia.
Defined.

Lemma findIndex_snoc_fresh (message : SocketChatMessage.t) (prev : list ChatMessage.t)
    (m : ChatMessage.t) :
  SocketChatMessage.id message ∉ ids prev →
  ChatMessage.id m = SocketChatMessage.id message →
  findIndex (λ x, ChatMessage.id x = SocketChatMessage.id message) (prev ++ [m])
  = Some (length prev).
Proof.
  intros Hfresh Hid. apply findIndex_Some. exists m. split_and!.
  - by apply list_lookup_middle.
  - done.
  - intros j x Hj Hx Hidx. apply Hfresh. unfold ids.
    rewrite lookup_app_l in Hx by done.
    apply list_elem_of_fmap. exists x. split; [done|]. by eapply list_elem_of_lookup_2.
Qed.

(** X2. The placeholder of the assistant, then its answer: an [ai-typing]
    event of an id that is not listed, followed by a [new-message] of the
    same id, leaves the old list with the answer at its end, in the place of
    the placeholder, whatever the timestamps are. *)
Theorem placeholder_swapped_for_answer (placeholder answer : SocketChatMessage.t) (c : Comp) :
  SocketChatMessage.id placeholder = SocketChatMessage.id answer →
  SocketChatMessage.id placeholder ∉ ids (messages c) →
  messages (on_new_message answer (on_ai_typing placeholder c))
  = messages c ++ [localize answer].
Proof.
  intros Hid Hfresh. rewrite messages_on_new_message. simpl.
  unfold new_message_update, ai_typing_update.
  rewrite (findIndex_snoc_fresh answer (messages c) (localize placeholder));
    [|by rewrite <- Hid|done].
  rewrite insert_app_r_alt by done. by rewrite Nat.sub_diag.
Qed.

Lemma placeholder_swapped_for_answer_witness :
  let c := reconcile [new_message (sample_message "m1" 300 "question")] sample_room in
  let placeholder := sample_placeholder "m2" 310 in
  let answer := sample_message "m2" 100 "answer" in
  messages (on_new_message answer (on_ai_typing placeholder c))
  = [localize (sample_message "m1" 300 "question"); localize answer].
Proof.
  intros c placeholder answer.
  apply (placeholder_swapped_for_answer placeholder answer c); [reflexivity|].
  change ("m2" ∉ ["m1"]). apply (bool_decide_unpack _). vm_compute. exact I.
Defined.

(** Messages of distinct ids received after a sorted start are sorted into
    it. *)
Lemma new_messages_fold_from (start events : list SocketChatMessage.t) :
  NoDup (SocketChatMessage.id <$> (start ++ events)) →
  Forall (λ e, in_time_range (SocketChatMessage.timestamp e)) (start ++ events) →
  foldl (λ l e, new_message_update e l) (history_messages start) events
  = history_messages (start ++ events).
Proof.
  induction events as [|e events IH] using rev_ind.
  - by rewrite app_nil_r.
  - rewrite app_assoc, fmap_app, foldl_app. simpl.
    intros [Hnd [Hfresh _]]%NoDup_app Hall.
    apply Forall_app in Hall as [Hr He]. rewrite Forall_singleton in He.
    rewrite IH by done.
    rewrite new_message_update_fresh.
    + unfold history_messages. rewrite !fmap_app. simpl.
      apply array_sort_by_timestamp_snoc;
        [rewrite <- fmap_app; by apply valid_times_localize|by apply valid_time_localize].
    + intros Hin. unfold ids in Hin.
      rewrite history_messages_perm, <- list_fmap_compose in Hin.
      apply (Hfresh _ Hin). simpl. left.
Qed.

(** X3. A snapshot followed by [new-message] events, all ids pairwise
    distinct and all timestamps those of valid dates, leaves the list that a
    snapshot holding all the messages would leave: live messages are merged
    into the history as if they had been part of it. *)
Theorem snapshot_then_new_messages (data : RoomData.t)
    (events : list SocketChatMessage.t) (c : Comp) :
  NoDup (SocketChatMessage.id <$> (RoomData.messages data ++ events)) →
  Forall (λ e, in_time_range (SocketChatMessage.timestamp e))
         (RoomData.messages data ++ events) →
  messages (reconcile (room_history data :: (new_message <$> events)) c)
  = messages (on_room_history
                (RoomData.mk (RoomData.roomId data) (RoomData.messages data ++ events)
                             (RoomData.users data) (RoomData.chatInfo data)) c).
Proof.
  intros Hnd Hr.
  change (reconcile (room_history data :: (new_message <$> events)) c)
    with (reconcile (new_message <$> events) (on_room_history data c)).
  rewrite messages_reconcile_new.
  assert (∀ d, messages (on_room_history d c) = history_messages (RoomData.messages d)) as Hm.
  { intros d. unfold on_room_history. by destruct (RoomData.chatInfo d). }
  rewrite !Hm. simpl. by apply new_messages_fold_from.
Qed.

Lemma snapshot_then_new_messages_witness :
  let data := RoomData.mk "room-1" [sample_message "m1" 300 "c"; sample_message "m2" 100 "a"]
                          [] None in
  let events := [sample_message "m3" 200 "b"; sample_message "m4" 50 "z"] in
  ids (messages (reconcile (room_history data :: (new_message <$> events)) sample_room))
  = ["m4"; "m2"; "m3"; "m1"].
Proof.
  intros data events.
  rewrite (snapshot_then_new_messages data events sample_room); [reflexivity| |].
  - change (NoDup ["m1"; "m2"; "m3"; "m4"]).
    apply (bool_decide_unpack _). vm_compute. exact I.
  - repeat constructor; unfold in_time_range, max_time; simpl; lia.
Defined.


Lemma filter_key_short {A} (key : A → Z) (k : Z) (l : list A) :
  NoDup (key <$> l) → (length (filter (λ x, key x = k) l) ≤ 1)%nat.
Proof.
  induction l as [|x l IH]; [simpl; lia|].
  rewrite fmap_cons. intros [Hx Hnd]%NoDup_cons. rewrite filter_cons.
  case_decide as Hk; [|by apply IH].
  assert (filter (λ x, key x = k) l = []) as ->; [|simpl; lia].
  apply elem_of_nil_inv. intros y [Hy Hin]%list_elem_of_filter.
  apply Hx. rewrite Hk, <- Hy. by apply list_elem_of_fmap_2.
Qed.

Lemma perm_short_eq {A} (l1 l2 : list A) :
  l1 ≡ₚ l2 → (length l1 ≤ 1)%nat → l1 = l2.
Proof.
  intros Hp Hlen. destruct l1 as [|x [|y l1]]; [| |simpl in Hlen; lia].
  - by apply Permutation_nil_l in Hp.
  - by apply Permutation_singleton_l in Hp.
Qed.

(** Lists of pairwise distinct keys that are rearrangements of each other
    sort to the same list. *)
Lemma array_sort_perm_eq {A} (key : A → Z) (l1 l2 : list A) :
  l1 ≡ₚ l2 → NoDup (key <$> l1) →
  array_sort (λ a b, key a - key b) l1 = array_sort (λ a b, key a - key b) l2.
Proof.
  intros Hp Hnd. apply (stable_ascending_unique key); [apply array_sort_sorted..|].
  intros k. rewrite !array_sort_stable. apply perm_short_eq.
  - by rewrite Hp.
  - by apply filter_key_short.
Qed.

(** X4. The order of arrival does not matter when timestamps tell the
    messages apart: two sequences of [new-message] events that hold the same
    messages, of pairwise distinct ids and pairwise distinct timestamps that
    are those of valid dates, leave the same list. *)
Theorem arrival_order_irrelevant (events1 events2 : list SocketChatMessage.t) (c : Comp) :
  messages c = [] →
  events1 ≡ₚ events2 →
  NoDup (SocketChatMessage.id <$> events1) →
  NoDup (SocketChatMessage.timestamp <$> events1) →
  Forall (λ e, in_time_range (SocketChatMessage.timestamp e)) events1 →
  messages (reconcile (new_message <$> events1) c)
  = messages (reconcile (new_message <$> events2) c).
Proof.
  intros Hempty Hp Hids Hts Hr.
  assert (Forall (λ e, in_time_range (SocketChatMessage.timestamp e)) events2) as Hr2
    by by rewrite <- Hp.
  rewrite !messages_reconcile_new, Hempty.
  rewrite !new_messages_fold; [|by rewrite <- Hp|done..].
  rewrite !array_sort_by_timestamp by by apply valid_times_localize.
  apply (array_sort_perm_eq time_of); [by rewrite Hp|].
  rewrite <- list_fmap_compose.
  replace ((time_of ∘ localize) <$> events1)
    with (SocketChatMessage.timestamp <$> events1); [done|].
  apply Forall_fmap_ext. eapply Forall_impl; [exact Hr|].
  intros e He. simpl. by rewrite time_of_localize.
Qed.

Lemma arrival_order_irrelevant_witness :
  let a := sample_message "m1" 100 "a" in
  let b := sample_message "m2" 200 "b" in
  let d := sample_message "m3" 300 "d" in
  messages (reconcile (new_message <$> [d; a; b]) sample_room)
  = messages (reconcile (new_message <$> [b; d; a]) sample_room).
Proof.
  intros a b d.
  apply (arrival_order_irrelevant [d; a; b] [b; d; a] sample_room).
  - reflexivity.
  - etrans; [apply perm_skip, Permutation_swap|apply Permutation_swap].
  - change (NoDup ["m3"; "m1"; "m2"]). apply (bool_decide_unpack _). vm_compute. exact I.
  - change (NoDup [300; 100; 200]). apply (bool_decide_unpack _). vm_compute. exact I.
  - repeat constructor; unfold in_time_range, max_time; simpl; lia.
Defined.

(* ===================================================================== *)
(** * More on the presence tracker *)
(* ===================================================================== *)

Lemma uniqueUsers_snoc (users : list RoomUser.t) (u : RoomUser.t) :
  uniqueUsers (users ++ [u])
  = if bool_decide (RoomUser.id u ∈ user_ids (uniqueUsers users))
    then uniqueUsers users else uniqueUsers users ++ [u].
Proof.
  unfold uniqueUsers at 1. rewrite foldl_app. simpl. fold (uniqueUsers users).
  unfold some.
  assert (bool_decide (Exists (λ x, RoomUser.id x = RoomUser.id u) (uniqueUsers users))
          = bool_decide (RoomUser.id u ∈ user_ids (uniqueUsers users))) as ->; [|done].
  apply bool_decide_ext.
  unfold user_ids. rewrite Exists_exists, list_elem_of_fmap.
  split; intros (x & ? & ?); by exists x.
Qed.

(** X5. The presence list keeps, of the users listed with one id, the one
    listed first, and keeps the users in the order in which they are listed;
    a list without repeated ids is kept as it is, so deduplicating again, as
    [UserList] does, changes nothing. *)
Theorem uniqueUsers_keeps_first (users : list RoomUser.t) :
  uniqueUsers users `sublist_of` users
  ∧ (∀ u, u ∈ uniqueUsers users →
          ∃ i, users !! i = Some u
               ∧ ∀ j v, (j < i)%nat → users !! j = Some v → RoomUser.id v ≠ RoomUser.id u)
  ∧ (NoDup (user_ids users) → uniqueUsers users = users)
  ∧ uniqueUsers (uniqueUsers users) = uniqueUsers users.
Proof.
  assert (∀ l, NoDup (user_ids l) → uniqueUsers l = l) as Hid.
  { induction l as [|u l IH] using rev_ind; [done|].
    unfold user_ids. rewrite fmap_app. intros [Hnd [Hfresh _]]%NoDup_app.
    rewrite uniqueUsers_snoc, IH by done.
    rewrite bool_decide_eq_false_2; [done|].
    intros Hin. apply (Hfresh _ Hin). simpl. left. }
  split_and!.
  - induction users as [|u users IH] using rev_ind; [done|].
    rewrite uniqueUsers_snoc. case_bool_decide.
    + by apply sublist_inserts_r.
    + by apply sublist_app.
  - induction users as [|x users IH] using rev_ind; [by intros u ?%elem_of_nil|].
    intros u. rewrite uniqueUsers_snoc.
    assert (u ∈ uniqueUsers users →
            ∃ i, (users ++ [x]) !! i = Some u
                 ∧ ∀ j v, (j < i)%nat → (users ++ [x]) !! j = Some v →
                          RoomUser.id v ≠ RoomUser.id u) as Hold.
    { intros (i & Hi & Hfirst)%IH. exists i.
      pose proof (lookup_lt_Some _ _ _ Hi) as Hlt.
      split; [by rewrite lookup_app_l|].
      intros j v Hj Hv. rewrite lookup_app_l in Hv by lia. by eapply Hfirst. }
    case_bool_decide as Hseen; [done|].
    intros [Hu| ->%list_elem_of_singleton]%elem_of_app; [by apply Hold|].
    exists (length users). split; [by apply list_lookup_middle|].
    intros j v Hj Hv Hidv. rewrite lookup_app_l in Hv by done.
    apply Hseen, uniqueUsers_ids. rewrite <- Hidv.
    apply list_elem_of_fmap_2. by eapply list_elem_of_lookup_2.
  - apply Hid.
  - apply Hid, uniqueUsers_NoDup.
Qed.

(** Two connections of Ada with different photos: the first one is shown. *)
Example uniqueUsers_first_connection :
  let ada1 := RoomUser.mk "u1" "Ada" (Some "https://lh3.googleusercontent.com/a") (Some "s1") None in
  let ada2 := RoomUser.mk "u1" "Ada L." None (Some "s2") None in
  let bob := sample_user "u2" "Bob" in
  uniqueUsers [ada1; bob; ada2] = [ada1; bob].
Proof. reflexivity. Qed.


(* ===================================================================== *)
(** * More on the handlers of [ChatRoom.tsx] *)
(* ===================================================================== *)

Lemma isLoading_on_inbound (ev : Inbound) (c : Comp) :
  isLoading (on_inbound ev c) = isLoading c && negb (is_answer ev).
Proof.
  destruct ev as [data|message|message|data|user users|u s users]; simpl;
    rewrite ?andb_true_r; try done.
  - unfold on_room_history. by destruct (RoomData.chatInfo data).
  - unfold on_new_message. destruct (SocketChatMessage.role message); simpl.
    + by rewrite andb_true_r.
    + by rewrite andb_false_r.
Qed.

(** X6. The loading state that a submit sets is cleared by the answer of the
    assistant and by nothing else that is received: after any sequence of
    received events the component is loading exactly when it was loading
    before and no [new-message] of role [assistant] is among them; an
    [ai-typing] placeholder, a message of a user or a snapshot do not clear
    it. *)
Theorem loading_until_answer (events : list Inbound) (c : Comp) :
  isLoading (reconcile events c) = isLoading c && negb (existsb is_answer events).
Proof.
  revert c. induction events as [|ev events IH]; intros c.
  - simpl. by rewrite andb_true_r.
  - change (reconcile (ev :: events) c) with (reconcile events (on_inbound ev c)).
    rewrite IH, isLoading_on_inbound. simpl.
    rewrite negb_orb. by rewrite andb_assoc.
Qed.

(** The placeholder does not stop the spinner, the answer does. *)
Example loading_over_placeholder :
  let c := setIsLoading true sample_room in
  isLoading (reconcile [new_message (sample_message "m1" 10 "hi");
                        ai_typing (sample_placeholder "m2" 20)] c) = true
  ∧ isLoading (reconcile [ai_typing (sample_placeholder "m2" 20);
                          new_message (sample_placeholder "m2" 30)] c) = false.
Proof. split; reflexivity. Qed.

(** X7. A [typing-indicator] event of a user who is typing puts the user in
    the typing map under the name the event carries. The photo of the entry
    is looked up in [effect_roomUsers], the value of [roomUsers] that the
    handler closed over when the effect registered it, and not in the
    presence list as it is when the event arrives: it is the photo of the
    first user of that id in that captured list (none when there is no such
    user or no photo). An event of a user who stopped removes the user; no
    other entry changes either way. So start followed by stop gives back the
    map of a user who was not typing. *)
Theorem typing_indicator_updates_entry (data : TypingIndicator.t) (c : Comp) :
  let uid := TypingIndicator.userId data in
  let m' := typingUsers (on_typing_indicator data c) in
  m' !! uid
  = (if TypingIndicator.isTyping data
     then Some (TypingInfo.mk (TypingIndicator.userName data)
                  (photo_or_null
                     (snd <$> list_find (λ u, RoomUser.id u = uid) (effect_roomUsers c))))
     else None)
  ∧ (∀ other, other ≠ uid → m' !! other = typingUsers c !! other)
  ∧ (typingUsers c !! uid = None →
     ∀ name,
       typingUsers (on_typing_indicator (TypingIndicator.mk uid name false)
                      (on_typing_indicator data c))
       = typingUsers c).
Proof.
  intros uid m'. subst m'. unfold on_typing_indicator. simpl. split_and!.
  - destruct (TypingIndicator.isTyping data).
    + apply lookup_insert_eq.
    + apply lookup_delete_eq.
  - intros other Hne. destruct (TypingIndicator.isTyping data).
    + by apply lookup_insert_ne.
    + by apply lookup_delete_ne.
  - intros Hnone name. fold uid. destruct (TypingIndicator.isTyping data).
    + rewrite delete_insert_eq. by apply delete_id.
    + rewrite !delete_id; try done. by rewrite lookup_delete_eq.
Qed.

(** Ada is in the snapshot with her photo; the handler, registered before
    the snapshot arrived, still reads the empty list, and her typing entry
    has no photo. *)
Example typing_entry_reads_captured_users :
  let ada := RoomUser.mk "ada" "Ada" (Some "https://firebasestorage.googleapis.com/ada.png")
                         None None in
  let c := reconcile [room_history (RoomData.mk "room-1" [] [ada] None);
                      typing_indicator (TypingIndicator.mk "ada" "Ada" true)]
             sample_room in
  roomUsers c = [ada]
  ∧ effect_roomUsers c = []
  ∧ typingUsers c !! "ada" = Some (TypingInfo.mk "Ada" None).
Proof. vm_compute. done. Qed.

Lemma visible_typing_listed (uid : option string) (msgs : list ChatMessage.t)
    (m : gmap string TypingInfo.t) :
  msgs ≠ [] → visible_typing uid msgs m = filter (λ kv, Some kv.1 ≠ uid) m.
Proof.
  intros Hne. unfold visible_typing.
  rewrite bool_decide_eq_false_2 by (by destruct msgs).
  case_bool_decide as Hsize; [done|].
  assert (m = ∅) as -> by (apply map_size_empty_iff; lia).
  by rewrite map_filter_empty.
Qed.

Lemma visible_typing_delete (uid : string) (msgs : list ChatMessage.t)
    (m : gmap string TypingInfo.t) :
  msgs ≠ [] → visible_typing (Some uid) msgs m = delete uid m.
Proof.
  intros Hne. rewrite visible_typing_listed by done.
  apply map_eq. intros k. destruct (decide (k = uid)) as [->|Hk].
  - rewrite lookup_delete_eq. apply map_lookup_filter_None. right.
    intros x _ Hx. by apply Hx.
  - rewrite lookup_delete_ne by done.
    destruct (m !! k) as [x|] eqn:E.
    + apply map_lookup_filter_Some. split; [done|]. simpl. congruence.
    + apply map_lookup_filter_None. by left.
Qed.

(** X8. With no message listed no typing row is rendered. With a message
    listed, the typing rows rendered are the typing map without the entry of
    the signed-in user, and the whole map when nobody is signed in. So a
    [typing-indicator] event about the signed-in user, typing or not, never
    changes what is rendered. *)
Theorem own_typing_hidden (uid : string) (msgs : list ChatMessage.t)
    (m : gmap string TypingInfo.t) :
  (∀ who, visible_typing who [] m = ∅)
  ∧ (msgs ≠ [] →
     visible_typing (Some uid) msgs m = delete uid m
     ∧ visible_typing None msgs m = m)
  ∧ ∀ data c,
      TypingIndicator.userId data = uid →
      visible_typing (Some uid) (messages (on_typing_indicator data c))
                     (typingUsers (on_typing_indicator data c))
      = visible_typing (Some uid) (messages c) (typingUsers c).
Proof.
  split_and!.
  - done.
  - intros Hne. split; [by apply visible_typing_delete|].
    rewrite visible_typing_listed by done. apply map_filter_id. intros k x _. done.
  - intros data c <-.
    change (messages (on_typing_indicator data c)) with (messages c).
    destruct (messages c) as [|m0 msgs0] eqn:Hm; [done|].
    rewrite !visible_typing_delete by done.
    unfold on_typing_indicator. simpl.
    destruct (TypingIndicator.isTyping data).
    + by rewrite delete_insert_eq.
    + by rewrite delete_delete_eq.
Qed.

(** Bob is typing: his row shows once a message is listed, and only to
    others. *)
Example typing_row_needs_a_message :
  let m : gmap string TypingInfo.t := {[ "bob" := TypingInfo.mk "Bob" None ]} in
  let msgs := [localize (sample_message "m1" 10 "hi")] in
  visible_typing (Some "ada") [] m = ∅
  ∧ visible_typing (Some "ada") msgs m = m
  ∧ visible_typing (Some "bob") msgs m = ∅.
Proof. vm_compute. done. Qed.

Lemma length_substring_0 (n : nat) (s : string) :
  String.length (String.substring 0 n s) = (n `min` String.length s)%nat.
Proof.
  revert n. induction s as [|a s IH]; intros [|n]; simpl; try done.
  by rewrite IH.
Qed.

Lemma length_append (s1 s2 : string) :
  String.length (s1 +:+ s2) = (String.length s1 + String.length s2)%nat.
Proof. induction s1 as [|a s1 IH]; simpl; [done|]. by rewrite IH. Qed.

Lemma substring_0_all (n : nat) (s : string) :
  (String.length s ≤ n)%nat → String.substring 0 n s = s.
Proof.
  revert n. induction s as [|a s IH]; intros [|n] Hle; simpl in *; try done; try lia.
  rewrite IH; [done|lia].
Qed.

(** X9. The title effect acts only while the title is the default one and
    a user message is listed: it then sets the title, and nothing else, to
    the content of the first user message of the list, whole when it has at
    most 30 characters, else its first 30 characters followed by three dots,
    so a title it sets has at most 33 characters. In every other state it
    changes nothing, and running it again changes nothing. *)
Theorem title_from_first_user_message (c : Comp) :
  let c' := generate_title c in
  let first_user := list_find (λ msg, ChatMessage.role msg = role_user) (messages c) in
  (ChatInfo.title (chatInfo c) ≠ default_title → c' = c)
  ∧ (first_user = None → c' = c)
  ∧ (∀ i m,
       ChatInfo.title (chatInfo c) = default_title → first_user = Some (i, m) →
       ∃ title,
         c' = setChatInfo (ChatInfo.mk title (ChatInfo.description (chatInfo c))
                                       (ChatInfo.createdAt (chatInfo c))) c
         ∧ (String.length title ≤ 33)%nat
         ∧ ((String.length (ChatMessage.content m) ≤ 30)%nat →
            title = ChatMessage.content m)
         ∧ ((30 < String.length (ChatMessage.content m))%nat →
            title = String.substring 0 30 (ChatMessage.content m) +:+ "..."))
  ∧ generate_title c' = c'.
Proof.
  intros c' first_user. subst c' first_user. unfold generate_title.
  destruct (bool_decide (ChatInfo.title (chatInfo c) ≠ default_title)) eqn:Ht; simpl.
  { rewrite Ht. simpl. apply bool_decide_eq_true in Ht.
    split_and!; [done|done| |done]. intros i m Hd. by destruct Ht. }
  apply bool_decide_eq_false in Ht.
  assert (ChatInfo.title (chatInfo c) = default_title) as Hd
    by (destruct (decide (ChatInfo.title (chatInfo c) = default_title)); [done|by destruct Ht]).
  destruct (bool_decide (length (messages c) = 0%nat)) eqn:Hl; simpl.
  { rewrite (bool_decide_eq_false_2 _ Ht), Hl. simpl.
    apply bool_decide_eq_true in Hl. apply nil_length_inv in Hl. rewrite Hl.
    split_and!; [done|done| |done]. intros i m _ Hf. done. }
  destruct (list_find _ (messages c)) as [[i m]|] eqn:Hf.
  2:{ rewrite (bool_decide_eq_false_2 _ Ht), Hl, Hf. simpl.
      split_and!; [done|done| |done]. intros i m _ Hf'. done. }
  split_and!.
  - intros Hne. by destruct Ht.
  - done.
  - intros i' m' _ [= <- <-]. eexists. split; [reflexivity|].
    destruct (bool_decide (30 < String.length (ChatMessage.content m))%nat) eqn:Hlen.
    + apply bool_decide_eq_true in Hlen. split_and!.
      * rewrite length_append, length_substring_0.
        change (String.length "...") with 3%nat. lia.
      * lia.
      * done.
    + apply bool_decide_eq_false in Hlen. split_and!.
      * rewrite length_substring_0. lia.
      * intros _. apply substring_0_all. lia.
      * lia.
  - simpl. rewrite Hl, Hf. simpl.
    destruct (bool_decide (_ ≠ default_title)); simpl; done.
Qed.

(** A long first question is cut at 30 characters. *)
Example title_of_long_question :
  let c := setMessages (λ _, [localize (sample_message "m1" 10
                                "How do I prove a theorem about sorting?")])
             sample_room in
  ChatInfo.title (chatInfo (generate_title c)) = "How do I prove a theorem about...".
Proof. reflexivity. Qed.

(** [handleSubmit] when the guard returns early. *)
Lemma handleSubmit_rejected (messageId : string) (cl : Client) :
  trim (inputValue (ui cl)) = "" ∨ isLoading (ui cl) = true ∨ ¬ truthy (roomId (ui cl)) →
  handleSubmit messageId cl = cl.
Proof.
  intros Hg. unfold handleSubmit.
  destruct (roomId (ui cl)) as [room|] eqn:Hroom; [|done].
  destruct Hg as [Hb|[Hl|Hr]].
  - by rewrite (bool_decide_eq_true_2 _ Hb).
  - rewrite Hl. by rewrite orb_true_r.
  - apply Is_true_false_1 in Hr. rewrite Hr. simpl. by rewrite !orb_true_r.
Qed.

Lemma now_send (ev : Outbound) (e : Env) : now (socket_emit ev (initSocket e)) = now e.
Proof.
  unfold socket_emit, initSocket. destruct (socket e) eqn:E; simpl; by rewrite ?E.
Qed.

(** X10. [handleSubmit] with an input that is not blank, in a room and
    while no answer is awaited, emits [user-stopped-typing], then
    [send-message] with the input, the role [user] and the id made for it,
    then [request-ai-response] with the input; it clears the input, sets the
    loading flag and forgets the idle timer. It never touches the message
    list: the message shows only when the server sends it back. With a
    blank input, while an answer is awaited or without a room it changes
    nothing at all, and a second submit right after a first one changes
    nothing, so a double click sends one message. *)
Theorem handleSubmit_sends_once (messageId messageId' : string) (cl : Client) :
  messages (ui (handleSubmit messageId cl)) = messages (ui cl)
  ∧ (trim (inputValue (ui cl)) = "" ∨ isLoading (ui cl) = true
     ∨ ¬ truthy (roomId (ui cl)) → handleSubmit messageId cl = cl)
  ∧ (∀ room,
       roomId (ui cl) = Some room → room ≠ "" →
       trim (inputValue (ui cl)) ≠ "" → isLoading (ui cl) = false →
       let cl' := handleSubmit messageId cl in
       emitted (env cl')
       = emitted (env cl)
         ++ [(now (env cl), user_stopped_typing room);
             (now (env cl),
              send_message room (Some messageId) (inputValue (ui cl)) role_user);
             (now (env cl), request_ai_response room (inputValue (ui cl)))]
       ∧ inputValue (ui cl') = ""
       ∧ isLoading (ui cl') = true
       ∧ typingTimeoutRef (ui cl') = None
       ∧ emitted (env (handleSubmit messageId' cl')) = emitted (env cl'))
  ∧ handleSubmit messageId' (handleSubmit messageId cl) = handleSubmit messageId cl.
Proof.
  assert (∀ room, roomId (ui cl) = Some room → room ≠ "" →
            trim (inputValue (ui cl)) ≠ "" → isLoading (ui cl) = false →
            handleSubmit messageId' (handleSubmit messageId cl)
            = handleSubmit messageId cl) as Hagain.
  { intros room Hroom Hne Hv Hload.
    apply handleSubmit_rejected. right. left.
    rewrite (handleSubmit_accepted messageId room cl Hroom Hne Hv Hload).
    by destruct (typingTimeoutRef (ui cl)). }
  destruct (decide (trim (inputValue (ui cl)) = "" ∨ isLoading (ui cl) = true
                    ∨ ¬ truthy (roomId (ui cl)))) as [Hg|Hg].
  { rewrite !(handleSubmit_rejected _ cl Hg). split_and!; [done|done| |done].
    intros room Hroom Hne Hv Hload. exfalso.
    destruct Hg as [Hb|[Hl|Hr]]; [done|congruence|].
    apply Hr. rewrite Hroom. unfold truthy. by apply bool_decide_pack. }
  assert (∃ room, roomId (ui cl) = Some room ∧ room ≠ ""
                  ∧ trim (inputValue (ui cl)) ≠ "" ∧ isLoading (ui cl) = false)
    as (room & Hroom & Hne & Hv & Hload).
  { destruct (roomId (ui cl)) as [room|] eqn:Hroom;
      [|destruct Hg; right; right; simpl; tauto].
    exists room. split_and!; [done| | |].
    - intros ->. apply Hg. right. right. unfold truthy. intros Hc.
      apply bool_decide_unpack in Hc. by apply Hc.
    - intros ?. apply Hg. by left.
    - destruct (isLoading (ui cl)); [destruct Hg; right; by left|done]. }
  split_and!.
  - rewrite (handleSubmit_accepted messageId room cl Hroom Hne Hv Hload).
    by destruct (typingTimeoutRef (ui cl)).
  - apply handleSubmit_rejected.
  - intros room' Hroom' _ _ _ cl'. subst cl'.
    rewrite (Hagain room Hroom Hne Hv Hload).
    assert (room' = room) as -> by congruence.
    rewrite (handleSubmit_accepted messageId room cl Hroom Hne Hv Hload).
    cbn [env ui].
    unfold requestAIResponse, sendMessage, sendStoppedTypingIndicator.
    rewrite !emitted_send, !now_send.
    destruct (typingTimeoutRef (ui cl)) as [h|] eqn:Href;
      split_and!; try done; by rewrite <- ?app_assoc.
  - by apply (Hagain room).
Qed.

(** A submit in a room, then a second click. *)
Example double_submit_sends_one_message :
  let cl := step (input_change "hello") (initial_client (Some "room-1")) in
  let cl' := handleSubmit "id-1" cl in
  emitted (env cl')
  = emitted (env cl)
    ++ [(0, user_stopped_typing "room-1");
        (0, send_message "room-1" (Some "id-1") "hello" role_user);
        (0, request_ai_response "room-1" "hello")]
  ∧ handleSubmit "id-2" cl' = cl'.
Proof. vm_compute. done. Qed.


(* ===================================================================== *)
(** * More on [socket.ts] *)
(* ===================================================================== *)

(** X11. [createRoom] leaves the remembered room before it asks for a new
    one: it emits one [leave-room] for a remembered room (none when no room
    is remembered, or the empty string), on a socket it creates if need be,
    and forgets the room, so that a reconnection while the request is in
    flight joins nothing. *)
Theorem createRoom_leaves_remembered_room (s : Env) :
  let s' := createRoom_begin s in
  truthy (currentRoomId s') = false
  ∧ socket s' ≠ None
  ∧ emitted s'
    = emitted s ++ match currentRoomId s with
                   | Some current =>
                       if bool_decide (current ≠ "") then [(now s, leave_room current)] else []
                   | None => []
                   end
  ∧ emitted (on_connect s') = emitted s'.
Proof.
  intros s'. subst s'. unfold createRoom_begin.
  rewrite currentRoomId_initSocket.
  assert (∀ s0, truthy (currentRoomId s0) = false → emitted (on_connect s0) = emitted s0)
    as Hquiet by (intros s0 H0; unfold on_connect; by rewrite H0).
  destruct (currentRoomId s) as [current|] eqn:Hc; cbn [truthy].
  - case_bool_decide as Hne.
    + split_and!.
      * done.
      * change (socket (socket_emit (leave_room current) (initSocket s)) ≠ None).
        apply socket_send.
      * change (emitted (socket_emit (leave_room current) (initSocket s))
                = emitted s ++ [(now s, leave_room current)]).
        apply emitted_send.
      * by apply Hquiet.
    + assert (truthy (currentRoomId (initSocket s)) = false) as Hf.
      { rewrite currentRoomId_initSocket, Hc. cbn [truthy]. by subst. }
      split_and!; [done|apply socket_initSocket| |by apply Hquiet].
      rewrite app_nil_r. unfold initSocket. by destruct (socket s).
  - assert (truthy (currentRoomId (initSocket s)) = false) as Hf
      by (by rewrite currentRoomId_initSocket, Hc).
    split_and!; [done|apply socket_initSocket| |by apply Hquiet].
    rewrite app_nil_r. unfold initSocket. by destruct (socket s).
Qed.

(** X12. Once the request of [createRoom] has settled, the call touches
    nothing of the module state, and it throws exactly when the request is
    rejected, the response is not OK, the body is not JSON or the body is
    [null]; it throws the reason of the rejection, and the HTTP status of a
    response that is not OK. Otherwise it returns the [roomId] property of
    the body, which is [undefined] when the body has none. *)
Theorem createRoom_failure_propagates (o : FetchOutcome) (s : Env) :
  (createRoom_resume o s).2 = s
  ∧ (∀ reason, o = Rejected reason → (createRoom_resume o s).1 = Throw reason)
  ∧ (∀ r, o = Fulfilled r → ok r = false →
       (createRoom_resume o s).1 = Throw (HttpError (status r)))
  ∧ ((∃ e, (createRoom_resume o s).1 = Throw e)
     ↔ (∃ reason, o = Rejected reason)
       ∨ ∃ r, o = Fulfilled r ∧ (ok r = false ∨ json r = None ∨ json r = Some JNull))
  ∧ (∀ r fields, o = Fulfilled r → ok r = true → json r = Some (JObject fields) →
       (createRoom_resume o s).1 = Normal (own_property fields "roomId")).
Proof.
  unfold createRoom_resume, fetchWithCORS, try_catch, eff_bind, await_fetch,
    response_json, get_property, throw, eff_ret.
  destruct o as [r|reason]; simpl.
  2:{ split_and!; try (intros; simplify_eq; congruence).
      split; [intros _; left; by eexists|intros _; by eexists]. }
  destruct (ok r) eqn:Hok; simpl.
  2:{ split_and!; try (intros; simplify_eq; congruence).
      split; [intros _; right; exists r; auto|intros _; by eexists]. }
  destruct (json r) as [j|] eqn:Hj; simpl.
  2:{ split_and!; try (intros; simplify_eq; congruence).
      split; [intros _; right; exists r; auto|intros _; by eexists]. }
  destruct j; simpl; split_and!; try (intros; simplify_eq; congruence).
  all: try (split; [intros [? ?]; congruence|]).
  all: try (intros [[? ?]|(r' & ? & [?|[?|?]])]; simplify_eq; congruence).
  split; [intros _; right; exists r; auto|intros _; by eexists].
Qed.

(** X13. [testConnection] never throws and touches nothing of the module
    state. It reports success exactly when the request is fulfilled with a
    body that is JSON and not [null], whatever the HTTP status; a failure
    carries the reason. *)
Theorem testConnection_never_throws (o : FetchOutcome) (s : Env) :
  ∃ result,
    testConnection o s = (Normal result, s)
    ∧ (success result = true
       ↔ ∃ r j, o = Fulfilled r ∧ json r = Some j ∧ j ≠ JNull)
    ∧ (success result = false → ∃ reason, message result = failed_to_connect reason)
    ∧ (∀ reason, o = Rejected reason → message result = failed_to_connect reason).
Proof.
  unfold testConnection, try_catch, eff_bind, await_fetch, response_json,
    get_property, throw, eff_ret.
  destruct o as [r|reason]; simpl.
  2:{ eexists. split; [done|]. simpl. split_and!.
      - split; [done|]. by intros (? & ? & ? & _).
      - by eexists.
      - by intros ? [= ->]. }
  destruct (json r) as [j|] eqn:Hj; simpl.
  2:{ eexists. split; [done|]. simpl. split_and!; [|by eexists|done].
      split; [done|]. intros (? & ? & [= <-] & ? & _). congruence. }
  destruct j; simpl; (eexists; split; [done|]); simpl;
    (split_and!; [|try done; by eexists|done]);
    try (split; [intros _; exists r; eexists; by split_and!|done]).
  split; [done|]. intros (? & ? & [= <-] & ? & ?). congruence.
Qed.

(** A 500 response with a JSON body is reported as a success. *)
Example testConnection_server_error (s : Env) :
  testConnection
    (Fulfilled (mkResponse false 500 (Some "{}") (Some (JObject [])))) s
  = (Normal (mkConnectionTest true (server_is js_undefined js_undefined)), s).
Proof. reflexivity. Qed.

(** X14. After a join, a reconnection joins the same room again. The
    rejoin carries the user stored by the join; a join without a user stores
    nothing, so its rejoin carries the user of an earlier join, if any. *)
Theorem reconnect_rejoins_room (room : string) (user : option User.t) (s : Env) :
  room ≠ "" → socket s ≠ None →
  let s' := actuallyJoinRoom room user s in
  emitted (on_connect s')
  = emitted s ++ [(now s, join_room room (safeUser user));
                  (now s, join_room room (match safeUser user with
                                          | Some su => Some su
                                          | None => stored_currentUser s
                                          end))].
Proof.
  intros Hne Hsock s'. subst s'. unfold on_connect.
  rewrite currentRoomId_actuallyJoinRoom. simpl.
  rewrite (bool_decide_eq_true_2 _ Hne).
  rewrite emitted_socket_emit by (by rewrite socket_actuallyJoinRoom).
  rewrite emitted_actuallyJoinRoom.
  destruct (socket s) eqn:Es; [|done].
  rewrite <- app_assoc. simpl. f_equal. f_equal.
  unfold actuallyJoinRoom, socket_emit.
  destruct (safeUser user); simpl; rewrite Es; done.
Qed.

Lemma reconnect_rejoins_room_witness :
  let s := initSocket (env (initial_client None)) in
  emitted (on_connect (actuallyJoinRoom "room-1" None s))
  = [(0, join_room "room-1" None); (0, join_room "room-1" None)].
Proof. apply (reconnect_rejoins_room "room-1" None); done. Defined.

(** X15. [disconnectSocket] drops the socket and forgets the room, so that
    a later connection joins nothing, but only when there is a socket: after
    a failed reconnection has dropped the socket, [disconnectSocket] does
    nothing, the room stays remembered, and the next connection joins it
    again. *)
Theorem disconnectSocket_forgets_room_with_socket (room : string) (s : Env) :
  currentRoomId s = Some room → room ≠ "" →
  (socket s ≠ None →
   let s' := disconnectSocket s in
   socket s' = None ∧ currentRoomId s' = None
   ∧ emitted (on_connect (initSocket s')) = emitted s)
  ∧ (let s' := disconnectSocket (on_reconnect_failed s) in
     socket s' = None ∧ currentRoomId s' = Some room
     ∧ emitted (on_connect (initSocket s'))
       = emitted s ++ [(now s, join_room room (stored_currentUser s))]).
Proof.
  intros Hc Hne. split.
  - intros Hsock. unfold disconnectSocket. destruct (socket s); [|done]. simpl.
    split_and!; done.
  - unfold disconnectSocket, on_reconnect_failed. simpl. split_and!; [done..|].
    unfold on_connect, initSocket. simpl. rewrite Hc. simpl.
    rewrite (bool_decide_eq_true_2 _ Hne). done.
Qed.

Lemma disconnectSocket_forgets_room_with_socket_witness :
  let s := actuallyJoinRoom "room-1" None (initSocket (env (initial_client None))) in
  let s' := disconnectSocket (on_reconnect_failed s) in
  socket s' = None ∧ currentRoomId s' = Some "room-1"
  ∧ emitted (on_connect (initSocket s'))
    = emitted s ++ [(now s, join_room "room-1" (stored_currentUser s))].
Proof.
  apply (disconnectSocket_forgets_room_with_socket "room-1"); done.
Defined.


(* ===================================================================== *)
(** * [UserAvatar] *)
(* ===================================================================== *)

Lemma or_else_nonempty (a : option string) (b : string) : b ≠ "" → or_else a b ≠ "".
Proof.
  intros Hb. unfold or_else. destruct a as [x|]; [|done]. simpl.
  case_bool_decide; done.
Qed.

(** X16. The initials avatar always has a letter and a colour: the name and
    the id the component computes are never empty, the colour index is one
    of 0..7 whatever the id, and so [bgColors[colorIndex]] is one of the
    eight colours, never [undefined]. *)
Theorem avatar_colour_defined (user : AvatarUser.t) :
  avatar_name user ≠ ""
  ∧ avatar_userId user ≠ ""
  ∧ 0 ≤ colorIndex (avatar_userId user) < 8
  ∧ ∃ colour, bgColor user = Some colour ∧ colour ∈ bgColors.
Proof.
  assert (avatar_name user ≠ "") as Hname
    by (unfold avatar_name; by do 2 apply or_else_nonempty).
  assert (0 ≤ colorIndex (avatar_userId user) < 8) as Hidx
    by (unfold colorIndex; apply Z.mod_pos_bound; lia).
  split; [done|]. split; [unfold avatar_userId; by do 2 apply or_else_nonempty|].
  split; [done|].
  unfold bgColor.
  destruct (bgColors !! Z.to_nat (colorIndex (avatar_userId user))) as [colour|] eqn:E.
  - exists colour. split; [done|]. by eapply list_elem_of_lookup_2.
  - apply lookup_ge_None in E. simpl in E. lia.
Qed.

Lemma starts_with_ci_app (p s : string) : starts_with_ci p (p +:+ s) = true.
Proof.
  induction p as [|a p IH]; simpl; [done|].
  rewrite IH. by rewrite bool_decide_eq_true_2.
Qed.

Lemma dots_then_ci_intro (pattern pre suf : string) :
  forallb (λ c, negb (is_line_terminator c)) (String.list_ascii_of_string pre) = true →
  dots_then_ci pattern (pre +:+ pattern +:+ suf) = true.
Proof.
  induction pre as [|a pre IH]; intros Hpre.
  - change ("" +:+ pattern +:+ suf) with (pattern +:+ suf).
    destruct (pattern +:+ suf) eqn:E; simpl; rewrite <- E, starts_with_ci_app; done.
  - simpl in Hpre. apply andb_true_iff in Hpre as [Ha Hpre].
    simpl. rewrite Ha, (IH Hpre). simpl. by rewrite orb_true_r.
Qed.

Lemma substring_drop_prefix (p s : string) :
  String.substring (String.length p) (String.length (p +:+ s) - String.length p) (p +:+ s) = s.
Proof.
  induction p as [|a p IH]; simpl.
  - rewrite Nat.sub_0_r. by apply substring_0_all.
  - exact IH.
Qed.

Lemma rest_after_scheme (s : string) :
  String.substring 8 (String.length ("https://" +:+ s) - 8) ("https://" +:+ s) = s.
Proof. exact (substring_drop_prefix "https://" s). Qed.

(** X17. The allow-list for photo URLs accepts only URLs that start with
    [https://], letters compared without case. It does not look at the host
    alone: a URL is accepted as soon as [lh3.googleusercontent.com] follows
    the scheme, whatever comes after, or [.gravatar.com] (as well
    [.firebasestorage.googleapis.com]) occurs anywhere after the scheme with
    no line terminator before it, in the path for instance. *)
Theorem safeDomains_accepts_by_substring (url pre suf : string) :
  (safeDomainsRegex_test url = true → starts_with_ci "https://" url = true)
  ∧ safeDomainsRegex_test ("https://lh3.googleusercontent.com" +:+ suf) = true
  ∧ (forallb (λ c, negb (is_line_terminator c)) (String.list_ascii_of_string pre) = true →
     safeDomainsRegex_test ("https://" +:+ pre +:+ ".gravatar.com" +:+ suf) = true
     ∧ safeDomainsRegex_test
         ("https://" +:+ pre +:+ ".firebasestorage.googleapis.com" +:+ suf) = true).
Proof.
  split_and!.
  - unfold safeDomainsRegex_test. by intros [? _]%andb_true_iff.
  - unfold safeDomainsRegex_test.
    change ("https://lh3.googleusercontent.com" +:+ suf)
      with ("https://" +:+ "lh3.googleusercontent.com" +:+ suf).
    rewrite starts_with_ci_app.
    rewrite rest_after_scheme.
    by rewrite starts_with_ci_app.
  - intros Hpre. unfold safeDomainsRegex_test. split.
    + rewrite starts_with_ci_app.
      rewrite rest_after_scheme.
      rewrite (dots_then_ci_intro ".gravatar.com" pre suf Hpre).
      by rewrite !orb_true_r.
    + rewrite starts_with_ci_app.
      rewrite rest_after_scheme.
      rewrite (dots_then_ci_intro ".firebasestorage.googleapis.com" pre suf Hpre).
      by rewrite !orb_true_r.
Qed.

(** The allow-list at work. *)
Example safeDomains_samples :
  safeDomainsRegex_test "https://lh3.googleusercontent.com/a/photo" = true
  ∧ safeDomainsRegex_test "HTTPS://www.Gravatar.com/avatar/1" = true
  ∧ safeDomainsRegex_test "https://example.org/x.gravatar.com" = true
  ∧ safeDomainsRegex_test "http://lh3.googleusercontent.com/a/photo" = false
  ∧ safeDomainsRegex_test "https://gravatar.com/avatar/1" = false
  ∧ safeDomainsRegex_test "https://example.org/photo.png" = false.
Proof. repeat split; reflexivity. Qed.

Lemma avatar_effect_fold (users : list (option AvatarUser.t)) (st : AvatarState) :
  let st' := foldl (λ st user, avatar_effect user st) st users in
  imageError st' = imageError st || existsb rejected_url users
  ∧ photoUrl st' = match last (omap accepted_url users) with
                   | Some url => Some url
                   | None => photoUrl st
                   end.
Proof.
  revert st. induction users as [|user users IH]; intros st; simpl.
  { by rewrite orb_false_r. }
  destruct (IH (avatar_effect user st)) as [IHe IHp].
  rewrite IHe, IHp. clear IH IHe IHp.
  unfold avatar_effect, rejected_url, accepted_url, photo_verdict.
  destruct user as [u|]; simpl; [|done].
  destruct (AvatarUser.photoURL u) as [url|]; simpl; [|done].
  case_bool_decide; simpl; [|done].
  destruct (safeDomainsRegex_test url); simpl.
  - split; [done|]. rewrite last_cons. by destruct (last _).
  - split; [|done]. by rewrite orb_true_r.
Qed.

(** X18. The state of a mounted avatar after its user changed any number
    of times: it has the error flag exactly when one of the users had a
    photo URL the allow-list refused, and its photo URL is the last one the
    allow-list accepted. So one refused URL hides the photo of every later
    user, and a user without photo keeps the photo of the user before. The
    photo is shown for a user when some URL was accepted and none refused. *)
Theorem avatar_state_after_users (users : list (option AvatarUser.t)) (u : AvatarUser.t) :
  imageError (avatar_after users) = existsb rejected_url users
  ∧ photoUrl (avatar_after users) = last (omap accepted_url users)
  ∧ shows_photo (Some u) (avatar_after users)
    = bool_decide (is_Some (last (omap accepted_url users)))
      && negb (existsb rejected_url users).
Proof.
  destruct (avatar_effect_fold users (mkAvatarState false None)) as [He Hp].
  simpl in He, Hp. fold (avatar_after users) in He, Hp.
  assert (photoUrl (avatar_after users) = last (omap accepted_url users)) as Hp'
    by (rewrite Hp; by destruct (last _)).
  split_and!; [done|done|].
  unfold shows_photo. rewrite He, Hp'. f_equal.
  destruct (last (omap accepted_url users)) as [url|] eqn:El; simpl.
  - apply bool_decide_eq_true_2.
    assert (url ∈ omap accepted_url users) as Hin.
    { apply last_Some in El as [l' ->]. set_solver. }
    apply list_elem_of_omap in Hin as (user & _ & Hacc).
    unfold accepted_url, photo_verdict in Hacc.
    destruct user as [v|]; [|done].
    destruct (AvatarUser.photoURL v) as [url'|]; [|done].
    destruct (truthy (Some url')) eqn:Ht; [|done].
    destruct (safeDomainsRegex_test url'); [|done].
    simplify_eq. simpl in Ht. by apply bool_decide_eq_true in Ht.
  - done.
Qed.

(** A user without photo after a user with one: the photo stays. *)
Example avatar_keeps_previous_photo :
  let ada := AvatarUser.mk (Some "https://www.gravatar.com/avatar/ada") (Some "Ada")
               None (Some "u1") None in
  let bob := AvatarUser.mk None (Some "Bob") None (Some "u2") None in
  photoUrl (avatar_after [Some ada; Some bob]) = Some "https://www.gravatar.com/avatar/ada"
  ∧ shows_photo (Some bob) (avatar_after [Some ada; Some bob]) = true.
Proof. split; reflexivity. Qed.


(* ===================================================================== *)
(** * [deleteUserChat]: the promise resolves once, within 10 seconds *)
(* ===================================================================== *)

Lemma same_deletes_refl (e : Env) : same_deletes e e.
Proof. split; [apply same_timing_refl|done]. Qed.

Lemma same_deletes_trans (e1 e2 e3 : Env) :
  same_deletes e1 e2 → same_deletes e2 e3 → same_deletes e1 e3.
Proof.
  intros [H1 R1] [H2 R2]. split; [by eapply same_timing_trans|congruence].
Qed.

Lemma same_deletes_initSocket (e : Env) : same_deletes e (initSocket e).
Proof.
  split; [apply same_timing_initSocket|]. unfold initSocket. by destruct (socket e).
Qed.

Lemma same_deletes_socket_emit (ev : Outbound) (e : Env) : same_deletes e (socket_emit ev e).
Proof.
  split; [apply same_timing_socket_emit|]. unfold socket_emit. by destruct (socket e).
Qed.

Lemma same_deletes_send (ev : Outbound) (e : Env) :
  same_deletes e (socket_emit ev (initSocket e)).
Proof.
  eapply same_deletes_trans; [apply same_deletes_initSocket|apply same_deletes_socket_emit].
Qed.

Lemma same_deletes_actuallyJoinRoom (room : string) (user : option User.t) (e : Env) :
  same_deletes e (actuallyJoinRoom room user e).
Proof.
  split; [apply same_timing_actuallyJoinRoom|].
  unfold actuallyJoinRoom, socket_emit.
  destruct (safeUser user); simpl; by destruct (socket e).
Qed.

Lemma same_deletes_createRoom_begin (e : Env) : same_deletes e (createRoom_begin e).
Proof.
  unfold createRoom_begin.
  destruct (truthy _); [|apply same_deletes_initSocket].
  destruct (currentRoomId (initSocket e)); [|apply same_deletes_initSocket].
  eapply same_deletes_trans; [apply same_deletes_send|]. by repeat split.
Qed.

Lemma same_deletes_disconnectSocket (e : Env) : same_deletes e (disconnectSocket e).
Proof. unfold disconnectSocket. destruct (socket e); by repeat split. Qed.

Lemma same_deletes_on_connect (e : Env) : same_deletes e (on_connect e).
Proof.
  unfold on_connect. destruct (truthy _); [|apply same_deletes_refl].
  destruct (currentRoomId e); [apply same_deletes_socket_emit|apply same_deletes_refl].
Qed.

Lemma same_deletes_on_connect_error (e : Env) : same_deletes e (on_connect_error e).
Proof.
  unfold on_connect_error. destruct (socket e); [|apply same_deletes_refl].
  case_bool_decide; by repeat split.
Qed.

Lemma same_deletes_stop_callback (captured : option string) (e : Env) :
  same_deletes e
    match captured with
    | Some room => if truthy captured then sendStoppedTypingIndicator room e else e
    | None => e
    end.
Proof.
  destruct captured as [room|]; [|apply same_deletes_refl].
  destruct (truthy _); [apply same_deletes_send|apply same_deletes_refl].
Qed.

(** ** The moves that keep [Tracked] *)

Lemma Tracked_view (call : option (positive * Z)) (e e' : Env) :
  timers e' = timers e → next_handle e' = next_handle e →
  pending_deletes e' = pending_deletes e → delete_results e' = delete_results e →
  Tracked call e → Tracked call e'.
Proof.
  intros Ht Hn Hp Hr [[H1 H2 H3 H4 H5] Hres]. split.
  - split; rewrite ?Ht, ?Hn, ?Hp, ?Hr; done.
  - destruct call as [[c deadline]|]; [|done].
    unfold Resolving. by rewrite Ht, Hp, Hr.
Qed.

Lemma Tracked_same (call : option (positive * Z)) (e e' : Env) :
  same_deletes e e' → Tracked call e → Tracked call e'.
Proof. intros [(Ht & Hn & _ & Hp) Hr]. by apply Tracked_view. Qed.

Lemma Tracked_setTimeout (call : option (positive * Z)) (tk : Task) (delay : Z) (e : Env) :
  (∀ c, tk ≠ task_abort c) → Tracked call e → Tracked call (setTimeout tk delay e).2.
Proof.
  intros Htk [[H1 H2 H3 H4 H5] Hres]. split.
  - split; simpl; try done.
    + intros tm c [Htm| ->%list_elem_of_singleton]%elem_of_app; [by apply H1|].
      simpl. intros ->. by destruct (Htk c).
    + intros c Hc. specialize (H4 c Hc). lia.
  - destruct call as [[c deadline]|]; [|done].
    destruct Hres as [Hres|(pd & tm & Hpd & Hc & Htm & Htask & Hdue)]; [by left|].
    right. exists pd, tm. split_and!; try done. simpl. apply elem_of_app. by left.
Qed.

Lemma Tracked_clearTimeout (call : option (positive * Z)) (h : positive) (e : Env) :
  (∀ c deadline tm, call = Some (c, deadline) → tm ∈ timers e → handle tm = h →
                    task tm ≠ task_abort c) →
  Tracked call e → Tracked call (clearTimeout h e).
Proof.
  intros Hh [[H1 H2 H3 H4 H5] Hres]. split.
  - split; simpl; try done.
    intros tm c [_ Htm]%list_elem_of_filter. by apply H1.
  - destruct call as [[c deadline]|]; [|done].
    destruct Hres as [Hres|(pd & tm & Hpd & Hc & Htm & Htask & Hdue)]; [by left|].
    right. exists pd, tm. split_and!; try done. simpl.
    apply list_elem_of_filter. split; [|done].
    intros Heq. by apply (Hh c deadline tm eq_refl Htm Heq).
Qed.

(** Clearing the idle timer of the debouncer. *)
Lemma Tracked_clear_ref (call : option (positive * Z)) (ref : option positive) (e : Env) :
  EnvInv e → TypingInv e ref → Tracked call e →
  Tracked call (match ref with Some h => clearTimeout h e | None => e end).
Proof.
  intros He Ht Htr. destruct ref as [h|]; [|done].
  apply Tracked_clearTimeout; [|done].
  intros c deadline tm _ Htm Hh Htask.
  destruct Ht as (tm' & Htt & Hh').
  assert (tm' ∈ typing_timers e) as Hin by (rewrite Htt; by left).
  apply list_elem_of_filter in Hin as [Hstop Hin].
  assert (tm = tm') as -> by (apply (handle_inj (timers e)); [apply He|done..|congruence]).
  unfold is_stop_timer in Hstop. by rewrite Htask in Hstop.
Qed.

Lemma Tracked_begin (call : option (positive * Z)) (userId room : string) (e : Env) :
  Tracked call e → Tracked call (deleteUserChat_begin userId room e).2.
Proof.
  intros Htr. destruct (deleteUserChat_begin_env userId room e) as [Hsame ->].
  set (e0 := if bool_decide _ then _ else _) in *.
  assert (same_deletes e e0) as Hsd.
  { split; [done|]. subst e0. case_bool_decide; simpl;
      by rewrite (proj2 (same_deletes_send (leave_room room) e)). }
  apply (Tracked_same call e e0 Hsd) in Htr.
  destruct Hsame as (Ht & Hn & _ & Hp). destruct Hsd as [_ Hr].
  destruct Htr as [[H1 H2 H3 H4 H5] Hres]. simpl. split.
  - split; simpl.
    + intros tm c [Htm| ->%list_elem_of_singleton]%elem_of_app; [by apply H1|].
      simpl. intros [= <-]. by rewrite Hn.
    + intros pd [Hpd| ->%list_elem_of_singleton]%elem_of_app; [|done].
      apply H2. by rewrite Hp.
    + rewrite <- Hp, fmap_app, <- app_assoc. simpl.
      apply NoDup_app in H3 as (Ha & Hb & Hc).
      apply NoDup_app. split_and!; [done| |].
      * intros c Hin [->|Hc']%elem_of_cons.
        -- assert (next_handle e < next_handle e0)%positive; [|lia].
           apply H4. apply elem_of_app. by left.
        -- by apply (Hb c).
      * apply NoDup_cons. split; [|done]. intros Hin.
        assert (next_handle e < next_handle e0)%positive; [|lia].
        apply H4. apply elem_of_app. by right.
    + rewrite <- Hp, fmap_app, <- app_assoc. simpl.
      intros c [Hc|[->|Hc]%elem_of_cons]%elem_of_app.
      * assert (c < next_handle e0)%positive; [|lia]. apply H4, elem_of_app. by left.
      * lia.
      * assert (c < next_handle e0)%positive; [|lia]. apply H4, elem_of_app. by right.
    + done.
  - destruct call as [[c deadline]|]; [|done].
    destruct Hres as [Hres|(pd & tm & Hpd & Hc & Htm & Htask & Hdue)]; [by left|].
    right. exists pd, tm. simpl. split_and!; try done.
    + apply elem_of_app. left. by rewrite <- Hp.
    + apply elem_of_app. by left.
Qed.

(** What [settle_delete] does to timers and suspended calls. *)
Lemma settle_delete_view (c : positive) (o : FetchOutcome) (s : Env) :
  (settle_delete c o s = s ∧ ∀ pd, pd ∈ pending_deletes s → pd_controller pd ≠ c)
  ∨ ∃ pd,
      pd ∈ pending_deletes s ∧ pd_controller pd = c
      ∧ timers (settle_delete c o s) = filter (λ tm, handle tm ≠ pd_timeoutId pd) (timers s)
      ∧ pending_deletes (settle_delete c o s)
        = filter (λ pd, pd_controller pd ≠ c) (pending_deletes s)
      ∧ delete_results (settle_delete c o s) = delete_results s ++ [(c, true)]
      ∧ next_handle (settle_delete c o s) = next_handle s.
Proof.
  unfold settle_delete.
  destruct (list_find _ (pending_deletes s)) as [[i pd]|] eqn:Hfind.
  - right. apply list_find_Some in Hfind as (Hi & Hc & _).
    set (s1 := set_pending_deletes _ s).
    destruct (deleteUserChat_resume_env pd o s1) as [Hres Hcases].
    exists pd. rewrite Hres. split; [by eapply list_elem_of_lookup_2|]. split; [done|].
    destruct Hcases as [-> | ->]; simpl; [done|].
    unfold socket_emit. simpl. by destruct (socket s).
  - left. split; [done|]. intros pd Hpd Hc.
    apply list_find_None in Hfind. rewrite Forall_forall in Hfind. by apply (Hfind pd).
Qed.

Lemma Tracked_settle (call : option (positive * Z)) (c : positive) (o : FetchOutcome)
    (e : Env) :
  Tracked call e → Tracked call (settle_delete c o e).
Proof.
  intros Htr.
  destruct (settle_delete_view c o e)
    as [[-> _]|(pd & Hpd & Hc & Ht & Hp & Hr & Hn)]; [done|].
  destruct Htr as [[H1 H2 H3 H4 H5] Hres].
  assert (c ∈ pd_controller <$> pending_deletes e) as Hcin
    by (rewrite <- Hc; by apply list_elem_of_fmap_2).
  apply NoDup_app in H3 as (Ha & Hb & Hd).
  split.
  - split; rewrite ?Ht, ?Hp, ?Hr, ?Hn.
    + intros tm c' [_ Htm]%list_elem_of_filter. by apply H1.
    + intros pd' [_ Hpd']%list_elem_of_filter. by apply H2.
    + rewrite fmap_app. simpl. apply NoDup_app. split_and!.
      * eapply sublist_NoDup; [exact Ha|]. apply fmap_sublist, sublist_filter.
      * intros c' [pd' [-> [Hne Hpd']%list_elem_of_filter]]%list_elem_of_fmap.
        intros [Hin|Heq%list_elem_of_singleton]%elem_of_app; [|done].
        apply (Hb (pd_controller pd')); [by apply list_elem_of_fmap_2|done].
      * apply NoDup_app. split_and!; [done| |apply NoDup_singleton].
        intros c' Hin ->%list_elem_of_singleton. by apply (Hb c).
    + rewrite fmap_app. simpl.
      intros c' [[pd' [-> [_ Hpd']%list_elem_of_filter]]%list_elem_of_fmap
                |[Hin| ->%list_elem_of_singleton]%elem_of_app]%elem_of_app.
      * apply H4, elem_of_app. left. by apply list_elem_of_fmap_2.
      * apply H4, elem_of_app. by right.
      * apply H4, elem_of_app. by left.
    + intros r [Hin| ->%list_elem_of_singleton]%elem_of_app; [by apply H5|done].
  - destruct call as [[c0 deadline]|]; [|done].
    unfold Resolving. rewrite Ht, Hp, Hr.
    destruct Hres as [Hres|(pd0 & tm & Hpd0 & Hc0 & Htm & Htask & Hdue)].
    { left. apply elem_of_app. by left. }
    destruct (decide (c0 = c)) as [->|Hne].
    { left. apply elem_of_app. right. by left. }
    right. exists pd0, tm. split_and!; try done.
    + apply list_elem_of_filter. split; [congruence|done].
    + apply list_elem_of_filter. split; [|done].
      rewrite (H1 tm c0 Htm Htask), (H2 pd Hpd), Hc. intros Heq.
      apply Hne. by apply Pos.succ_inj.
Qed.

(** ** Steps and timer expiries keep [Tracked] *)

Lemma Tracked_joinRoom (call : option (positive * Z)) (room : string)
    (user : option User.t) (e : Env) :
  Tracked call e → Tracked call (joinRoom room user e).
Proof.
  intros Htr. destruct (joinRoom_cases room user e) as [->|(current & _ & _ & _ & ->)].
  - eapply Tracked_same; [|exact Htr].
    eapply same_deletes_trans; [apply same_deletes_initSocket|apply same_deletes_actuallyJoinRoom].
  - apply Tracked_setTimeout; [done|].
    eapply Tracked_same; [apply same_deletes_send|done].
Qed.

Lemma Tracked_handleInputChange (call : option (positive * Z)) (value : string) (cl : Client) :
  Inv cl → Tracked call (env cl) → Tracked call (env (handleInputChange value cl)).
Proof.
  intros [He Ht] Htr.
  destruct (truthy (roomId (ui cl))) eqn:Htruthy.
  - destruct (roomId (ui cl)) as [room|] eqn:Hroom; [|done].
    apply bool_decide_eq_true in Htruthy.
    destruct (decide (trim value = "")) as [Hv|Hv].
    + rewrite (handleInputChange_blank value room) by done. simpl.
      eapply Tracked_same; [apply same_deletes_send|]. by apply Tracked_clear_ref.
    + rewrite (handleInputChange_typing value room) by done. simpl.
      apply Tracked_setTimeout; [done|].
      apply (Tracked_clear_ref call (typingTimeoutRef (ui cl))
               (sendTypingIndicator room (env cl))).
      * eapply EnvInv_same_timing; [apply same_timing_send|done].
      * eapply TypingInv_same_timing; [apply same_timing_send|done].
      * eapply Tracked_same; [apply same_deletes_send|done].
  - by rewrite handleInputChange_no_room.
Qed.

Lemma Tracked_handleSubmit (call : option (positive * Z)) (messageId : string) (cl : Client) :
  Inv cl → Tracked call (env cl) → Tracked call (env (handleSubmit messageId cl)).
Proof.
  intros [He Ht] Htr. unfold handleSubmit.
  destruct (roomId (ui cl)) as [room|] eqn:Hroom; [|done].
  destruct (_ || _ || _); [done|]. simpl.
  unfold clear_typing_timeout, sendMessage, requestAIResponse, sendStoppedTypingIndicator.
  repeat (eapply Tracked_same; [apply same_deletes_send|]).
  by apply Tracked_clear_ref.
Qed.

Lemma Tracked_onBlur (call : option (positive * Z)) (cl : Client) :
  Inv cl → Tracked call (env cl) → Tracked call (env (onBlur cl)).
Proof.
  intros [He Ht] Htr. unfold onBlur.
  destruct (roomId (ui cl)) as [room|] eqn:Hroom; [|done].
  destruct (typingTimeoutRef (ui cl)) as [h|] eqn:Href; [|done].
  destruct (truthy (Some room)); [|done]. simpl.
  eapply Tracked_same; [apply same_deletes_send|].
  by apply (Tracked_clear_ref call (Some h)).
Qed.

Lemma Tracked_step (call : option (positive * Z)) (st : Step) (cl : Client) :
  Inv cl → Tracked call (env cl) → Tracked call (env (step st cl)).
Proof.
  intros Hinv Htr. destruct st; simpl.
  - by apply Tracked_joinRoom.
  - by apply Tracked_begin.
  - eapply Tracked_same; [apply same_deletes_createRoom_begin|done].
  - eapply Tracked_same; [apply same_deletes_disconnectSocket|done].
  - by apply Tracked_handleInputChange.
  - by apply Tracked_handleSubmit.
  - by apply Tracked_onBlur.
  - done.
  - by apply Tracked_settle.
  - eapply Tracked_same; [apply same_deletes_on_connect|done].
  - eapply Tracked_same; [apply same_deletes_on_connect_error|done].
  - eapply Tracked_same; [|done]. by repeat split.
Qed.

Lemma Tracked_fire (call : option (positive * Z)) (tm : Timer) (cl : Client) :
  Inv cl → earliest (timers (env cl)) = Some tm →
  Tracked call (env cl) → Tracked call (env (fire tm cl)).
Proof.
  intros [He Ht] Hearliest Htr.
  pose proof (earliest_Some _ _ Hearliest) as [Hin _].
  set (e1 := set_now (Z.max (now (env cl)) (fire_at tm)) (clearTimeout (handle tm) (env cl))).
  assert (∀ call', Tracked call' (env cl) →
            (∀ c deadline, call' = Some (c, deadline) → task tm ≠ task_abort c) →
            Tracked call' e1) as Hbase.
  { intros call' Htr' Hother.
    apply (Tracked_view call' (clearTimeout (handle tm) (env cl))); [done..|].
    apply Tracked_clearTimeout; [|done].
    intros c deadline tm' Hcall Htm' Hh.
    assert (tm' = tm) as -> by (apply (handle_inj (timers (env cl))); [apply He|done..]).
    by eapply Hother. }
  unfold fire. fold e1.
  destruct (task tm) as [room user|captured|c] eqn:Htask; simpl.
  - eapply Tracked_same; [apply same_deletes_actuallyJoinRoom|].
    apply Hbase; [done|]. by intros.
  - eapply Tracked_same; [apply same_deletes_stop_callback|].
    apply Hbase; [done|]. by intros.
  - destruct call as [[c0 deadline]|]; [|apply Tracked_settle, Hbase; [done|by intros]].
    destruct (decide (c0 = c)) as [->|Hne];
      [|apply Tracked_settle, Hbase; [done|intros ?? [= <- <-]; congruence]].
    pose proof (Tracked_settle None c (Rejected AbortError) e1
                  (Hbase None (conj (proj1 Htr) I) ltac:(by intros))) as [Hdi _].
    split; [done|].
    destruct Htr as [_ [Hres|(pd & tm' & Hpd & Hc & _)]].
    + left.
      destruct (settle_delete_view c (Rejected AbortError) e1)
        as [[-> _]|(_ & _ & _ & _ & _ & -> & _)]; [done|].
      apply elem_of_app. by left.
    + left.
      destruct (settle_delete_view c (Rejected AbortError) e1)
        as [[_ Hnone]|(_ & _ & _ & _ & _ & -> & _)].
      * by destruct (Hnone pd Hpd).
      * apply elem_of_app. right. by left.
Qed.

Lemma Tracked_run_due (call : option (positive * Z)) (fuel : nat) (t : Z) (cl : Client) :
  Inv cl → Tracked call (env cl) → Tracked call (env (run_due fuel t cl)).
Proof.
  revert cl. induction fuel as [|fuel IH]; intros cl Hinv Htr; simpl; [done|].
  destruct (earliest _) as [tm|] eqn:E; [|done].
  destruct (_ <=? _); [|done].
  apply IH; [by apply Inv_fire|by apply Tracked_fire].
Qed.

Lemma Tracked_advance (call : option (positive * Z)) (t : Z) (cl : Client) :
  Inv cl → Tracked call (env cl) → Tracked call (env (advance t cl)).
Proof.
  intros Hinv Htr. unfold advance. simpl.
  eapply Tracked_view;
    [..|by apply (Tracked_run_due call (length (timers (env cl))) t cl)]; done.
Qed.

Lemma Tracked_run (call : option (positive * Z)) (schedule : list (Z * Step)) (cl : Client) :
  Inv cl → Tracked call (env cl) → Tracked call (env (run schedule cl)).
Proof.
  revert cl. induction schedule as [|[t st] schedule IH]; intros cl Hinv Htr; [done|].
  simpl. apply IH.
  - by apply Inv_step, Inv_advance.
  - apply Tracked_step; [by apply Inv_advance|by apply Tracked_advance].
Qed.

Lemma reachable_DeleteInv (cl : Client) : reachable cl → DeleteInv (env cl).
Proof.
  intros (room & schedule & ->).
  apply (Tracked_run None schedule (initial_client room)); [apply Inv_initial|].
  split; [|done]. split; simpl.
  - by intros tm c ?%elem_of_nil.
  - by intros pd ?%elem_of_nil.
  - apply NoDup_nil_2.
  - by intros c ?%elem_of_nil.
  - by intros r ?%elem_of_nil.
Qed.

Lemma filter_key_absent {A} (c : positive) (l : list (positive * A)) :
  c ∉ fst <$> l → filter (λ r, r.1 = c) l = [].
Proof.
  induction l as [|[c' v'] l IH]; [done|].
  rewrite fmap_cons. intros [Hne Hnotin]%not_elem_of_cons.
  rewrite filter_cons_False; [by apply IH|]. simpl in *. congruence.
Qed.

Lemma filter_key_unique {A} (c : positive) (v : A) (l : list (positive * A)) :
  NoDup (fst <$> l) → (c, v) ∈ l → filter (λ r, r.1 = c) l = [(c, v)].
Proof.
  induction l as [|[c' v'] l IH]; [by intros _ ?%elem_of_nil|].
  rewrite fmap_cons. intros [Hnotin Hnd]%NoDup_cons [[= <- <-]|Hin]%elem_of_cons.
  - rewrite filter_cons_True by done. f_equal. by apply filter_key_absent.
  - rewrite filter_cons_False; [by apply IH|].
    simpl. intros ->. apply Hnotin. by apply (list_elem_of_fmap_2 fst l (c, v)).
Qed.

(** X19. In a state the client reaches, a call of [deleteUserChat] resolves,
    once and with [true], no later than 10 seconds after the call, whatever
    happens in between: whether and how the request settles, what the user
    types, which rooms are joined or chats deleted, whether the socket is
    lost. A response counts as arrived when its body has been read, as
    [Fulfilled] has it: the time [response.text()] may take after the
    timeout is cleared is not modelled. *)
Theorem deleteUserChat_resolves_once_within_10s (cl : Client) (userId room : string)
    (schedule : list (Z * Step)) (t : Z) :
  reachable cl →
  now (env cl) + 10000 ≤ t →
  let c := pd_controller (deleteUserChat_begin userId room (env cl)).1 in
  let cl' := advance t (run schedule (step (call_deleteUserChat userId room) cl)) in
  filter (λ r, r.1 = c) (delete_results (env cl')) = [(c, true)].
Proof.
  intros Hreach Ht c cl'.
  pose proof (reachable_Inv cl Hreach) as Hinv.
  pose proof (reachable_DeleteInv cl Hreach) as Hdi.
  set (cl1 := step (call_deleteUserChat userId room) cl).
  assert (Inv cl1) as Hinv1 by (by apply Inv_step).
  assert (Tracked (Some (c, now (env cl) + 10000)) (env cl1)) as Htr.
  { split; [by apply (Tracked_begin None), (conj Hdi I)|].
    subst cl1 c. cbn [step env].
    destruct (deleteUserChat_begin_env userId room (env cl)) as [Hsame ->]. simpl.
    set (e0 := if bool_decide _ then _ else _) in *.
    destruct Hsame as (_ & _ & Hnow & _).
    right. eexists _, _. split_and!.
    - apply elem_of_app. right. by left.
    - done.
    - apply elem_of_app. right. by left.
    - done.
    - simpl. lia. }
  set (cl2 := run schedule cl1).
  assert (Inv cl2) as Hinv2 by (by apply Inv_run).
  assert (Tracked (Some (c, now (env cl) + 10000)) (env cl2)) as Htr2
    by (by apply Tracked_run).
  assert (Tracked (Some (c, now (env cl) + 10000)) (env cl')) as [Hdi' Hres]
    by (by apply Tracked_advance).
  apply filter_key_unique.
  - destruct Hdi' as [_ _ Hnd _ _]. by apply NoDup_app in Hnd as (_ & _ & ?).
  - destruct Hres as [Hres|(pd & tm & _ & _ & Htm & _ & Hdue)]; [done|].
    subst cl'. unfold advance in Htm. simpl in Htm.
    pose proof (run_due_complete (length (timers (env cl2))) t cl2 Hinv2 (le_n _) tm Htm).
    lia.
Qed.

Lemma deleteUserChat_resolves_once_within_10s_witness :
  let cl := initial_client (Some "room-1") in
  let schedule := [(50, input_change "hi"); (200, call_joinRoom "room-2" None);
                   (300, socket_reconnect_failed)] in
  filter (λ r, r.1 = 1%positive)
    (delete_results
       (env (advance 10000 (run schedule (step (call_deleteUserChat "u1" "room-1") cl)))))
  = [(1%positive, true)].
Proof.
  apply (deleteUserChat_resolves_once_within_10s (initial_client (Some "room-1"))
           "u1" "room-1"); [by exists (Some "room-1"), []|simpl; lia].
Defined.


(* ===================================================================== *)
(** * [joinRoom]: two switches in a row *)
(* ===================================================================== *)

(** [joinRoom] out of a remembered room, field by field. *)
Lemma joinRoom_switch_fields (room current : string) (user : option User.t)
    (now0 : Z) (tms : list Timer) (nh : positive) (log : list (Z * Outbound))
    (stored : option SafeUser.t) (pend : list PendingDelete) (res : list (positive * bool))
    (sock : option Socket) :
  current ≠ "" → current ≠ room →
  joinRoom room user (mkEnv now0 tms nh log stored pend res sock (Some current))
  = mkEnv now0 (tms ++ [mkTimer nh (now0 + 100) (task_actuallyJoinRoom room user)])
          (Pos.succ nh) (log ++ [(now0, leave_room current)]) stored pend res
          (Some (default (mkSocket [polling; websocket]) sock)) (Some current).
Proof.
  intros H1 H2. rewrite (joinRoom_switch room current) by done.
  by destruct sock.
Qed.

(** [actuallyJoinRoom] on an open socket, field by field. *)
Lemma actuallyJoinRoom_fields (room : string) (user : option User.t)
    (now0 : Z) (tms : list Timer) (nh : positive) (log : list (Z * Outbound))
    (stored : option SafeUser.t) (pend : list PendingDelete) (res : list (positive * bool))
    (sock : Socket) (cur : option string) :
  actuallyJoinRoom room user (mkEnv now0 tms nh log stored pend res (Some sock) cur)
  = mkEnv now0 tms nh (log ++ [(now0, join_room room (safeUser user))])
          (match safeUser user with Some su => Some su | None => stored end)
          pend res (Some sock) (Some room).
Proof. unfold actuallyJoinRoom. by destruct (safeUser user). Qed.

(** While no timer is due, time passes and nothing else happens. *)
Lemma advance_nothing_due (t : Z) (cl : Client) :
  (∀ tm, tm ∈ timers (env cl) → t < fire_at tm) →
  advance t cl = mkClient (set_now (Z.max (now (env cl)) t) (env cl)) (ui cl).
Proof.
  intros Hlate. unfold advance.
  assert (∀ fuel, run_due fuel t cl = cl) as ->; [|done].
  intros [|fuel]; simpl; [done|].
  destruct (earliest _) as [tm|] eqn:E; [|done].
  apply earliest_Some in E as [Hin _]. specialize (Hlate tm Hin).
  by destruct (Z.leb_spec (fire_at tm) t); [lia|].
Qed.

(** X20. Two room switches less than 100 ms apart. In a state with no
    timer pending and a remembered room [A], [joinRoom(B)] followed, before
    its timer expires, by [joinRoom(C)] emits [leave-room] for [A] twice and
    later joins both [B] and [C]: the join of [B] is not cancelled and [B] is
    never left, while the room remembered in the end is [C]. *)
Theorem joinRoom_twice_joins_both (cl : Client) (A B C : string)
    (userB userC : option User.t) (t1 t : Z) :
  timers (env cl) = [] →
  currentRoomId (env cl) = Some A → A ≠ "" → A ≠ B → A ≠ C →
  let t0 := now (env cl) in
  t0 ≤ t1 < t0 + 100 → t1 + 100 ≤ t →
  let cl' := advance t (step (call_joinRoom C userC)
                          (advance t1 (step (call_joinRoom B userB) cl))) in
  emitted (env cl')
  = emitted (env cl)
    ++ [(t0, leave_room A); (t1, leave_room A);
        (t0 + 100, join_room B (safeUser userB));
        (t1 + 100, join_room C (safeUser userC))]
  ∧ currentRoomId (env cl') = Some C
  ∧ timers (env cl') = [].
Proof.
  intros Htimers Hcur HA HAB HAC t0 Ht1 Ht cl'.
  subst cl' t0.
  destruct cl as [e c]. destruct e as [now0 tms nh log stored pend res sock cur].
  simpl in Htimers, Hcur, Ht1. subst tms cur.
  cbn [step env ui].
  rewrite joinRoom_switch_fields by done.
  set (sock1 := default _ sock).
  set (tmB := mkTimer nh (now0 + 100) (task_actuallyJoinRoom B userB)).
  (* nothing is due at [t1] *)
  rewrite (advance_nothing_due t1).
  2:{ intros tm ->%list_elem_of_singleton. simpl. lia. }
  cbn [env ui now set_now timers next_handle emitted stored_currentUser pending_deletes
       delete_results socket currentRoomId app].
  unfold set_now.
  cbn [now timers next_handle emitted stored_currentUser pending_deletes
       delete_results socket currentRoomId].
  replace (now0 `max` t1) with t1 by lia.
  rewrite joinRoom_switch_fields by done.
  set (tmC := mkTimer (Pos.succ nh) (t1 + 100) (task_actuallyJoinRoom C userC)).
  cbn [default app].
  (* both timers expire by [t], the one armed first before the other *)
  unfold advance. cbn [env ui timers length app run_due earliest].
  cbn [fire_at tmB tmC].
  replace (t1 + 100 <? now0 + 100) with false by (symmetry; apply Z.ltb_ge; lia).
  assert ((fire_at tmB <=? t) = true) as HdueB by (apply Z.leb_le; simpl; lia).
  assert ((fire_at tmC <=? t) = true) as HdueC by (apply Z.leb_le; simpl; lia).
  rewrite ?HdueB.
  set (cl1 := fire tmB _).
  assert (cl1 = mkClient
                  (mkEnv (now0 + 100) [tmC] (Pos.succ (Pos.succ nh))
                     ((log ++ [(now0, leave_room A)]) ++ [(t1, leave_room A)]
                      ++ [(now0 + 100, join_room B (safeUser userB))])
                     (match safeUser userB with Some su => Some su | None => stored end)
                     pend res (Some sock1) (Some B)) c) as ->.
  { subst cl1. unfold fire.
    cbn [env ui clearTimeout timers handle tmB task run_task set_timers
         now next_handle emitted stored_currentUser pending_deletes
         delete_results socket currentRoomId set_now].
    unfold set_now, clearTimeout, set_timers, id.
    cbn [now timers next_handle emitted stored_currentUser pending_deletes
         delete_results socket currentRoomId fire_at tmB].
    rewrite filter_cons_False by (intros H; by apply H).
    rewrite filter_cons_True by (simpl; lia).
    rewrite filter_nil.
    replace (t1 `max` (now0 + 100)) with (now0 + 100) by lia.
    rewrite actuallyJoinRoom_fields. by rewrite <- app_assoc. }
  cbn [env ui timers run_due earliest fire_at tmC].
  rewrite ?HdueC.
  set (cl2 := fire tmC _).
  assert (cl2 = mkClient
                  (mkEnv (t1 + 100) [] (Pos.succ (Pos.succ nh))
                     (((log ++ [(now0, leave_room A)]) ++ [(t1, leave_room A)]
                       ++ [(now0 + 100, join_room B (safeUser userB))])
                      ++ [(t1 + 100, join_room C (safeUser userC))])
                     (match safeUser userC with
                      | Some su => Some su
                      | None => match safeUser userB with Some su => Some su | None => stored end
                      end)
                     pend res (Some sock1) (Some C)) c) as ->.
  { subst cl2. unfold fire.
    cbn [env ui clearTimeout timers handle tmC task run_task set_timers
         now next_handle emitted stored_currentUser pending_deletes
         delete_results socket currentRoomId set_now].
    unfold set_now, clearTimeout, set_timers, id.
    cbn [now timers next_handle emitted stored_currentUser pending_deletes
         delete_results socket currentRoomId fire_at tmC].
    rewrite filter_cons_False by (intros H; by apply H).
    rewrite filter_nil.
    replace ((now0 + 100) `max` (t1 + 100)) with (t1 + 100) by lia.
    by rewrite actuallyJoinRoom_fields. }
  unfold set_now. cbn [env ui emitted currentRoomId timers].
  replace (t1 + 100 <=? t) with true by (symmetry; apply Z.leb_le; lia).
  cbn [env ui emitted currentRoomId timers].
  split_and!; [|done..]. by rewrite <- !app_assoc.
Qed.

Lemma joinRoom_twice_joins_both_witness :
  let cl := step (call_joinRoom "A" None) (initial_client None) in
  let cl' := advance 200 (step (call_joinRoom "C" None)
                            (advance 50 (step (call_joinRoom "B" None) cl))) in
  emitted (env cl')
  = [(0, join_room "A" None); (0, leave_room "A"); (50, leave_room "A");
     (100, join_room "B" None); (150, join_room "C" None)]
  ∧ currentRoomId (env cl') = Some "C"
  ∧ timers (env cl') = [].
Proof.
  apply (joinRoom_twice_joins_both (step (call_joinRoom "A" None) (initial_client None))
           "A" "B" "C" None None 50 200); try done; simpl; lia.
Defined.


(* ===================================================================== *)
(** * [ChatHistory.tsx]: deleting a chat *)
(* ===================================================================== *)

(** X21. [handleDeleteRoom] with the promise of [deleteUserChat] settling as
    that function settles it, and the promise of [createRoom] settling in any
    way: the handler never throws, never reports an error, never schedules
    the reload of its error path and never runs the [localStorage] fallback.
    Without a chat to delete (null or the empty string) or without a user it
    does nothing. Otherwise it takes the chat off the list, closes the
    dialog, navigates to [/chat] when the chat is the current one, and,
    when the list had exactly one room, whichever it was, navigates to the
    room [createRoom] returned ([undefined] included), or sets the location
    to [/chat] when [createRoom] threw. *)
Theorem handleDeleteRoom_never_falls_back (user currentRoomId : option string)
    (pd : PendingDelete) (o : FetchOutcome) (s : Env) (created : Completion JsValue)
    (h : History) :
  let deleted := (deleteUserChat_resume pd o s).1 in
  let result := handleDeleteRoom user currentRoomId deleted created h in
  result.1 = Normal ()
  ∧ error result.2 = error h
  ∧ cache result.2 = cache h
  ∧ reloads_scheduled result.2 = reloads_scheduled h
  ∧ (roomToDelete h = None ∨ roomToDelete h = Some "" ∨ user = None → result.2 = h)
  ∧ (∀ room uid, roomToDelete h = Some room → room ≠ "" → user = Some uid →
       rooms result.2 = filter (λ r, ChatRoom.id r ≠ room) (rooms h)
       ∧ deleteDialogOpen result.2 = false
       ∧ roomToDelete result.2 = None
       ∧ isDeleting result.2 = false
       ∧ navigations result.2
         = navigations h
           ++ (if bool_decide (Some room = currentRoomId) then [navigate_chat] else [])
           ++ (if bool_decide (length (rooms h) = 1%nat)
               then [match created with
                     | Normal newRoomId => navigate_join newRoomId
                     | Throw _ => location_chat
                     end]
               else [])).
Proof.
  intros deleted result. subst deleted result.
  destruct (deleteUserChat_resume_true pd o s) as [s3 ->]. cbn [fst].
  unfold handleDeleteRoom.
  destruct (roomToDelete h) as [room|] eqn:Hroom; [|by split_and!; try done; intros].
  destruct user as [uid|];
    [|split_and!; try done; intros; simplify_eq].
  cbn [truthy]. case_bool_decide as Hne; cbn [negb].
  2:{ split_and!; try done. intros ?? [= <-] ?. done. }
  unfold act_finally, act_try, act_block, act_bind, act_exec, act_ret, act_await.
  cbn [foldr].
  assert (∀ room' uid', Some room = Some room' → room' ≠ "" → Some uid = Some uid' →
            room' = room) as Hsame by (intros; congruence).
  destruct (bool_decide (Some room = currentRoomId)) eqn:Hcur;
    destruct (bool_decide (length (rooms h) = 1%nat)) eqn:Hlast;
    try destruct created as [newRoomId|e]; cbn;
    (split_and!; try done;
     [intros [?|[?|?]]; congruence
     |intros room' uid' [= <-] _ _; rewrite ?Hcur, ?Hlast; cbn;
      split_and!; try done; by rewrite <- ?app_assoc, ?app_nil_r]).
Qed.

(** Deleting the last chat when the server answers the creation with a body
    that has no [roomId]: the browser is sent to [/join/undefined]. *)
Example handleDeleteRoom_last_chat :
  let h := mkHistory [ChatRoom.mk "room-1" "First"] true (Some "room-1") false None [] None 0 in
  let pd := mkPendingDelete "u1" "room-1" 1 2 in
  let s := env (initial_client None) in
  let created := (createRoom_resume
                    (Fulfilled (mkResponse true 200 (Some "{}") (Some (JObject [])))) s).1 in
  (handleDeleteRoom (Some "u1") (Some "room-1")
     (deleteUserChat_resume pd (Rejected NetworkError) s).1 created h).2
  = mkHistory [] false None false None [navigate_chat; navigate_join js_undefined] None 0.
Proof. reflexivity. Qed.


(* ===================================================================== *)
(** * [ChatRoom.tsx]: a new chat *)
(* ===================================================================== *)

(** What [createRoom] emits and remembers before its request. *)
Lemma createRoom_begin_fields (s : Env) :
  truthy (currentRoomId (createRoom_begin s)) = false
  ∧ emitted (createRoom_begin s)
    = emitted s ++ match currentRoomId s with
                   | Some current =>
                       if bool_decide (current ≠ "") then [(now s, leave_room current)] else []
                   | None => []
                   end.
Proof.
  unfold createRoom_begin. rewrite currentRoomId_initSocket.
  assert (emitted (initSocket s) = emitted s) as Hi
    by (unfold initSocket; by destruct (socket s)).
  destruct (currentRoomId s) as [current|] eqn:Hc; cbn [truthy].
  - case_bool_decide as Hne.
    + split; [done|].
      change (emitted (socket_emit (leave_room current) (initSocket s))
              = emitted s ++ [(now s, leave_room current)]).
      apply emitted_send.
    + rewrite currentRoomId_initSocket, Hc, app_nil_r. cbn [truthy].
      split; [by subst|done].
  - by rewrite currentRoomId_initSocket, Hc, app_nil_r.
Qed.

(** X22. [handleNewChat], up to its request: it emits [leave-room] for the
    room of the component, and [createRoom] then emits [leave-room] for the
    room the socket module remembers, so the server is told twice when they
    are the same room, as they are after a join. It empties the message list
    and the typing map, resets the title and forgets the room on both sides;
    until the new room is known, typing announces nothing, a submit does
    nothing, and the title effect leaves the title alone. *)
Theorem handleNewChat_leaves_twice (cl : Client) :
  let cl' := handleNewChat_begin cl in
  let leave (room : option string) :=
    match room with
    | Some room => if bool_decide (room ≠ "") then [(now (env cl), leave_room room)] else []
    | None => []
    end in
  emitted (env cl') = emitted (env cl) ++ leave (roomId (ui cl)) ++ leave (currentRoomId (env cl))
  ∧ truthy (currentRoomId (env cl')) = false
  ∧ roomId (ui cl') = None
  ∧ messages (ui cl') = []
  ∧ typingUsers (ui cl') = ∅
  ∧ (∀ value, env (handleInputChange value cl') = env cl')
  ∧ (∀ messageId, handleSubmit messageId cl' = cl')
  ∧ generate_title (ui cl') = ui cl'.
Proof.
  intros cl' leave. subst cl'. unfold handleNewChat_begin.
  set (e := match roomId (ui cl) with Some _ => _ | None => _ end).
  assert (emitted e = emitted (env cl) ++ leave (roomId (ui cl))
          ∧ currentRoomId e = currentRoomId (env cl) ∧ now e = now (env cl)) as (He & Hc & Hn).
  { subst e leave. destruct (roomId (ui cl)) as [room|]; cbn [truthy].
    - case_bool_decide.
      + rewrite emitted_send. split; [done|].
        unfold socket_emit, initSocket.
        destruct (socket (env cl)) eqn:E; simpl; rewrite ?E; by split.
      + by rewrite app_nil_r.
    - by rewrite app_nil_r. }
  destruct (createRoom_begin_fields e) as (Hf & Hem).
  cbn [env ui]. split_and!.
  - rewrite Hem, He, Hc, Hn, <- app_assoc. done.
  - done.
  - done.
  - done.
  - done.
  - intros value. by rewrite handleInputChange_no_room.
  - intros messageId. apply handleSubmit_rejected. right. right. simpl. tauto.
  - reflexivity.
Qed.

(** A new chat right after a join: the room is left twice. *)
Example handleNewChat_after_join :
  let cl := step (call_joinRoom "room-1" None) (initial_client (Some "room-1")) in
  emitted (env (handleNewChat_begin cl))
  = [(0, join_room "room-1" None); (0, leave_room "room-1"); (0, leave_room "room-1")].
Proof. reflexivity. Qed.


(* ===================================================================== *)
(** * The storage cleaning script *)
(* ===================================================================== *)

Lemma filter_length_eq {A} (P : A → Prop) `{!∀ x, Decision (P x)} (l : list A) :
  length (filter P l) = length l → filter P l = l.
Proof.
  induction l as [|x l IH]; [done|].
  rewrite filter_cons. case_decide; simpl.
  - intros [= Hlen]. by rewrite IH.
  - pose proof (length_filter P l). lia.
Qed.

(** An entry that [clean_entry] keeps or writes holds an array of valid
    items, and is kept as it is by a second pass. *)
Lemma clean_entry_Some (entry entry' : CacheEntry) :
  clean_entry entry = Some entry' →
  entry_truthy entry' = true
  ∧ (∃ items, entry_parse entry' = Some (JArray items)
              ∧ Forall (λ item, valid_item item = true) items)
  ∧ clean_entry entry' = Some entry'.
Proof.
  unfold clean_entry.
  destruct (entry_truthy entry) eqn:Ht; [|done]. cbn [negb].
  destruct (entry_parse entry) as [[| | | |parsed|]|] eqn:Hp; try done.
  set (validItems := filter (λ item, valid_item item) parsed).
  assert (Forall (λ item, valid_item item = true) validItems) as Hvalid.
  { apply Forall_forall. intros item [Hv _]%list_elem_of_filter.
    by apply Is_true_true_1. }
  assert (filter (λ item, valid_item item) validItems = validItems) as Hfix.
  { subst validItems. rewrite list_filter_filter. apply list_filter_iff. tauto. }
  case_bool_decide as Hlen; intros [= <-].
  - split; [done|]. split; [by exists validItems|].
    cbn [entry_truthy entry_parse negb]. fold validItems. rewrite Hfix.
    by rewrite bool_decide_eq_false_2 by (intros H; by apply H).
  - assert (validItems = parsed) as Heq by (by apply filter_length_eq).
    split; [done|]. split; [exists parsed; by rewrite <- Heq at 2|].
    rewrite Ht, Hp. cbn [negb]. fold validItems.
    by rewrite bool_decide_eq_false_2 by (intros H; by apply H).
Qed.

(** On an array of valid items, the filter of the fallback of
    [handleDeleteRoom] does not throw. *)
Lemma filter_cached_rooms_valid (roomToDelete : string) (items : list Json) :
  Forall (λ item, valid_item item = true) items →
  ∃ updatedRooms, filter_cached_rooms roomToDelete items = Normal updatedRooms.
Proof.
  induction 1 as [|item items Hitem _ [rest IH]]; [by eexists|].
  simpl. rewrite IH. destruct item; try done. by eexists.
Qed.

(** X23. The cleaning script is idempotent. After it, every key that
    starts with [chat_rooms_] holds a text that is not empty and parses to an
    array whose items are all objects with a string [id] that is not empty,
    so that the fallback of [handleDeleteRoom] would not throw on it; a
    [lastRoomId] that is left is the empty string; every other key is
    untouched. *)
Theorem cleanLocalStorage_idempotent (storage : Storage) :
  let cleaned := cleanLocalStorage storage in
  cleanLocalStorage cleaned = cleaned
  ∧ (∀ key entry, String.prefix "chat_rooms_" key = true → cleaned !! key = Some entry →
       entry_truthy entry = true
       ∧ (∃ items, entry_parse entry = Some (JArray items)
                   ∧ Forall (λ item, valid_item item = true) items)
       ∧ ∀ room h, ∃ h', cache_cleanup room (set_cache (Some entry) h) = (Normal (), h'))
  ∧ (∀ entry, cleaned !! "lastRoomId" = Some entry → entry_truthy entry = false)
  ∧ (∀ key, String.prefix "chat_rooms_" key = false → key ≠ "lastRoomId" →
       cleaned !! key = storage !! key).
Proof.
  intros cleaned. subst cleaned. unfold cleanLocalStorage, Storage in *. cbv zeta.
  set (f := λ (key : string) entry,
              if String.prefix "chat_rooms_" key then clean_entry entry else Some entry).
  set (m1 := map_imap f storage).
  assert (∀ key entry, String.prefix "chat_rooms_" key = true → m1 !! key = Some entry →
            ∃ entry0, clean_entry entry0 = Some entry) as Hclean.
  { intros key entry Hpre. subst m1. rewrite map_lookup_imap.
    destruct (storage !! key) as [entry0|]; simpl; [|done]. unfold f. rewrite Hpre.
    by exists entry0. }
  assert (map_imap f m1 = m1) as Hm1.
  { apply map_eq. intros key. rewrite map_lookup_imap.
    destruct (m1 !! key) as [entry|] eqn:E; simpl; [|done]. unfold f.
    destruct (String.prefix "chat_rooms_" key) eqn:Hpre; [|done].
    destruct (Hclean key entry Hpre E) as [entry0 H0].
    by apply clean_entry_Some in H0 as (_ & _ & ?). }
  set (cleaned := match m1 !! "lastRoomId" with
                  | Some lastRoomId =>
                      if entry_truthy lastRoomId then delete "lastRoomId" m1 else m1
                  | None => m1
                  end).
  assert (∀ key, key ≠ "lastRoomId" → cleaned !! key = m1 !! key) as Hother.
  { intros key Hne. subst cleaned. destruct (m1 !! "lastRoomId") as [e|]; [|done].
    destruct (entry_truthy e); [|done]. by rewrite lookup_delete_ne. }
  assert (∀ entry, cleaned !! "lastRoomId" = Some entry → entry_truthy entry = false) as Hlast.
  { intros entry. subst cleaned. destruct (m1 !! "lastRoomId") as [e|] eqn:E.
    - destruct (entry_truthy e) eqn:Ht.
      + by rewrite lookup_delete_eq.
      + rewrite E. by intros [= <-].
    - by rewrite E. }
  assert (map_imap f cleaned = cleaned) as Hfix.
  { subst cleaned. destruct (m1 !! "lastRoomId") as [e|]; [|done].
    destruct (entry_truthy e); [|done]. by rewrite map_imap_delete, Hm1. }
  split_and!.
  - rewrite Hfix. destruct (cleaned !! "lastRoomId") as [entry|]; [|done].
    by rewrite (Hlast entry eq_refl).
  - intros key entry Hpre Hkey.
    assert (key ≠ "lastRoomId") as Hne by (intros ->; done).
    rewrite Hother in Hkey by done.
    destruct (Hclean key entry Hpre Hkey) as [entry0 H0].
    apply clean_entry_Some in H0 as (Ht & (items & Hp & Hvalid) & _).
    split; [done|]. split; [by exists items|].
    intros room h. unfold cache_cleanup. cbn [cache set_cache]. rewrite Ht, Hp.
    destruct (filter_cached_rooms_valid room items Hvalid) as [updated ->].
    by eexists.
  - done.
  - intros key Hpre Hne. rewrite Hother by done. subst m1.
    rewrite map_lookup_imap. destruct (_ !! key); simpl; [|done].
    unfold f. by rewrite Hpre.
Qed.

(** A storage with a corrupted entry, an entry with one corrupted item, a
    good entry and the last room: after the cleaning. *)
Example cleanLocalStorage_sample :
  let good := JObject [("id", JString "room-1")] in
  let storage : Storage :=
    {[ "chat_rooms_u1" := cache_text "oops" None;
       "chat_rooms_u2" := cache_text "[{..},null]" (Some (JArray [good; JNull]));
       "chat_rooms_u3" := cache_text "[{..}]" (Some (JArray [good]));
       "lastRoomId" := cache_text "room-1" None;
       "theme" := cache_text "dark" None ]} in
  cleanLocalStorage storage
  = {[ "chat_rooms_u2" := cache_json (JArray [good]);
       "chat_rooms_u3" := cache_text "[{..}]" (Some (JArray [good]));
       "theme" := cache_text "dark" None ]}.
Proof. vm_compute. reflexivity. Qed.


(* ===================================================================== *)
(** * [socket.ts]: the socket comes and goes *)
(* ===================================================================== *)

(** X24. A connection error makes the socket fall back to polling, and
    does nothing else: after the handler the socket, if any, no longer lists
    websocket, nothing was emitted and the remembered room is the same; a
    second connection error changes nothing. The fallback lasts as long as
    the socket: once a failed reconnection has dropped it, the next socket
    is created with both transports again. *)
Theorem connect_error_falls_back_once (s : Env) :
  let s' := on_connect_error s in
  (∀ sock, socket s' = Some sock → websocket ∉ transports sock)
  ∧ (socket s = None ↔ socket s' = None)
  ∧ emitted s' = emitted s
  ∧ currentRoomId s' = currentRoomId s
  ∧ on_connect_error s' = s'
  ∧ socket (initSocket (on_reconnect_failed s')) = Some (mkSocket [polling; websocket]).
Proof.
  intros s'. subst s'. unfold on_connect_error.
  destruct (socket s) as [sock|] eqn:Hsock.
  - case_bool_decide as Hws; simpl.
    + split_and!; try done.
      intros sock' [= <-]. simpl. by intros ?%list_elem_of_singleton.
    + rewrite Hsock. rewrite bool_decide_eq_false_2 by done.
      split_and!; try done. by intros sock' [= <-].
  - rewrite Hsock. split_and!; done.
Qed.

(** X25. The functions that send on the socket create it when there is
    none, so each of them emits its event in every state, also after
    [disconnectSocket] or a failed reconnection. [actuallyJoinRoom] does not:
    run by the timer of [joinRoom] when the socket is gone, it emits nothing,
    but it remembers the room, which is joined when the next socket
    connects. *)
Theorem sends_create_socket_join_does_not (s : Env) (room : string) :
  (∀ content role messageId,
     emitted (sendMessage room content role messageId s)
     = emitted s ++ [(now s, send_message room messageId content role)])
  ∧ emitted (sendTypingIndicator room s) = emitted s ++ [(now s, user_typing room)]
  ∧ emitted (sendStoppedTypingIndicator room s)
    = emitted s ++ [(now s, user_stopped_typing room)]
  ∧ (∀ prompt,
       emitted (requestAIResponse room prompt s)
       = emitted s ++ [(now s, request_ai_response room prompt)])
  ∧ (∀ user, socket s = None → room ≠ "" →
       let s' := actuallyJoinRoom room user s in
       emitted s' = emitted s
       ∧ currentRoomId s' = Some room
       ∧ emitted (on_connect (initSocket s'))
         = emitted s ++ [(now s, join_room room
                                   (match safeUser user with
                                    | Some su => Some su
                                    | None => stored_currentUser s
                                    end))]).
Proof.
  split_and!; try (intros; apply emitted_send).
  intros user Hsock Hne s'. subst s'.
  rewrite emitted_actuallyJoinRoom, Hsock, currentRoomId_actuallyJoinRoom.
  split_and!; [done..|].
  unfold on_connect. rewrite currentRoomId_initSocket, currentRoomId_actuallyJoinRoom.
  cbn [truthy]. rewrite (bool_decide_eq_true_2 _ Hne).
  rewrite emitted_socket_emit by apply socket_initSocket.
  unfold actuallyJoinRoom, socket_emit, initSocket.
  destruct (safeUser user); simpl; rewrite ?Hsock; simpl; rewrite ?Hsock; done.
Qed.

(** A switch of rooms interrupted by [disconnectSocket]: the join is not
    sent, and the room is joined at the next connection. *)
Example join_after_disconnect :
  let cl := run [(0, call_joinRoom "A" None); (10, call_joinRoom "B" None);
                 (50, call_disconnectSocket)] (initial_client None) in
  let cl' := advance 200 cl in
  emitted (env cl') = [(0, join_room "A" None); (10, leave_room "A")]
  ∧ currentRoomId (env cl') = Some "B"
  ∧ emitted (on_connect (initSocket (env cl')))
    = [(0, join_room "A" None); (10, leave_room "A"); (200, join_room "B" None)].
Proof. vm_compute. done. Qed.

(* ===================================================================== *)
(** * A new chat while the debouncer is armed *)
(* ===================================================================== *)


(** [handleNewChat] touches no timer, and emits [leave-room] events only. *)
Lemma handleNewChat_begin_env (cl : Client) :
  same_timing (env cl) (env (handleNewChat_begin cl))
  ∧ typingTimeoutRef (ui (handleNewChat_begin cl)) = typingTimeoutRef (ui cl)
  ∧ stop_events (emitted (env (handleNewChat_begin cl))) = stop_events (emitted (env cl))
  ∧ (∀ room, roomId (ui cl) = Some room → room ≠ "" →
       (now (env cl), leave_room room) ∈ emitted (env (handleNewChat_begin cl))).
Proof.
  unfold handleNewChat_begin. cbn [env ui].
  set (e := match roomId (ui cl) with Some _ => _ | None => _ end).
  assert (same_timing (env cl) e) as Hsame.
  { subst e. destruct (roomId (ui cl)) as [room|]; [|apply same_timing_refl].
    destruct (truthy _); [apply same_timing_send|apply same_timing_refl]. }
  assert (emitted e = emitted (env cl)
                      ++ match roomId (ui cl) with
                         | Some room =>
                             if bool_decide (room ≠ "")
                             then [(now (env cl), leave_room room)] else []
                         | None => []
                         end) as He.
  { subst e. destruct (roomId (ui cl)) as [room|]; cbn [truthy]; [|by rewrite app_nil_r].
    case_bool_decide; [apply emitted_send|by rewrite app_nil_r]. }
  destruct (createRoom_begin_fields e) as (_ & Hem).
  split_and!.
  - eapply same_timing_trans; [exact Hsame|apply same_timing_createRoom_begin].
  - done.
  - rewrite Hem, He. unfold stop_events. rewrite !filter_app.
    assert (∀ (r : option string) (n : Z),
              filter (λ p : Z * Outbound, is_stop p.2)
                match r with
                | Some room => if bool_decide (room ≠ "") then [(n, leave_room room)] else []
                | None => []
                end = []) as Hnil.
    { intros [room|] n; [|done]. by case_bool_decide. }
    by rewrite !Hnil, !app_nil_r.
  - intros room Hroom Hne. rewrite Hem, He, Hroom.
    rewrite (bool_decide_eq_true_2 _ Hne). apply elem_of_app. left.
    apply elem_of_app. right. by left.
Qed.

(** X26. A new chat while the idle timer of the debouncer is pending: the
    room is left at once and forgotten by the component, but the timer is
    not cleared, so [user-stopped-typing] for the room that was left is still
    emitted, 2 seconds after the keystroke. *)
Theorem handleNewChat_keeps_idle_timer (cl : Client) (room value : string) (t0 t : Z) :
  reachable cl → roomId (ui cl) = Some room → room ≠ "" → trim value ≠ "" →
  now (env cl) ≤ t0 → (∀ tm, tm ∈ typing_timers (env cl) → t0 < fire_at tm) →
  t0 + 2000 ≤ t →
  let cl1 := handleNewChat_begin (step (input_change value) (advance t0 cl)) in
  (t0, leave_room room) ∈ emitted (env cl1)
  ∧ roomId (ui cl1) = None
  ∧ stop_events (emitted (env (advance t cl1)))
    = stop_events (emitted (env cl)) ++ [(t0 + 2000, user_stopped_typing room)].
Proof.
  intros Hreach Hroom Hne Hv Hnow Hlate Ht cl1.
  pose proof (reachable_Inv cl Hreach) as Hinv.
  destruct (keystroke_arms cl room value t0 Hinv Hroom Hne Hv Hnow Hlate)
    as (Hinv' & Hroom' & Hnow' & Hstops & tm & Htt & Hfire & Htask).
  set (cl' := step (input_change value) (advance t0 cl)) in *.
  destruct (handleNewChat_begin_env cl') as (Hsame & Href & Hstops1 & Hleave).
  fold cl1 in Hsame, Href, Hstops1, Hleave.
  assert (Inv cl1) as Hinv1.
  { destruct Hinv' as [He Hty]. split.
    - by eapply EnvInv_same_timing.
    - rewrite Href. by eapply TypingInv_same_timing. }
  assert (typing_timers (env cl1) = [tm]) as Htt1
    by (by rewrite (typing_timers_same _ _ (proj1 Hsame))).
  split_and!.
  - rewrite <- Hnow'. by apply Hleave.
  - done.
  - unfold advance. cbn [env emitted set_now].
    destruct (run_due_stop (length (timers (env cl1))) t cl1 tm room)
      as (Hev & _); try done; [lia|].
    change (emitted (set_now _ ?e)) with (emitted e).
    by rewrite Hev, Hstops1, Hstops, Hfire.
Qed.

Lemma handleNewChat_keeps_idle_timer_witness :
  let cl := initial_client (Some "room-1") in
  let cl1 := handleNewChat_begin (step (input_change "hello") (advance 100 cl)) in
  (100, leave_room "room-1") ∈ emitted (env cl1)
  ∧ roomId (ui cl1) = None
  ∧ stop_events (emitted (env (advance 5000 cl1)))
    = [(2100, user_stopped_typing "room-1")].
Proof.
  apply (handleNewChat_keeps_idle_timer (initial_client (Some "room-1")) "room-1" "hello"
           100 5000).
  - by exists (Some "room-1"), [].
  - reflexivity.
  - done.
  - vm_compute. done.
  - simpl. lia.
  - by intros tm ?%elem_of_nil.
  - lia.
Defined.


(* ===================================================================== *)
(** * The title of a chat opened from its history *)
(* ===================================================================== *)

(** X27. A snapshot without chat info whose timestamps are those of valid
    dates, received while the title is the default one, then the title
    effect: the chat is named after the user message of the snapshot with
    the earliest timestamp, wherever the server listed it, since the effect
    reads the list the handler sorted; it keeps the default title when the
    snapshot has no user message. *)
Theorem title_names_earliest_user_message (data : RoomData.t) (c : Comp) :
  RoomData.chatInfo data = None → ChatInfo.title (chatInfo c) = default_title →
  Forall (λ e, in_time_range (SocketChatMessage.timestamp e)) (RoomData.messages data) →
  let c1 := generate_title (on_room_history data c) in
  ((∀ msg, msg ∈ RoomData.messages data → SocketChatMessage.role msg ≠ role_user)
   ∧ ChatInfo.title (chatInfo c1) = default_title)
  ∨ ∃ msg,
      msg ∈ RoomData.messages data
      ∧ SocketChatMessage.role msg = role_user
      ∧ (∀ msg', msg' ∈ RoomData.messages data → SocketChatMessage.role msg' = role_user →
                 SocketChatMessage.timestamp msg ≤ SocketChatMessage.timestamp msg')
      ∧ ChatInfo.title (chatInfo c1)
        = (let content := SocketChatMessage.content msg in
           if bool_decide (30 < String.length content)%nat
           then String.substring 0 30 content +:+ "..."
           else String.substring 0 30 content).
Proof.
  intros Hinfo Htitle Hr c1. subst c1.
  assert (∀ e, e ∈ RoomData.messages data →
               time_of (localize e) = SocketChatMessage.timestamp e) as Htime.
  { intros e He. apply time_of_localize. rewrite Forall_forall in Hr. by apply Hr. }
  set (c0 := on_room_history data c).
  assert (messages c0 = history_messages (RoomData.messages data)
          ∧ chatInfo c0 = chatInfo c) as [Hm Hc].
  { subst c0. unfold on_room_history. by rewrite Hinfo. }
  assert (∀ m, m ∈ messages c0 ↔ ∃ msg, msg ∈ RoomData.messages data ∧ m = localize msg)
    as Hmem.
  { intros m. rewrite Hm, history_messages_perm, list_elem_of_fmap.
    split; intros (msg & ? & ?); by exists msg. }
  unfold generate_title. rewrite Hc, Htitle.
  rewrite (bool_decide_eq_false_2 (default_title ≠ default_title)) by (intros H; by apply H).
  cbn [orb].
  destruct (list_find _ (messages c0)) as [[i m]|] eqn:Hfind.
  - apply list_find_Some in Hfind as (Hi & Hrole & Hfirst).
    destruct (proj1 (Hmem m) (list_elem_of_lookup_2 _ _ _ Hi)) as (msg & Hmsg & ->).
    right. exists msg. split; [done|]. split; [done|]. split.
    + intros msg' Hmsg' Hrole'.
      assert (localize msg' ∈ messages c0) as Hin by (apply Hmem; by exists msg').
      apply list_elem_of_lookup in Hin as [j Hj].
      destruct (decide (j < i)%nat) as [Hlt|Hge].
      { by destruct (Hfirst j (localize msg') Hj Hlt). }
      destruct (decide (j = i)) as [->|Hne].
      { assert (localize msg = localize msg') as Heq by congruence.
        apply (f_equal time_of) in Heq. rewrite !Htime in Heq by done. lia. }
      pose proof (history_messages_ascending (RoomData.messages data) Hr) as Hasc.
      rewrite <- Hm in Hasc.
      assert (i < j)%nat as Hij by lia.
      pose proof (Hasc i j _ _ Hij Hi Hj) as Hle. rewrite !Htime in Hle by done. lia.
    + assert (length (messages c0) ≠ 0%nat) as Hlen.
      { apply lookup_lt_Some in Hi. lia. }
      rewrite (bool_decide_eq_false_2 _ Hlen). simpl. done.
  - left. apply list_find_None in Hfind. rewrite Forall_forall in Hfind. split.
    + intros msg Hmsg Hrole. apply (Hfind (localize msg)); [|done].
      apply Hmem. by exists msg.
    + by destruct (bool_decide _); rewrite ?Hc.
Qed.

Lemma title_names_earliest_user_message_witness :
  let data := RoomData.mk "room-1"
                [sample_placeholder "m0" 5;
                 sample_message "m2" 200 "And a second question";
                 sample_message "m1" 100 "What is a shallow embedding, in short?"]
                [] None in
  let c1 := generate_title (on_room_history data sample_room) in
  ((∀ msg, msg ∈ RoomData.messages data → SocketChatMessage.role msg ≠ role_user)
   ∧ ChatInfo.title (chatInfo c1) = default_title)
  ∨ ∃ msg,
      msg ∈ RoomData.messages data
      ∧ SocketChatMessage.role msg = role_user
      ∧ (∀ msg', msg' ∈ RoomData.messages data → SocketChatMessage.role msg' = role_user →
                 SocketChatMessage.timestamp msg ≤ SocketChatMessage.timestamp msg')
      ∧ ChatInfo.title (chatInfo c1)
        = (let content := SocketChatMessage.content msg in
           if bool_decide (30 < String.length content)%nat
           then String.substring 0 30 content +:+ "..."
           else String.substring 0 30 content).
Proof.
  apply (title_names_earliest_user_message
           (RoomData.mk "room-1"
              [sample_placeholder "m0" 5;
               sample_message "m2" 200 "And a second question";
               sample_message "m1" 100 "What is a shallow embedding, in short?"]
              [] None) sample_room); [reflexivity..|].
  repeat constructor; unfold in_time_range, max_time; simpl; lia.
Defined.

(** With a timestamp that is not that of a valid date the snapshot stays in
    the order received, and the title comes from the user message listed
    first, not from the earliest. *)
Example title_of_invalid_date_snapshot :
  let data := RoomData.mk "room-1"
                [sample_message "u1" 8640000000000001 "far";
                 sample_message "u2" 100 "near"] [] None in
  ChatInfo.title (chatInfo (generate_title (on_room_history data sample_room))) = "far".
Proof. reflexivity. Qed.

(** The snapshot of the witness: the title comes from the message listed
    last, which is the earliest. *)
Example title_of_unordered_snapshot :
  let data := RoomData.mk "room-1"
                [sample_placeholder "m0" 5;
                 sample_message "m2" 200 "And a second question";
                 sample_message "m1" 100 "What is a shallow embedding, in short?"]
                [] None in
  ChatInfo.title (chatInfo (generate_title (on_room_history data sample_room)))
  = "What is a shallow embedding, i...".
Proof. reflexivity. Qed.
